(** * gopoolx: a fixed-size worker pool with retry, error collection and futures

    A shallow embedding of the Go package [gopoolx] and the properties of
    it that its specification states: pool.go ([Pool], [New], [Submit],
    [Run], [worker], [executeWithRetry], [Wait], [Errors]), future.go
    ([Future], [complete], [Get]), task.go, errors.go ([ErrorCollector],
    [panicError]), SubmitWithResult, and the options file that pool.go is
    written against (the one with [QueueFullPolicy]).

    Goroutines are modelled by an interleaving semantics.  The state of
    the program ([System]) is the [Pool], the goroutines started by [Run],
    the heap of [Future] cells and the callers of [Wait]; an [action] is
    one atomic step of one goroutine, and [step] is the program's step
    function.  Atomic are: a call of [Submit] up to the point where it
    returns or parks in its blocking send, one pass of a worker through
    its [select], one call of [executeWithRetry], the worker's
    [wg.Done()], and the two halves of [Wait] ([wg.Wait()], then
    [once.Do]).

    The channel follows the Go runtime ([chansend], [chanrecv],
    [closechan]): a buffer, the queue of parked receivers, the queue of
    parked senders and the closed flag.  [sync.WaitGroup] is its counter,
    [sync.Once] a flag, [ErrorCollector] its slice (the mutex makes each
    method atomic).  A caller's task is a closure the model cannot look
    into: it is given by how its calls end.  Fields named ghost are not in
    the program; they name what the properties speak about.

    The first part of the properties follows the specification, claim by
    claim; the second part (X1 onwards) states what else the code shows:
    the collector, the bound and the order of the queue, the panics of
    the pool's own operations, the workers, the policies, the retry loop,
    and the Futures.  The isolation of panics (C4) comes at its end: it
    rests on the invariants of the queue and of the Futures. *)

From Stdlib Require Import ZArith String Lia Bool.
From stdpp Require Import base list sorting.

Local Open Scope Z_scope.

(** ** Go values *)

(** Go's [int]: 64 bits on the usual targets; [i++] wraps around. *)
Definition int_bits : Z := 64.
Definition max_int : Z := 2 ^ (int_bits - 1) - 1.
Definition min_int : Z := - 2 ^ (int_bits - 1).
Definition wrap_int (z : Z) : Z := (z - min_int) mod 2 ^ int_bits + min_int.

(** The zero value of a Go type. *)
Class Zero (T : Type) := zero : T.

(** The value carried by a panic ([any]), as [%v] prints it.  A panic value
    is never nil: since Go 1.21 [panic(nil)] raises a non-nil
    [*runtime.PanicNilError]. *)
Definition any := string.

(** Non-nil values of the interface [error]. *)
Inductive goerr :=
| ErrQueueFull                 (* errors.New("task queue is full") *)
| Errorf (msg : string)        (* fmt.Errorf *)
| TaskError (msg : string)     (* an error made by the caller's task *)
| CtxError (msg : string).     (* ctx.Err() of a finished context *)

(** [error]: [None] is nil. *)
Definition error := option goerr.

(** errors.go: [fmt.Errorf("task panic: %v", r)]. *)
Definition panicError (r : any) : goerr :=
  Errorf (String.append "task panic: " r).

(** The runtime's panic value when a closed channel is closed again. *)
Definition close_of_closed_channel : any := "close of closed channel"%string.
Definition nil_dereference : any :=
  "invalid memory address or nil pointer dereference"%string.

(** ** errors.go: ErrorCollector

    Every method holds the mutex for its whole body, so each is one atomic
    step on the slice [errs]. *)
Definition ErrorCollector := list goerr.

Definition Add (e : ErrorCollector) (err : error) : ErrorCollector :=
  match err with
  | None => e
  | Some x => e ++ [x]
  end.

(** [Errors] returns a fresh copy of the slice. *)
Definition Errors (e : ErrorCollector) : list goerr := e.

(** ** The options file *)

(** [type QueueFullPolicy int] with its three [iota] constants. *)
Definition QueueFullPolicy := Z.
Definition QueueFullWait : QueueFullPolicy := 0.
Definition QueueFullDiscard : QueueFullPolicy := 1.
Definition QueueFullReturnError : QueueFullPolicy := 2.

Record Options := {
  retry : Z;
  retryDelay : Z;
  queueSize : Z;
  queueFullPolicy : QueueFullPolicy
}.

Definition Option := Options -> Options.

Definition WithRetry (n : Z) : Option := fun o =>
  {| retry := n; retryDelay := retryDelay o; queueSize := queueSize o;
     queueFullPolicy := queueFullPolicy o |}.

Definition WithRetryDelay (d : Z) : Option := fun o =>
  {| retry := retry o; retryDelay := d; queueSize := queueSize o;
     queueFullPolicy := queueFullPolicy o |}.

Definition WithQueueSize (n : Z) : Option := fun o =>
  {| retry := retry o; retryDelay := retryDelay o; queueSize := n;
     queueFullPolicy := queueFullPolicy o |}.

Definition WithQueueFullPolicy (policy : QueueFullPolicy) : Option := fun o =>
  {| retry := retry o; retryDelay := retryDelay o; queueSize := queueSize o;
     queueFullPolicy := policy |}.

Definition defaultOptions : Options :=
  {| retry := 0; retryDelay := 0; queueSize := 0;
     queueFullPolicy := QueueFullWait |}.

Section Model.
Context {T : Type} {zeroT : Zero T}.

(** ** future.go *)

(** [done] is the channel that [complete] closes: [true] once closed.
    [completions] is a ghost field: how often [complete] ran on the cell. *)
Record Future := {
  result : T;
  err : error;
  done : bool;
  completions : nat
}.

Definition newFuture : Future :=
  {| result := zero; err := None; done := false; completions := 0 |}.

(** [complete] writes both fields and then closes [done]; closing a closed
    channel panics, after the fields were overwritten. *)
Definition complete (f : Future) (res : T) (e : error) : Future * option any :=
  ({| result := res; err := e; done := true;
      completions := S (completions f) |},
   if done f then Some close_of_closed_channel else None).

(** A [context.Context] as [Get] sees it: [Some e] once it is done, with
    [e] its [Err()]. *)
Definition Context := option goerr.

(** [Get]: a [select] over [ctx.Done()] and [f.done].  [None]: neither is
    ready and the caller stays blocked.  When both are ready Go picks one
    case at random: [pick_ctx] is that choice. *)
Definition Get (pick_ctx : bool) (f : Future) (ctx : Context)
  : option (T * error) :=
  match ctx, done f with
  | Some e, true => if pick_ctx then Some (zero, Some e)
                    else Some (result f, err f)
  | Some e, false => Some (zero, Some e)
  | None, true => Some (result f, err f)
  | None, false => None
  end.

(** ** task.go *)

(** How one call of a function ends. *)
Inductive outcome :=
| Return (e : error)
| Panicked (r : any).

(** How one call of a producer [func(ctx) (T, error)] ends. *)
Inductive presult :=
| PReturn (res : T) (e : error)
| PPanic (r : any).

(** A [Task] value is a closure.  The caller's closures are opaque: [Plain
    body] answers its [n]-th call (from 0) with [body n].  [Wrapper fid fn]
    is the closure that SubmitWithResult builds around the producer [fn]
    and the Future at address [fid]. *)
Inductive Code :=
| Plain (body : nat -> outcome)
| Wrapper (fid : nat) (fn : nat -> presult).

(** [tag] is a ghost name: the number of the Submit call the value was
    passed to. *)
Record Task := { tag : nat; code : Code }.

(** [future.complete(res, e)] on the heap of Futures. *)
Definition complete_at (fs : list Future) (fid : nat) (res : T) (e : error)
  : list Future * option any :=
  match fs !! fid with
  | Some f => let '(f', p) := complete f res e in (<[fid := f']> fs, p)
  | None => (fs, Some nil_dereference)
  end.

(** One call [task(ctx)], the [n]-th of this closure.  The wrapper runs the
    producer and completes the Future in its deferred function: with the
    recovered panic when the producer panicked (the wrapper then returns
    the zero value of its unnamed result, nil), else with the producer's
    pair.  A panic of [complete] itself leaves the deferred function and
    the task. *)
Definition call (t : Task) (n : nat) (fs : list Future)
  : list Future * outcome :=
  match code t with
  | Plain body => (fs, body n)
  | Wrapper fid fn =>
      match fn n with
      | PPanic r =>
          let '(fs', p) := complete_at fs fid zero (Some (panicError r)) in
          (fs', match p with Some r' => Panicked r' | None => Return None end)
      | PReturn res e =>
          let '(fs', p) := complete_at fs fid res e in
          (fs', match p with Some r' => Panicked r' | None => Return e end)
      end
  end.

(** ** Channels, as the Go runtime implements [chan Task] *)

Record Chan := {
  cap : Z;                (* the buffer's size; 0: unbuffered *)
  buf : list Task;        (* the buffered values, oldest first *)
  recvq : list nat;       (* goroutines parked in a receive, oldest first *)
  sendq : list Task;      (* the values of goroutines parked in a send *)
  closed : bool
}.

Definition make_chan (n : Z) : Chan :=
  {| cap := n; buf := []; recvq := []; sendq := []; closed := false |}.

Inductive send_result :=
| SendDirect (w : nat) (c : Chan)  (* handed to the parked receiver [w] *)
| SendBuffered (c : Chan)
| SendWouldBlock                   (* no receiver and no room *)
| SendPanic.                       (* send on closed channel *)

Definition chansend (c : Chan) (t : Task) : send_result :=
  if closed c then SendPanic
  else match recvq c with
       | w :: ws =>
           SendDirect w {| cap := cap c; buf := buf c; recvq := ws;
                           sendq := sendq c; closed := closed c |}
       | [] =>
           if Z.of_nat (length (buf c)) <? cap c
           then SendBuffered {| cap := cap c; buf := buf c ++ [t];
                                recvq := recvq c; sendq := sendq c;
                                closed := closed c |}
           else SendWouldBlock
       end.

(** A blocking send that cannot proceed parks the sender with its value. *)
Definition park_sender (c : Chan) (t : Task) : Chan :=
  {| cap := cap c; buf := buf c; recvq := recvq c; sendq := sendq c ++ [t];
     closed := closed c |}.

Inductive recv_result :=
| Recv (t : Task) (woken : option Task) (c : Chan)
    (* received [t]; [woken]: the parked sender whose send went through *)
| RecvClosed                       (* closed and drained: [ok = false] *)
| RecvWouldBlock.

Definition chanrecv (c : Chan) : recv_result :=
  match buf c, sendq c with
  | t :: rest, s :: ss =>
      Recv t (Some s) {| cap := cap c; buf := rest ++ [s]; recvq := recvq c;
                         sendq := ss; closed := closed c |}
  | t :: rest, [] =>
      Recv t None {| cap := cap c; buf := rest; recvq := recvq c;
                     sendq := []; closed := closed c |}
  | [], s :: ss =>
      Recv s (Some s) {| cap := cap c; buf := []; recvq := recvq c;
                         sendq := ss; closed := closed c |}
  | [], [] => if closed c then RecvClosed else RecvWouldBlock
  end.

Definition park_receiver (c : Chan) (w : nat) : Chan :=
  {| cap := cap c; buf := buf c; recvq := recvq c ++ [w]; sendq := sendq c;
     closed := closed c |}.

(** The parked receivers leave the queue: the other case of their
    [select] fired. *)
Definition drop_receivers (c : Chan) : Chan :=
  {| cap := cap c; buf := buf c; recvq := []; sendq := sendq c;
     closed := closed c |}.

(** [close(c)]: [None] is the panic "close of closed channel".  The parked
    receivers are released (each sees [ok = false]); what becomes of parked
    senders is the caller's concern, they panic. *)
Definition closechan (c : Chan) : option Chan :=
  if closed c then None
  else Some {| cap := cap c; buf := buf c; recvq := []; sendq := sendq c;
               closed := true |}.

(** ** pool.go *)

(** [wg] is the counter of the [sync.WaitGroup], [once] whether the
    [sync.Once] has run. *)
Record Pool := {
  workerNum : Z;
  tasks : Chan;
  wg : Z;
  once : bool;
  opts : Options;
  errs : ErrorCollector
}.

(** [New(workerNum, opts...)].  The size given to [make(chan Task, size)]
    is taken to be one the runtime accepts: beyond that [make] panics,
    which is not modelled. *)
Definition New (n : Z) (os : list Option) : Pool :=
  let o := fold_left (fun o opt => opt o) os defaultOptions in
  {| workerNum := n;
     tasks := if 0 <? queueSize o then make_chan (queueSize o)
              else make_chan 0;
     wg := 0; once := false; opts := o; errs := [] |}.

Definition set_tasks (p : Pool) (c : Chan) : Pool :=
  {| workerNum := workerNum p; tasks := c; wg := wg p; once := once p;
     opts := opts p; errs := errs p |}.
Definition set_wg (p : Pool) (n : Z) : Pool :=
  {| workerNum := workerNum p; tasks := tasks p; wg := n; once := once p;
     opts := opts p; errs := errs p |}.
Definition set_errs (p : Pool) (e : ErrorCollector) : Pool :=
  {| workerNum := workerNum p; tasks := tasks p; wg := wg p; once := once p;
     opts := opts p; errs := e |}.
Definition set_once (p : Pool) (b : bool) : Pool :=
  {| workerNum := workerNum p; tasks := tasks p; wg := wg p; once := b;
     opts := opts p; errs := errs p |}.

(** [wg.Add(delta)], [wg.Done()]. *)
Definition wg_Add (p : Pool) (delta : Z) : Pool := set_wg p (wg p + delta).
Definition wg_Done (p : Pool) : Pool := wg_Add p (-1).

(** What a call of [Submit] does and the Pool it leaves. *)
Inductive submit_result :=
| Enqueued (p : Pool) (woken : option nat)
    (* the send went through, to the buffer or to the parked worker
       [woken]; Submit returns nil *)
| Dropped (p : Pool)              (* Discard, queue full: returns nil *)
| Rejected (p : Pool) (e : goerr) (* ReturnError, queue full: returns e *)
| Parked (p : Pool)               (* Wait, queue full: the caller is parked *)
| SubmitPanics (p : Pool).        (* send on closed channel *)

(** The [error] that Submit returns, once it returns. *)
Definition returned (r : submit_result) : option error :=
  match r with
  | Enqueued _ _ | Dropped _ => Some None
  | Rejected _ e => Some (Some e)
  | Parked _ | SubmitPanics _ => None
  end.

Definition Submit (p : Pool) (task : Task) : submit_result :=
  let p := wg_Add p 1 in
  if queueFullPolicy (opts p) =? QueueFullDiscard then
    match chansend (tasks p) task with
    | SendDirect w c => Enqueued (set_tasks p c) (Some w)
    | SendBuffered c => Enqueued (set_tasks p c) None
    | SendWouldBlock => Dropped (wg_Done p)
    | SendPanic => SubmitPanics p
    end
  else if queueFullPolicy (opts p) =? QueueFullReturnError then
    match chansend (tasks p) task with
    | SendDirect w c => Enqueued (set_tasks p c) (Some w)
    | SendBuffered c => Enqueued (set_tasks p c) None
    | SendWouldBlock =>
        let p := wg_Done p in
        Rejected (set_errs p (Add (errs p) (Some ErrQueueFull))) ErrQueueFull
    | SendPanic => SubmitPanics p
    end
  else
    match chansend (tasks p) task with
    | SendDirect w c => Enqueued (set_tasks p c) (Some w)
    | SendBuffered c => Enqueued (set_tasks p c) None
    | SendWouldBlock => Parked (set_tasks p (park_sender (tasks p) task))
    | SendPanic => SubmitPanics p
    end.

(** *** executeWithRetry *)

(** How the [for] loop is left: by [return] or by falling out of it with
    the last [err], or unwinding with a panic. *)
Inductive loop_exit :=
| Exit (e : error)
| Unwind (r : any).

(** [for i := 0; i <= retry; i++ { err = task(ctx); if err == nil { return } ... }]
    from counter [i], after [n] calls, with [err] holding [e].  One unit of
    fuel per test of the loop condition.  The result gives how the loop
    was left ([None] when the fuel ran out with the loop still running), the
    number of calls made so far and the heap.  [time.Sleep] changes no
    state. *)
Fixpoint retry_loop (fuel : nat) (k : Z) (t : Task) (i : Z) (n : nat)
    (e : error) (fs : list Future) : option loop_exit * nat * list Future :=
  match fuel with
  | O => (None, n, fs)
  | S fuel' =>
      if i <=? k then
        match call t n fs with
        | (fs', Return None) => (Some (Exit None), S n, fs')
        | (fs', Return (Some x)) =>
            retry_loop fuel' k t (wrap_int (i + 1)) (S n) (Some x) fs'
        | (fs', Panicked r) => (Some (Unwind r), S n, fs')
        end
      else (Some (Exit e), n, fs)
  end.

(** The deferred function of executeWithRetry, given how the loop was
    left: the Pool afterwards, what it added to the collector (ghost) and
    the panic that goes on unwinding, if any. *)
Definition recovery (p : Pool) (ex : loop_exit)
  : Pool * list goerr * option any :=
  match ex with
  | Unwind r =>
      (set_errs p (Add (errs p) (Some (panicError r))), [panicError r], None)
  | Exit (Some x) => (set_errs p (Add (errs p) (Some x)), [x], None)
  | Exit None => (p, [], None)
  end.

Record Executed := {
  ex_pool : Pool;
  ex_futures : list Future;
  ex_calls : nat;               (* ghost: how often the task was called *)
  ex_recorded : list goerr;     (* ghost: what was added to the collector *)
  ex_escaped : option any       (* a panic that leaves executeWithRetry *)
}.

Definition executeWithRetry (fuel : nat) (p : Pool) (task : Task)
    (fs : list Future) : option Executed :=
  match retry_loop fuel (retry (opts p)) task 0 0 None fs with
  | (None, _, _) => None
  | (Some ex, n, fs') =>
      let '(p', rec, esc) := recovery p ex in
      Some {| ex_pool := p'; ex_futures := fs'; ex_calls := n;
              ex_recorded := rec; ex_escaped := esc |}
  end.

(** *** Wait *)

(** [p.wg.Wait()] returns when the counter is zero.  The checks by which
    sync.WaitGroup panics on misuse ([Add] racing with [Wait]) are not
    modelled. *)
Definition wg_Wait (p : Pool) : bool := wg p =? 0.

(** [p.once.Do(func() { close(p.tasks) })]: [None] when [close] panics;
    else the Pool afterwards and whether [close] ran. *)
Definition once_Do_close (p : Pool) : option (Pool * bool) :=
  if once p then Some (p, false)
  else match closechan (tasks p) with
       | None => None
       | Some c => Some (set_once (set_tasks p c) true, true)
       end.

(** [Wait], when it does not block: [None] while the counter is not zero
    (the caller stays blocked), [Some None] when it panics. *)
Definition Wait (p : Pool) : option (option (Pool * bool)) :=
  if wg_Wait p then Some (once_Do_close p) else None.

(** ** SubmitWithResult *)

(** The heap with the new Future, the closure, and what Submit did.  When
    Submit returned an error the Future is completed with it at once. *)
Definition SubmitWithResult (p : Pool) (fs : list Future) (tg : nat)
    (fn : nat -> presult) : submit_result * list Future * nat * option any :=
  let fid := length fs in
  let fs := fs ++ [newFuture] in
  let r := Submit p {| tag := tg; code := Wrapper fid fn |} in
  match r with
  | Rejected _ e =>
      let '(fs', pn) := complete_at fs fid zero (Some e) in (r, fs', fid, pn)
  | _ => (r, fs, fid, None)
  end.

(** ** The running program *)

(** A goroutine started by [Run], by where it stands in [worker]. *)
Inductive Worker :=
| WSelect               (* at the [select] *)
| WParked               (* parked in the [select], in the channel's recvq *)
| WExec (t : Task)      (* received [t], before executeWithRetry returns *)
| WDone (t : Task)      (* before [p.wg.Done()] *)
| WStopped.             (* returned *)

Record System := {
  pool : Pool;
  workers : list Worker;   (* the goroutines of Run, by number *)
  futures : list Future;   (* the heap of Futures, by address *)
  ctx_done : bool;         (* the context given to Run is done *)
  waiters : nat;           (* callers of Wait between wg.Wait and once.Do *)
  nsub : nat;              (* ghost: calls of Submit so far *)
  crashed : bool           (* an unrecovered panic ended the process *)
}.

(** The program after [New(n, os...)]. *)
Definition init (n : Z) (os : list Option) : System :=
  {| pool := New n os; workers := []; futures := []; ctx_done := false;
     waiters := 0; nsub := 0; crashed := false |}.

(** What an observer of the run sees, by the ghost tag of the Submit call
    concerned. *)
Inductive event :=
| EvEnter (tg : nat)          (* Submit ran [wg.Add(1)] *)
| EvAccept (tg : nat)         (* the send went through: Submit returns nil *)
| EvDiscard (tg : nat)        (* Discard: undone, Submit returns nil *)
| EvReject (tg : nat)         (* ReturnError: undone, Submit returns the error *)
| EvExecuted (tg : nat) (calls : nat)
                              (* executeWithRetry returned after [calls] calls *)
| EvRecord (tg : nat) (e : goerr)   (* [errs.Add(e)] for that submission *)
| EvDone (tg : nat)           (* the worker ran [wg.Done()] *)
| EvWaitPass                  (* a [wg.Wait()] returned *)
| EvClose                     (* [close(p.tasks)] ran *)
| EvWaitReturn                (* a Wait returned *)
| EvPanic (r : any).          (* a panic nobody recovers *)

(** One atomic step of one goroutine, chosen by the scheduler. *)
Inductive action :=
| ARun                                  (* [Run(ctx)] *)
| ACancel                               (* the context becomes done *)
| ASubmit (body : nat -> outcome)       (* [Submit] of a caller's closure *)
| ASubmitWithResult (fn : nat -> presult)
| ASelect (w : nat) (pick_ctx : bool)   (* worker [w] at its [select] *)
| AExecute (w : nat) (fuel : nat)       (* worker [w] runs executeWithRetry *)
| AWgDone (w : nat)                     (* worker [w] runs [p.wg.Done()] *)
| AWaitPass                             (* a caller's [p.wg.Wait()] returns *)
| AWaitClose.                           (* that caller's [p.once.Do] *)

Definition set_pool (s : System) (p : Pool) : System :=
  {| pool := p; workers := workers s; futures := futures s;
     ctx_done := ctx_done s; waiters := waiters s; nsub := nsub s;
     crashed := crashed s |}.
Definition set_workers (s : System) (ws : list Worker) : System :=
  {| pool := pool s; workers := ws; futures := futures s;
     ctx_done := ctx_done s; waiters := waiters s; nsub := nsub s;
     crashed := crashed s |}.
Definition set_futures (s : System) (fs : list Future) : System :=
  {| pool := pool s; workers := workers s; futures := fs;
     ctx_done := ctx_done s; waiters := waiters s; nsub := nsub s;
     crashed := crashed s |}.
Definition set_waiters (s : System) (n : nat) : System :=
  {| pool := pool s; workers := workers s; futures := futures s;
     ctx_done := ctx_done s; waiters := n; nsub := nsub s;
     crashed := crashed s |}.
Definition set_nsub (s : System) (n : nat) : System :=
  {| pool := pool s; workers := workers s; futures := futures s;
     ctx_done := ctx_done s; waiters := waiters s; nsub := n;
     crashed := crashed s |}.
Definition crash (s : System) : System :=
  {| pool := pool s; workers := workers s; futures := futures s;
     ctx_done := ctx_done s; waiters := waiters s; nsub := nsub s;
     crashed := true |}.

(** [Run]: [workerNum] more goroutines, each at its [select]. *)
Definition Run (s : System) : System :=
  set_workers s (workers s ++ replicate (Z.to_nat (workerNum (pool s))) WSelect).

(** What a call of Submit with the closure [t] makes of the program, the
    heap being [fs] when Submit returns. *)
Definition submitted (s : System) (t : Task) (fs : list Future)
    (r : submit_result) : System * list event :=
  let s := set_nsub (set_futures s fs) (S (nsub s)) in
  match r with
  | Enqueued p (Some w) =>
      (set_workers (set_pool s p) (<[w := WExec t]> (workers s)),
       [EvEnter (tag t); EvAccept (tag t)])
  | Enqueued p None => (set_pool s p, [EvEnter (tag t); EvAccept (tag t)])
  | Dropped p => (set_pool s p, [EvEnter (tag t); EvDiscard (tag t)])
  | Rejected p e =>
      (set_pool s p,
       [EvEnter (tag t); EvRecord (tag t) e; EvReject (tag t)])
  | Parked p => (set_pool s p, [EvEnter (tag t)])
  | SubmitPanics p =>
      (crash (set_pool s p),
       [EvEnter (tag t); EvPanic "send on closed channel"%string])
  end.

(** Worker [w] at [select { case <-ctx.Done(): ...; case task, ok := <-p.tasks: ... }]. *)
Definition select_step (s : System) (w : nat) (pick_ctx : bool)
  : option (System * list event) :=
  match workers s !! w with
  | Some WSelect =>
      let stop := (set_workers s (<[w := WStopped]> (workers s)), []) in
      match chanrecv (tasks (pool s)) with
      | Recv t woken c =>
          if ctx_done s && pick_ctx then Some stop
          else Some (set_workers (set_pool s (set_tasks (pool s) c))
                       (<[w := WExec t]> (workers s)),
                     match woken with
                     | Some t' => [EvAccept (tag t')]
                     | None => []
                     end)
      | RecvClosed => Some stop
      | RecvWouldBlock =>
          if ctx_done s then Some stop
          else Some (set_workers
                       (set_pool s (set_tasks (pool s)
                                      (park_receiver (tasks (pool s)) w)))
                       (<[w := WParked]> (workers s)), [])
      end
  | _ => None
  end.

(** Worker [w] runs [p.executeWithRetry(ctx, task)]. *)
Definition execute_step (s : System) (w : nat) (fuel : nat)
  : option (System * list event) :=
  match workers s !! w with
  | Some (WExec t) =>
      match executeWithRetry fuel (pool s) t (futures s) with
      | None => None
      | Some x =>
          let s' := set_futures (set_pool s (ex_pool x)) (ex_futures x) in
          let evs := EvExecuted (tag t) (ex_calls x)
                     :: map (EvRecord (tag t)) (ex_recorded x) in
          match ex_escaped x with
          | Some r => Some (crash s', evs ++ [EvPanic r])
          | None =>
              Some (set_workers s' (<[w := WDone t]> (workers s)), evs)
          end
      end
  | _ => None
  end.

(** Worker [w] runs [p.wg.Done()]; a negative counter panics. *)
Definition wgdone_step (s : System) (w : nat)
  : option (System * list event) :=
  match workers s !! w with
  | Some (WDone t) =>
      if wg (pool s) - 1 <? 0
      then Some (crash s,
                 [EvPanic "sync: negative WaitGroup counter"%string])
      else Some (set_workers (set_pool s (wg_Done (pool s)))
                   (<[w := WSelect]> (workers s)), [EvDone (tag t)])
  | _ => None
  end.

(** The parked workers in [q] wake up and return: [close] released them
    with [ok = false], or the context is done. *)
Definition release (ws : list Worker) (q : list nat) : list Worker :=
  foldr (fun w ws => <[w := WStopped]> ws) ws q.

(** The context becomes done: the workers parked in their [select] wake
    up on [ctx.Done()] and return. *)
Definition cancel (s : System) : System :=
  {| pool := set_tasks (pool s) (drop_receivers (tasks (pool s)));
     workers := release (workers s) (recvq (tasks (pool s)));
     futures := futures s; ctx_done := true; waiters := waiters s;
     nsub := nsub s; crashed := crashed s |}.

(** The second half of Wait. *)
Definition waitclose_step (s : System) : option (System * list event) :=
  match waiters s with
  | O => None
  | S n =>
      let s := set_waiters s n in
      match once_Do_close (pool s) with
      | None => Some (crash s, [EvPanic close_of_closed_channel])
      | Some (p, false) => Some (set_pool s p, [EvWaitReturn])
      | Some (p, true) =>
          let s' := set_workers (set_pool s p)
                      (release (workers s) (recvq (tasks (pool s)))) in
          match sendq (tasks p) with
          | [] => Some (s', [EvClose; EvWaitReturn])
          | _ :: _ =>
              Some (crash s',
                    [EvClose; EvPanic "send on closed channel"%string])
          end
      end
  end.

(** The step function: [None] when the goroutine cannot take that step
    (it is blocked, or not at that point, or the process has crashed). *)
Definition step (s : System) (a : action) : option (System * list event) :=
  if crashed s then None
  else match a with
       | ARun => Some (Run s, [])
       | ACancel => Some (cancel s, [])
       | ASubmit body =>
           let t := {| tag := nsub s; code := Plain body |} in
           Some (submitted s t (futures s) (Submit (pool s) t))
       | ASubmitWithResult fn =>
           let '(r, fs, fid, pn) :=
             SubmitWithResult (pool s) (futures s) (nsub s) fn in
           let t := {| tag := nsub s; code := Wrapper fid fn |} in
           let '(s', evs) := submitted s t fs r in
           match pn with
           | Some x => Some (crash s', evs ++ [EvPanic x])
           | None => Some (s', evs)
           end
       | ASelect w pick_ctx => select_step s w pick_ctx
       | AExecute w fuel => execute_step s w fuel
       | AWgDone w => wgdone_step s w
       | AWaitPass =>
           if wg_Wait (pool s)
           then Some (set_waiters s (S (waiters s)), [EvWaitPass])
           else None
       | AWaitClose => waitclose_step s
       end.

(** A run: the actions taken from [s], the events seen, the state reached. *)
Fixpoint run (s : System) (acts : list action)
  : option (System * list event) :=
  match acts with
  | [] => Some (s, [])
  | a :: acts' =>
      match step s a with
      | None => None
      | Some (s', evs) =>
          match run s' acts' with
          | None => None
          | Some (s'', evs') => Some (s'', evs ++ evs')
          end
      end
  end.

(** [s'] is reached from [s], the events [evs] being seen on the way. *)
Inductive steps (s : System) : list event -> System -> Prop :=
| steps_refl : steps s [] s
| steps_snoc evs s' a s'' evs' :
    steps s evs s' ->
    step s' a = Some (s'', evs') ->
    steps s (evs ++ evs') s''.

(** The states of a program that started with [New], with the events seen
    since. *)
Definition reachable (s : System) (evs : list event) : Prop :=
  exists n os, steps (init n os) evs s.

(** The closures that are somewhere between Submit and [wg.Done()]: with a
    parked sender, in the buffer, or in the hands of a worker. *)
Definition held (w : Worker) : list Task :=
  match w with
  | WExec t | WDone t => [t]
  | _ => []
  end.

Definition inflight (s : System) : list Task :=
  sendq (tasks (pool s)) ++ buf (tasks (pool s))
  ++ concat (held <$> workers s).

(** [f'] is [f], or [complete] ran on the cell in between. *)
Definition grows (f f' : Future) : Prop :=
  f' = f \/ (completions f < completions f')%nat.

(** Every closure in flight came through a Submit call counted in [nsub],
    and a wrapper in flight refers to an allocated Future. *)
Definition tags_ok (s : System) : Prop :=
  forall x, x ∈ inflight s ->
    (tag x < nsub s)%nat
    /\ forall fid fn, code x = Wrapper fid fn ->
         (fid < length (futures s))%nat.

(** The Submit call [tg] was made and its closure is not in flight. *)
Definition absent (tg : nat) (s : System) : Prop :=
  (tg < nsub s)%nat /\ forall x, x ∈ inflight s -> tag x <> tg.

(** The Future at [g] is allocated and no closure in flight refers to it. *)
Definition orphan (g : nat) (s : System) : Prop :=
  (g < length (futures s))%nat
  /\ forall x fn, x ∈ inflight s -> code x <> Wrapper g fn.

(** Every call of the task returns an error, whatever the heap. *)
Definition always_fails (t : Task) : Prop :=
  forall n fs, exists x, (call t n fs).2 = Return (Some x).

(** The first [j] calls (0 .. j-1) of the task return an error. *)
Definition fails_before (t : Task) (j : nat) : Prop :=
  forall n fs, (n < j)%nat -> exists x, (call t n fs).2 = Return (Some x).

(** Call number [j] (from 0) of the task returns nil. *)
Definition succeeds_at (t : Task) (j : nat) : Prop :=
  forall fs, (call t j fs).2 = Return None.



(** The queue is at capacity: open, nobody parked to receive, no room. *)
Definition at_capacity (c : Chan) : Prop :=
  closed c = false /\ recvq c = [] /\ cap c <= Z.of_nat (length (buf c)).

(** The invariant of the running program: the WaitGroup counts the
    closures in flight, the channel's queue of receivers lists the parked
    workers, all of them and once each, and the channel is closed exactly
    when the Once has run. *)
Record inv (s : System) : Prop := {
  inv_wg : wg (pool s) = Z.of_nat (length (inflight s));
  inv_recvq : NoDup (recvq (tasks (pool s)));
  inv_parked :
    forall w, w ∈ recvq (tasks (pool s)) <-> workers s !! w = Some WParked;
  inv_once : closed (tasks (pool s)) = once (pool s)
}.

End Model.

(** ** Counting on the events *)

Fixpoint count (f : event -> bool) (evs : list event) : nat :=
  match evs with
  | [] => O
  | e :: evs' => ((if f e then 1 else 0) + count f evs')%nat
  end.

(** Calls of Submit that ran [wg.Add(1)]. *)
Definition entered : list event -> nat :=
  count (fun e => match e with EvEnter _ => true | _ => false end).

(** Calls of Submit that returned: the task was enqueued (or handed to a
    worker), or dropped, or rejected. *)
Definition accepted : list event -> nat :=
  count (fun e => match e with
                  | EvAccept _ | EvDiscard _ | EvReject _ => true
                  | _ => false
                  end).

(** Task executions that finished: a worker ran the task and then
    [wg.Done()], or Submit undid its own increment at once. *)
Definition finished : list event -> nat :=
  count (fun e => match e with
                  | EvDone _ | EvDiscard _ | EvReject _ => true
                  | _ => false
                  end).

(** How often [close(p.tasks)] ran. *)
Definition closes : list event -> nat :=
  count (fun e => match e with EvClose => true | _ => false end).

(** The errors recorded in the collector, in order. *)
Fixpoint recorded (evs : list event) : list goerr :=
  match evs with
  | [] => []
  | EvRecord _ e :: evs' => e :: recorded evs'
  | _ :: evs' => recorded evs'
  end.

(** The tags of the tasks whose execution finished with the worker's
    [wg.Done()], in order. *)
Fixpoint completed (evs : list event) : list nat :=
  match evs with
  | [] => []
  | EvDone tg :: evs' => tg :: completed evs'
  | _ :: evs' => completed evs'
  end.

(** The submissions [executeWithRetry] has run for, or an error has been
    recorded for. *)
Definition concerns (tg : nat) (e : event) : bool :=
  match e with
  | EvExecuted tg' _ | EvRecord tg' _ | EvDone tg' => Nat.eqb tg tg'
  | _ => false
  end.

(** ** The queue, the closures still to be run, and more counters *)

(** The values waiting in the channel, in the order in which receives
    will take them: the buffer, then the values of the parked senders. *)
Definition queue {T : Type} (c : @Chan T) : list (@Task T) := buf c ++ sendq c.

(** The closure a worker has received and not yet passed to
    executeWithRetry. *)
Definition awaiting {T : Type} (w : @Worker T) : list (@Task T) :=
  match w with
  | WExec t => [t]
  | _ => []
  end.

(** The closures that executeWithRetry has not run yet: with a parked
    sender, in the buffer, or just received by a worker. *)
Definition pending {T : Type} (s : @System T) : list (@Task T) :=
  sendq (tasks (pool s)) ++ buf (tasks (pool s))
  ++ concat (awaiting <$> workers s).

(** Every goroutine started by Run has returned. *)
Definition all_stopped {T : Type} (ws : list (@Worker T)) : Prop :=
  forall w wk, ws !! w = Some wk -> wk = WStopped.

(** The steps that neither submit nor execute. *)
Definition quiet {T : Type} (a : @action T) : bool :=
  match a with
  | ASubmit _ | ASubmitWithResult _ | AExecute _ _ => false
  | _ => true
  end.

(** The steps a worker still has to take for the task in its hands. *)
Definition effort {T : Type} (w : @Worker T) : nat :=
  match w with
  | WExec _ => 2
  | WDone _ => 1
  | _ => 0
  end.

(** The steps the workers still have to take for the tasks accepted so
    far: three for a task in the queue (receive, execute, [wg.Done()]). *)
Definition remaining {T : Type} (s : @System T) : nat :=
  3 * length (queue (tasks (pool s))) + sum_list_with effort (workers s).

(** The steps of the workers, the [select] taking the receive. *)
Definition worker_step {T : Type} (a : @action T) : bool :=
  match a with
  | ASelect _ false | AExecute _ _ | AWgDone _ => true
  | _ => false
  end.

(** How often [Run] is called in a list of steps. *)
Fixpoint runs {T : Type} (acts : list (@action T)) : nat :=
  match acts with
  | [] => O
  | ARun :: acts' => S (runs acts')
  | _ :: acts' => runs acts'
  end.

(** The values of the panics nobody recovered, in order. *)
Fixpoint panics (evs : list event) : list any :=
  match evs with
  | [] => []
  | EvPanic r :: evs' => r :: panics evs'
  | _ :: evs' => panics evs'
  end.

(** The runtime's panic value when a value is sent on a closed channel. *)
Definition send_on_closed_channel : any := "send on closed channel"%string.

(** Calls of Wait that have returned. *)
Definition waits_returned : list event -> nat :=
  count (fun e => match e with EvWaitReturn => true | _ => false end).

(** Calls of Submit that dropped their task, and calls that were
    rejected with an error. *)
Definition dropped : list event -> nat :=
  count (fun e => match e with EvDiscard _ => true | _ => false end).
Definition rejected : list event -> nat :=
  count (fun e => match e with EvReject _ => true | _ => false end).

(** How often executeWithRetry has returned for the Submit call [tg], and
    how many errors were recorded for it. *)
Definition executions (tg : nat) : list event -> nat :=
  count (fun e => match e with
                  | EvExecuted tg' _ => Nat.eqb tg tg'
                  | _ => false
                  end).
Definition errors_of (tg : nat) : list event -> nat :=
  count (fun e => match e with
                  | EvRecord tg' _ => Nat.eqb tg tg'
                  | _ => false
                  end).

(** What the channel of a running program always satisfies: its capacity
    is the configured one, the buffer is within it, a sender is parked
    only at a full buffer with no receiver parked, a receiver is parked
    only at an empty queue and never once the context is done, and the
    queue holds the closures by rising number of their Submit call. *)
Record queue_inv {T : Type} (s : @System T) : Prop := {
  q_cap : cap (tasks (pool s)) = Z.max 0 (queueSize (opts (pool s)));
  q_bound : Z.of_nat (length (buf (tasks (pool s)))) <= cap (tasks (pool s));
  q_senders :
    sendq (tasks (pool s)) <> [] ->
    recvq (tasks (pool s)) = []
    /\ Z.of_nat (length (buf (tasks (pool s)))) = cap (tasks (pool s));
  q_receivers :
    recvq (tasks (pool s)) <> [] -> queue (tasks (pool s)) = [];
  q_ctx : ctx_done s = true -> recvq (tasks (pool s)) = [];
  q_tags : forall x, x ∈ queue (tasks (pool s)) -> (tag x < nsub s)%nat;
  q_sorted : StronglySorted lt (tag <$> queue (tasks (pool s)))
}.

(** What holds of the closures still to be run and of the events: no two
    of them come from the same Submit call, nothing was executed or
    recorded for them or for calls not yet made, and for every call at
    most one execution and one recorded error. *)
Record exec_inv {T : Type} (s : @System T) (evs : list event) : Prop := {
  e_nodup : NoDup (tag <$> pending s);
  e_once : forall tg,
    (executions tg evs <= 1)%nat /\ (errors_of tg evs <= 1)%nat;
  e_fresh : forall tg,
    (nsub s <= tg)%nat \/ tg ∈ tag <$> pending s ->
    executions tg evs = O /\ errors_of tg evs = O;
  e_len : (length (recorded evs) + length (pending s) <= nsub s)%nat
}.

(** What holds of the Futures: the Future of a wrapper still to be run is
    pending, two wrappers still to be run have different Futures, and
    [complete] has run at most twice on any Future. *)
Record future_inv {T : Type} (s : @System T) : Prop := {
  f_pending : forall x g fn,
    x ∈ pending s -> code x = Wrapper g fn ->
    exists f, futures s !! g = Some f /\ done f = false
              /\ completions f = O;
  f_fid : forall x y g fn fn',
    x ∈ pending s -> y ∈ pending s ->
    code x = Wrapper g fn -> code y = Wrapper g fn' -> tag x = tag y;
  f_counts : forall g f,
    futures s !! g = Some f ->
    (completions f <= 2)%nat
    /\ (retry (opts (pool s)) <= 0 -> (completions f <= 1)%nat)
    /\ (done f = true <-> (0 < completions f)%nat)
}.

(** ** Concrete programs, with results of type [int] *)

#[global] Instance zero_int : Zero Z := 0.

(** The state reached and the events seen when the program made by
    [New(n, os...)] takes the steps [acts]. *)
Definition final (n : Z) (os : list Option) (acts : list (@action Z))
  : @System Z :=
  from_option fst (init n os) (run (init n os) acts).
Definition trace (n : Z) (os : list Option) (acts : list (@action Z))
  : list event :=
  from_option snd [] (run (init n os) acts).

Definition ok_task : nat -> outcome := fun _ => Return None.
Definition failing_task : nat -> outcome :=
  fun _ => Return (Some (TaskError "boom")).
Definition ok_producer : nat -> @presult Z := fun _ => PReturn 42 None.
Definition failing_producer : nat -> @presult Z :=
  fun _ => PReturn 0 (Some (TaskError "boom")).

(** One worker, a queue of one, and a policy. *)
Definition small (policy : QueueFullPolicy) : list Option :=
  [WithQueueSize 1; WithQueueFullPolicy policy].

(** The steps of some runs. *)
Definition fill_queue : list (@action Z) := [ARun; ASubmit ok_task].
Definition serve_one : list (@action Z) :=
  [ARun; ASubmit ok_task; ASubmit failing_task;
   ASelect 0 false; AExecute 0 1; AWgDone 0].
Definition wait_twice : list (@action Z) :=
  [ARun; AWaitPass; AWaitClose; AWaitPass; AWaitClose].
Definition complete_future : list (@action Z) :=
  [ARun; ASubmitWithResult ok_producer; ASelect 0 false; AExecute 0 1].
Definition retry_producer : list (@action Z) :=
  [ARun; ASubmitWithResult failing_producer; ASelect 0 false;
   AExecute 0 3; AWgDone 0].

(** A Future completed with (42, nil) and a context that was cancelled. *)
Definition future_42 : @Future Z :=
  {| result := 42; err := None; done := true; completions := 1 |}.
Definition cancelled : Context := Some (CtxError "context canceled").

(** More runs. *)
Definition park_worker : list (@action Z) := [ARun; ASelect 0 false].
Definition two_queued : list (@action Z) :=
  [ARun; ASubmit ok_task; ASubmit failing_task].
Definition wait_once : list (@action Z) := [ARun; AWaitPass; AWaitClose].
Definition run_twice : list (@action Z) := [ARun; ARun].
Definition cancel_with_queued : list (@action Z) :=
  [ARun; ASubmit ok_task; ACancel; ASelect 0 true].
Definition cancel_idle : list (@action Z) :=
  [ARun; ASelect 0 false; ACancel].
Definition queued_producer : list (@action Z) :=
  [ASubmitWithResult ok_producer].
Definition received_producer : list (@action Z) :=
  [ARun; ASubmitWithResult ok_producer; ASelect 0 false].

(** * Properties *)

Section Basics.
Context {T : Type} {zeroT : Zero T}.
Implicit Types (t : @Task T) (fs : list (@Future T)) (p : @Pool T)
  (s : @System T) (c : @Chan T) (ws : list (@Worker T)).

(** ** Go's int *)

Lemma max_int_pos : 0 < max_int.
Proof. reflexivity. Qed.

Lemma wrap_int_id z : min_int <= z <= max_int -> wrap_int z = z.
Proof.
  intros Hz. unfold wrap_int.
  rewrite Z.mod_small; [lia|].
  revert Hz. unfold min_int, max_int, int_bits. simpl. lia.
Qed.

Lemma wrap_int_max : wrap_int (max_int + 1) = min_int.
Proof. reflexivity. Qed.

(** ** The retry loop *)

Lemma retry_loop_exhausts t k (m : nat) :
  fails_before t (Z.to_nat (k + 1)) -> k < max_int ->
  forall i n e fs fuel,
    0 <= i -> i + Z.of_nat m = k + 1 -> Z.of_nat n = i ->
    (m < fuel)%nat ->
    exists e' fs',
      retry_loop fuel k t i n e fs = (Some (Exit e'), (n + m)%nat, fs')
      /\ (e' = None -> e = None /\ m = O).
Proof.
  intros Hf Hk. induction m as [|m IH]; intros i n e fs fuel Hi Him Hn Hfuel.
  - destruct fuel as [|fuel]; [lia|]. simpl.
    destruct (Z.leb_spec i k); [lia|].
    exists e, fs. split; [do 2 f_equal; lia | auto].
  - destruct fuel as [|fuel]; [lia|]. simpl.
    destruct (Z.leb_spec i k); [|lia].
    destruct (Hf n fs) as [x Hx]; [lia|].
    destruct (call t n fs) as [fs1 o] eqn:Hc. simpl in Hx. subst o.
    rewrite wrap_int_id by (unfold min_int, int_bits; simpl; lia).
    destruct (IH (i + 1) (S n) (Some x) fs1 fuel) as (e' & fs' & -> & He');
      try lia.
    exists e', fs'. split; [do 2 f_equal; lia | ].
    intros ->. by destruct (He' eq_refl).
Qed.

Lemma retry_loop_succeeds t k (m : nat) :
  forall j i n e fs fuel,
    fails_before t j -> succeeds_at t j ->
    0 <= i -> (n + m)%nat = j -> Z.of_nat n = i -> Z.of_nat j <= k ->
    k <= max_int -> (m < fuel)%nat ->
    exists fs', retry_loop fuel k t i n e fs = (Some (Exit None), S j, fs').
Proof.
  induction m as [|m IH]; intros j i n e fs fuel Hf Hs Hi Hnm Hn Hj Hk Hfuel.
  - destruct fuel as [|fuel]; [lia|]. simpl.
    destruct (Z.leb_spec i k); [|lia].
    assert (n = j) as -> by lia.
    specialize (Hs fs). destruct (call t j fs) as [fs1 o]. simpl in Hs.
    subst o. eauto.
  - destruct fuel as [|fuel]; [lia|]. simpl.
    destruct (Z.leb_spec i k); [|lia].
    destruct (Hf n fs) as [x Hx]; [lia|].
    destruct (call t n fs) as [fs1 o]. simpl in Hx. subst o.
    rewrite wrap_int_id by (unfold min_int, int_bits; simpl; lia).
    apply (IH j); auto; lia.
Qed.

(** With [retry] the largest int the loop condition is always true: a task
    that keeps failing is called again and again, once per unit of fuel,
    and the loop is still running when the fuel is used up. *)
Lemma retry_loop_max_int t :
  always_fails t ->
  forall fuel i n e fs,
    min_int <= i <= max_int ->
    exists fs', retry_loop fuel max_int t i n e fs = (None, (n + fuel)%nat, fs').
Proof.
  intros Hf. induction fuel as [|fuel IH]; intros i n e fs Hi.
  { exists fs. simpl. do 2 f_equal. lia. }
  simpl. destruct (Z.leb_spec i max_int); [|lia].
  destruct (Hf n fs) as [x Hx].
  destruct (call t n fs) as [fs1 o]. simpl in Hx. subst o.
  destruct (IH (wrap_int (i + 1)) (S n) (Some x) fs1) as [fs' ->].
  - destruct (Z.eq_dec i max_int) as [->|].
    + rewrite wrap_int_max. unfold min_int, max_int, int_bits. simpl. lia.
    + rewrite wrap_int_id; lia.
  - exists fs'. do 2 f_equal. lia.
Qed.

(** ** Channels *)

Lemma chansend_direct c t w c' :
  chansend c t = SendDirect w c' ->
  closed c = false /\ recvq c = w :: recvq c' /\ buf c' = buf c
  /\ sendq c' = sendq c /\ closed c' = false /\ cap c' = cap c.
Proof.
  unfold chansend. intros H. repeat case_match; simplify_eq; simpl; auto 10.
Qed.

Lemma chansend_buffered c t c' :
  chansend c t = SendBuffered c' ->
  closed c = false /\ recvq c = [] /\ recvq c' = [] /\ buf c' = buf c ++ [t]
  /\ sendq c' = sendq c /\ closed c' = false /\ cap c' = cap c
  /\ Z.of_nat (length (buf c)) < cap c.
Proof.
  unfold chansend. intros H. repeat case_match; simplify_eq; simpl.
  repeat split; auto; lia.
Qed.

Lemma chansend_would_block c t :
  chansend c t = SendWouldBlock <->
  closed c = false /\ recvq c = [] /\ cap c <= Z.of_nat (length (buf c)).
Proof.
  unfold chansend. split.
  - intros H. repeat case_match; simplify_eq; simpl. repeat split; auto; lia.
  - intros (-> & -> & H). case_match; [lia|done].
Qed.

Lemma chansend_panic c t : chansend c t = SendPanic <-> closed c = true.
Proof.
  unfold chansend. split.
  - intros H. repeat case_match; simplify_eq; auto.
  - intros ->. done.
Qed.

Lemma chanrecv_recv c t woken c' :
  chanrecv c = Recv t woken c' ->
  t :: sendq c' ++ buf c' ≡ₚ sendq c ++ buf c
  /\ recvq c' = recvq c /\ closed c' = closed c /\ cap c' = cap c
  /\ (forall t', woken = Some t' -> t' ∈ sendq c).
Proof.
  unfold chanrecv. intros H.
  repeat case_match; simplify_eq; simpl; repeat split; auto;
    try (intros ? [=]; subst; rewrite ?H0, ?H1; apply list_elem_of_here).
  rewrite (Permutation_app_comm l [t1]). simpl.
  rewrite <- !Permutation_middle. apply perm_swap.
Qed.

Lemma closechan_some c c' :
  closechan c = Some c' ->
  closed c = false /\ closed c' = true /\ recvq c' = [] /\ buf c' = buf c
  /\ sendq c' = sendq c /\ cap c' = cap c.
Proof.
  unfold closechan. intros H. case_match; simplify_eq. simpl. auto 10.
Qed.

Lemma recovery_pool p ex p' r esc :
  recovery p ex = (p', r, esc) ->
  tasks p' = tasks p /\ wg p' = wg p /\ once p' = once p /\ opts p' = opts p
  /\ workerNum p' = workerNum p /\ errs p' = errs p ++ r /\ esc = None.
Proof.
  unfold recovery. intros H.
  repeat case_match; simplify_eq; simpl; rewrite ?app_nil_r; auto 10.
Qed.

Lemma executeWithRetry_pool fuel p t fs x :
  executeWithRetry fuel p t fs = Some x ->
  tasks (ex_pool x) = tasks p /\ wg (ex_pool x) = wg p
  /\ once (ex_pool x) = once p /\ opts (ex_pool x) = opts p
  /\ workerNum (ex_pool x) = workerNum p
  /\ errs (ex_pool x) = errs p ++ ex_recorded x /\ ex_escaped x = None.
Proof.
  unfold executeWithRetry. intros H.
  repeat case_match; simplify_eq. simpl. eapply recovery_pool; eauto.
Qed.

(** Workers and the closures they hold *)
Lemma held_insert ws w x y :
  ws !! w = Some y ->
  held y ++ concat (held <$> <[w := x]> ws)
  ≡ₚ held x ++ concat (held <$> ws).
Proof.
  intros H.
  rewrite <- (take_drop_middle ws w y H) at 2.
  rewrite insert_take_drop by (eapply lookup_lt_Some; eauto).
  rewrite !fmap_app, !concat_app. simpl.
  rewrite !(Permutation_app_comm (concat (held <$> take w ws))).
  rewrite <- !app_assoc.
  rewrite !app_assoc. rewrite (Permutation_app_comm (held y) (held x)). done.
Qed.

Lemma held_release ws q :
  (forall w, w ∈ q -> ws !! w = Some WParked) ->
  held <$> release ws q = held <$> ws.
Proof.
  induction q as [|w q IH]; intros H; [done|]. simpl.
  rewrite list_fmap_insert. rewrite IH by (intros; apply H; by right).
  apply list_insert_id. rewrite list_lookup_fmap, H by left. done.
Qed.

Lemma held_replicate n : concat (held <$> replicate n (@WSelect T)) = [].
Proof. induction n; simpl; auto. Qed.

(** Which workers are parked, after one worker moved on. *)
Lemma parked_insert ws w x w' :
  x <> WParked ->
  <[w := x]> ws !! w' = Some WParked <-> w' <> w /\ ws !! w' = Some WParked.
Proof.
  intros Hx. rewrite list_lookup_insert_Some. split.
  - intros [(_ & ? & _)|[? ?]]; [done|auto].
  - intros [? ?]. right. auto.
Qed.

Lemma parked_update ws w x y w' :
  ws !! w = Some y -> y <> WParked -> x <> WParked ->
  <[w := x]> ws !! w' = Some WParked <-> ws !! w' = Some WParked.
Proof.
  intros Hw Hy Hx. rewrite parked_insert by done.
  split; [tauto|]. intros H. split; [|done]. intros ->. congruence.
Qed.

Lemma parked_release ws q w' :
  (forall w, ws !! w = Some WParked -> w ∈ q) ->
  release ws q !! w' <> Some WParked.
Proof.
  intros Hq. assert (forall q', w' ∈ q' -> release ws q' !! w' <> Some WParked)
    as Hin.
  { induction q' as [|a q' IH]; simpl; [by intros ?%elem_of_nil|].
    intros [->|Hq']%elem_of_cons; rewrite parked_insert by done.
    - tauto.
    - intros [_ H]. by apply IH. }
  assert (forall q', w' ∉ q' -> release ws q' !! w' = ws !! w') as Hout.
  { induction q' as [|a q' IH]; simpl; [done|].
    intros [Hne Hq']%not_elem_of_cons.
    rewrite list_lookup_insert_ne by done. auto. }
  destruct (decide (w' ∈ q)) as [?|Hn]; [auto|].
  rewrite Hout by done. intros H. apply Hn. auto.
Qed.

Lemma parked_replicate ws n w' :
  (ws ++ replicate n WSelect) !! w' = Some WParked
  <-> ws !! w' = Some WParked.
Proof.
  rewrite lookup_app_Some. split; [|tauto].
  intros [?|[_ H]]; [done|]. by apply lookup_replicate in H as [? _].
Qed.

Lemma Submit_cases p t :
  let p1 := wg_Add p 1 in
  match chansend (tasks p) t with
  | SendDirect w c => Submit p t = Enqueued (set_tasks p1 c) (Some w)
  | SendBuffered c => Submit p t = Enqueued (set_tasks p1 c) None
  | SendWouldBlock =>
      if queueFullPolicy (opts p) =? QueueFullDiscard
      then Submit p t = Dropped (wg_Done p1)
      else if queueFullPolicy (opts p) =? QueueFullReturnError
      then Submit p t =
           Rejected (set_errs (wg_Done p1) (errs p ++ [ErrQueueFull]))
             ErrQueueFull
      else Submit p t = Parked (set_tasks p1 (park_sender (tasks p) t))
  | SendPanic => Submit p t = SubmitPanics p1
  end.
Proof.
  unfold Submit. simpl.
  destruct (chansend (tasks p) t); repeat case_match; reflexivity.
Qed.

End Basics.

(** ** Proof automation *)

(** Lengths of the closures in flight. *)
Ltac lens :=
  unfold inflight in *; simpl in *;
  rewrite ?length_app in *; simpl in *; lia.

(** The cases of one step of the program. *)
Ltac step_cases H :=
  unfold step in H;
  match type of H with
  | context [crashed ?s] => destruct (crashed s) eqn:?; [discriminate|]
  end;
  match type of H with
  | context [match ?a with ARun => _ | _ => _ end] => destruct a
  end;
  unfold submitted, select_step, execute_step, wgdone_step, waitclose_step,
    SubmitWithResult, Submit, once_Do_close in H;
  repeat (case_match; simplify_eq); simplify_eq;
  repeat match goal with
    | H : executeWithRetry _ _ _ _ = Some _ |- _ =>
        apply executeWithRetry_pool in H as (? & ? & ? & ? & ? & ? & ?)
    | H : closechan _ = Some _ |- _ =>
        apply closechan_some in H as (? & ? & ? & ? & ? & ?)
    | H : chansend _ _ = SendDirect _ _ |- _ =>
        apply chansend_direct in H as (? & ? & ? & ? & ? & ?)
    | H : chansend _ _ = SendBuffered _ |- _ =>
        apply chansend_buffered in H as (? & ? & ? & ? & ? & ? & ? & ?)
    end;
  simpl in *; try congruence.

(** Membership in the closures in flight. *)
Ltac elems :=
  unfold inflight in *; simpl in *;
  rewrite ?elem_of_app in *; simpl in *.

Section Properties.
Context {T : Type} {zeroT : Zero T}.
Implicit Types (t : @Task T) (fs : list (@Future T)) (p : @Pool T)
  (s : @System T) (c : @Chan T) (ws : list (@Worker T)).

(** ** The invariant *)

Lemma submitted_inv s t fs s' evs :
  inv s -> submitted s t fs (Submit (pool s) t) = (s', evs) ->
  crashed s = false -> crashed s' = false -> inv s'.
Proof.
  intros [Hwg Hnd Hpk Hon] Hs Hc Hc'.
  pose proof (Submit_cases (pool s) t) as HS. simpl in HS.
  destruct (chansend (tasks (pool s)) t) as [w c|c| |] eqn:Hsend.
  - rewrite HS in Hs. simpl in Hs. simplify_eq.
    apply chansend_direct in Hsend as (Hcl & Hq & Hb & Hsq & Hcl' & _).
    rewrite Hq in Hnd. apply NoDup_cons in Hnd as [Hw Hnd].
    assert (workers s !! w = Some WParked) as Hpw
      by (apply Hpk; rewrite Hq; left).
    pose proof (held_insert (workers s) w (WExec t) WParked Hpw) as HP.
    apply Permutation_length in HP.
    constructor; unfold inflight; simpl; rewrite ?Hcl'; auto; try congruence.
    + rewrite Hb, Hsq. lens.
    + intros w'. rewrite parked_insert by done. rewrite <- Hpk, Hq.
      rewrite elem_of_cons. split; [|tauto].
      intros Hw'. split; [|tauto]. by intros ->.
  - rewrite HS in Hs. simpl in Hs. simplify_eq.
    apply chansend_buffered in Hsend as (Hcl & Hq & Hq' & Hb & Hsq & Hcl' & _).
    constructor; unfold inflight; simpl; rewrite ?Hcl'; auto; try congruence.
    + rewrite Hb, Hsq. lens.
    + intros w. rewrite Hq', <- Hpk, Hq. done.
  - repeat case_match; rewrite HS in Hs; simpl in Hs; simplify_eq;
      constructor; simpl; auto; lens.
  - rewrite HS in Hs. simpl in Hs. simplify_eq.
Qed.

Lemma select_inv s w pk s' evs :
  inv s -> select_step s w pk = Some (s', evs) -> inv s'.
Proof.
  intros [Hwg Hnd Hpk Hon] Hs. unfold select_step in Hs.
  destruct (workers s !! w) as [[]|] eqn:Hw; try discriminate.
  assert (w ∉ recvq (tasks (pool s))) as Hnw
    by (intros Hin; apply Hpk in Hin; congruence).
  assert (forall x, held x = [] ->
          length (concat (held <$> <[w := x]> (workers s)))
          = length (concat (held <$> workers s))) as Hstop.
  { intros x Hx.
    pose proof (held_insert (workers s) w x WSelect Hw) as HP.
    apply Permutation_length in HP. rewrite Hx in HP. simpl in HP. done. }
  pose proof (Hstop WStopped eq_refl) as Hstopped.
  pose proof (Hstop WParked eq_refl) as Hparked.
  assert (forall x w', x <> WParked ->
          w' ∈ recvq (tasks (pool s))
          <-> <[w := x]> (workers s) !! w' = Some WParked) as Hother.
  { intros x w' Hx. rewrite (parked_update _ _ _ WSelect) by done. apply Hpk. }
  destruct (chanrecv (tasks (pool s))) as [t woken c| |] eqn:Hr.
  - destruct (ctx_done s && pk); simplify_eq.
    + constructor; unfold inflight; simpl; auto. lens.
    + apply chanrecv_recv in Hr as (HP & Hq & Hcl & _).
      apply Permutation_length in HP.
      pose proof (held_insert (workers s) w (WExec t) WSelect Hw) as HP'.
      apply Permutation_length in HP'.
      constructor; unfold inflight; simpl; rewrite ?Hq, ?Hcl; auto.
      lens.
  - simplify_eq. constructor; unfold inflight; simpl; auto. lens.
  - destruct (ctx_done s); simplify_eq.
    + constructor; unfold inflight; simpl; auto. lens.
    + constructor; unfold inflight; simpl; auto.
      * lens.
      * apply NoDup_app. split_and!; auto.
        -- intros x Hx ->%list_elem_of_singleton. done.
        -- apply NoDup_singleton.
      * intros w'. rewrite elem_of_app, list_elem_of_singleton.
        rewrite list_lookup_insert_Some, Hpk.
        pose proof (lookup_lt_Some _ _ _ Hw) as Hlt. split.
        -- intros [H| ->]; [right|left; auto].
           split; [|done]. intros <-. congruence.
        -- intros [(-> & _)|[_ H]]; auto.
Qed.

Lemma execute_inv s w fuel s' evs :
  inv s -> execute_step s w fuel = Some (s', evs) -> inv s'.
Proof.
  intros [Hwg Hnd Hpk Hon] Hs. unfold execute_step in Hs.
  destruct (workers s !! w) as [[]|] eqn:Hw; try discriminate.
  destruct (executeWithRetry fuel (pool s) t (futures s)) as [x|] eqn:Hx;
    [|discriminate].
  apply executeWithRetry_pool in Hx as (Ht & Hg & Ho & _ & _ & _ & Hesc).
  rewrite Hesc in Hs. simplify_eq.
  pose proof (held_insert (workers s) w (WDone t) (WExec t) Hw) as HP.
  apply Permutation_length in HP.
  constructor; unfold inflight; simpl; rewrite ?Ht, ?Hg, ?Ho; auto.
  - lens.
  - intros w'. rewrite (parked_update _ _ _ (WExec t)) by done. apply Hpk.
Qed.

(** A worker's [wg.Done()] never finds the counter at zero. *)
Lemma wgdone_inv s w s' evs :
  inv s -> wgdone_step s w = Some (s', evs) ->
  crashed s' = crashed s /\ inv s'.
Proof.
  intros [Hwg Hnd Hpk Hon] Hs. unfold wgdone_step in Hs.
  destruct (workers s !! w) as [[]|] eqn:Hw; try discriminate.
  pose proof (held_insert (workers s) w WSelect (WDone t) Hw) as HP.
  apply Permutation_length in HP.
  destruct (Z.ltb_spec (wg (pool s) - 1) 0); [lens|].
  simplify_eq. split; [done|].
  constructor; unfold inflight; simpl; auto.
  - lens.
  - intros w'. rewrite (parked_update _ _ _ (WDone t)) by done. apply Hpk.
Qed.

Lemma waitclose_inv s s' evs :
  inv s -> waitclose_step s = Some (s', evs) ->
  crashed s = false -> crashed s' = false -> inv s'.
Proof.
  intros [Hwg Hnd Hpk Hon] Hs Hc Hc'. unfold waitclose_step in Hs.
  destruct (waiters s) as [|n]; [discriminate|].
  unfold once_Do_close in Hs. simpl in Hs.
  destruct (once (pool s)) eqn:Ho; simplify_eq.
  - constructor; unfold inflight; simpl; auto; congruence.
  - destruct (closechan (tasks (pool s))) as [c|] eqn:Hcc; simpl in Hs;
      [|by simplify_eq].
    apply closechan_some in Hcc as (_ & Hcl & Hq & Hb & Hsq & _).
    destruct (sendq c) eqn:Hsc; simplify_eq.
    constructor; unfold inflight; simpl; rewrite ?Hq, ?Hcl, ?Hb, ?Hsc; auto.
    + rewrite held_release by (intros; by apply Hpk).
      unfold inflight in Hwg. rewrite <- Hsq in Hwg. apply Hwg.
    + constructor.
    + intros w. split; [by intros ?%elem_of_nil|].
      intros H. by apply parked_release in H; [|intros; by apply Hpk].
Qed.

Lemma step_inv s a s' evs :
  inv s -> step s a = Some (s', evs) -> crashed s' = false -> inv s'.
Proof.
  intros Hi Hs Hc'. unfold step in Hs.
  destruct (crashed s) eqn:Hc; [discriminate|].
  destruct a.
  - simplify_eq. destruct Hi as [Hwg Hnd Hpk Hon].
    constructor; unfold inflight; simpl; auto.
    + rewrite fmap_app, concat_app, held_replicate, app_nil_r. apply Hwg.
    + intros w. rewrite parked_replicate. apply Hpk.
  - simplify_eq. destruct Hi as [Hwg Hnd Hpk Hon].
    constructor; unfold inflight; simpl; auto.
    + rewrite held_release by (intros; by apply Hpk). apply Hwg.
    + constructor.
    + intros w. split; [by intros ?%elem_of_nil|].
      intros H. by apply parked_release in H; [|intros; by apply Hpk].
  - simplify_eq.
    destruct (submitted s _ _ _) as [s1 e1] eqn:Hsub.
    simplify_eq. eapply submitted_inv; eauto.
  - unfold SubmitWithResult in Hs.
    set (t := {| tag := nsub s; code := Wrapper (length (futures s)) fn |}) in *.
    destruct (Submit (pool s) t) eqn:HS;
      repeat (case_match; simplify_eq);
      (eapply submitted_inv; [exact Hi| rewrite HS; eauto | auto | auto]).
  - eapply select_inv; eauto.
  - eapply execute_inv; eauto.
  - eapply wgdone_inv; eauto.
  - case_match; simplify_eq. destruct Hi. by constructor.
  - eapply waitclose_inv; eauto.
Qed.

(** ** What one step does to the counters *)

Lemma count_app f evs evs' :
  count f (evs ++ evs') = (count f evs + count f evs')%nat.
Proof. induction evs; simpl; lia. Qed.

Lemma recorded_app evs evs' :
  recorded (evs ++ evs') = recorded evs ++ recorded evs'.
Proof.
  induction evs as [|e evs IH]; simpl; [done|].
  destruct e; simpl; congruence.
Qed.

Lemma recorded_map tg l : recorded (map (EvRecord tg) l) = l.
Proof. induction l; simpl; congruence. Qed.

Lemma count_records f tg l :
  (forall e, f (EvRecord tg e) = false) -> count f (map (EvRecord tg) l) = O.
Proof. intros H. induction l; simpl; rewrite ?H; auto. Qed.

Lemma step_wg s a s' evs :
  step s a = Some (s', evs) ->
  wg (pool s') = wg (pool s) + Z.of_nat (entered evs) - Z.of_nat (finished evs).
Proof.
  intros H. step_cases H; unfold entered, finished;
    rewrite ?count_app; simpl; rewrite ?count_records by done; try lia.
Qed.

Lemma step_errs s a s' evs :
  step s a = Some (s', evs) -> errs (pool s') = errs (pool s) ++ recorded evs.
Proof.
  intros H. step_cases H;
    rewrite ?recorded_app; simpl; rewrite ?recorded_map, ?app_nil_r; auto.
Qed.

Lemma step_closes s a s' evs :
  step s a = Some (s', evs) ->
  (closes evs + (if once (pool s) then 1 else 0) =
   if once (pool s') then 1 else 0)%nat.
Proof.
  intros H. step_cases H; unfold closes;
    rewrite ?count_app; simpl; rewrite ?count_records by done;
    repeat case_match; simpl in *; try congruence; try lia.
Qed.

Lemma chanrecv_sendq c t woken c' :
  chanrecv c = Recv t woken c' ->
  match woken with
  | Some t' => sendq c = t' :: sendq c'
  | None => sendq c' = sendq c
  end.
Proof.
  unfold chanrecv. intros H. repeat case_match; simplify_eq; simpl; auto.
Qed.

Lemma step_sendq s a s' evs :
  step s a = Some (s', evs) -> crashed s' = false ->
  (length (sendq (tasks (pool s'))) + accepted evs
   = length (sendq (tasks (pool s))) + entered evs)%nat.
Proof.
  intros H Hc.
  step_cases H; unfold entered, accepted;
    rewrite ?count_app; simpl; rewrite ?count_records by done;
    rewrite ?length_app; simpl; try congruence; try lia.
  all: match goal with
       | H : chanrecv _ = Recv _ _ _ |- _ =>
           apply chanrecv_sendq in H; simpl in H; rewrite H; simpl
       end.
  all: lia.
Qed.

Lemma steps_wg s evs s' :
  steps s evs s' ->
  wg (pool s') = wg (pool s) + Z.of_nat (entered evs) - Z.of_nat (finished evs).
Proof.
  induction 1 as [|evs s' a s'' evs' _ IH Hs].
  - unfold entered, finished. simpl. lia.
  - apply step_wg in Hs. unfold entered, finished in *.
    rewrite !count_app. lia.
Qed.

Lemma steps_crashed s evs s' :
  steps s evs s' -> crashed s' = false -> crashed s = false.
Proof.
  induction 1 as [|evs s' a s'' evs' _ IH Hs]; [done|].
  intros _. apply IH. unfold step in Hs. by destruct (crashed s').
Qed.

Lemma steps_sendq s evs s' :
  steps s evs s' -> crashed s' = false ->
  (length (sendq (tasks (pool s'))) + accepted evs
   = length (sendq (tasks (pool s))) + entered evs)%nat.
Proof.
  induction 1 as [|evs s' a s'' evs' _ IH Hs]; intros Hc.
  - unfold entered, accepted. simpl. lia.
  - pose proof Hs as Hs'. apply step_sendq in Hs; [|done].
    unfold step in Hs'. destruct (crashed s') eqn:Hc'; [discriminate|].
    specialize (IH eq_refl).
    unfold entered, accepted in *. rewrite !count_app. lia.
Qed.

Lemma steps_inv s evs s' :
  steps s evs s' -> inv s -> crashed s' = false -> inv s'.
Proof.
  induction 1 as [|evs s' a s'' evs' _ IH Hs]; intros Hi Hc; [done|].
  eapply step_inv; [|exact Hs|exact Hc]. apply IH; auto.
  unfold step in Hs. by destruct (crashed s').
Qed.

Lemma inv_init n os : inv (@init T n os).
Proof.
  constructor; unfold inflight; simpl.
  - by case_match.
  - case_match; constructor.
  - intros w. rewrite lookup_nil.
    case_match; simpl; (split; [by intros ?%elem_of_nil|done]).
  - by case_match.
Qed.

Lemma reachable_inv s evs : reachable s evs -> crashed s = false -> inv s.
Proof.
  intros (n & os & H) Hc. eapply steps_inv; eauto using inv_init.
Qed.

Lemma reachable_wg s evs :
  reachable s evs ->
  wg (pool s) = Z.of_nat (entered evs) - Z.of_nat (finished evs).
Proof.
  intros (n & os & H). apply steps_wg in H. simpl in H. lia.
Qed.

Lemma reachable_sendq s evs :
  reachable s evs -> crashed s = false ->
  (length (sendq (tasks (pool s))) + accepted evs = entered evs)%nat.
Proof.
  intros (n & os & H) Hc. apply steps_sendq in H; auto.
  simpl in H. destruct (0 <? _) in H; simpl in H; lia.
Qed.

(** ** Accounting *)

(** C1. Accounting.  In every state the program reaches, when every Submit
    call made so far has been accepted (it returned: the task was enqueued
    or handed to a worker, or the call undid its increment and dropped or
    rejected the task), the WaitGroup counter is zero if and only if as
    many task executions have finished as calls were accepted, a rejection
    or drop counting as finished at once.  [wg.Wait()] lets a caller of
    Wait through only then, and so does Wait as a whole.  (That every call
    was accepted means that no caller is parked in Submit's send.) *)
Theorem accounting s evs :
  reachable s evs ->
  entered evs = accepted evs ->
  (wg (pool s) = 0 <-> finished evs = accepted evs)
  /\ (forall s' evs', step s AWaitPass = Some (s', evs') ->
        wg (pool s) = 0 /\ finished evs = accepted evs)
  /\ (forall r, Wait (pool s) = Some r ->
        wg (pool s) = 0 /\ finished evs = accepted evs)
  /\ (crashed s = false -> sendq (tasks (pool s)) = []).
Proof.
  intros Hr Hacc.
  pose proof (reachable_wg _ _ Hr) as Hwg.
  assert (wg (pool s) = 0 <-> finished evs = accepted evs) as Hiff
    by (split; lia).
  split; [exact Hiff|]. split; [|split].
  - intros s' evs' Hs. unfold step in Hs.
    destruct (crashed s); [done|].
    unfold wg_Wait in Hs. destruct (Z.eqb_spec (wg (pool s)) 0); [|done].
    split; [done|]. by apply Hiff.
  - intros r Hw. unfold Wait, wg_Wait in Hw.
    destruct (Z.eqb_spec (wg (pool s)) 0); [|done].
    split; [done|]. by apply Hiff.
  - intros Hc. pose proof (reachable_sendq _ _ Hr Hc) as Hq.
    destruct (sendq (tasks (pool s))); [done|]. simpl in Hq. lia.
Qed.

(** ** What one step does to the closures in flight and to the Futures *)

Lemma held_insert_elem ws w y (x : @Task T) :
  x ∈ concat (held <$> <[w := y]> ws) ->
  x ∈ held y \/ x ∈ concat (held <$> ws).
Proof.
  revert w. induction ws as [|a ws IH]; intros [|w]; simpl; auto.
  - rewrite !elem_of_app. tauto.
  - rewrite !elem_of_app. intros [H|H]; [tauto|].
    apply IH in H. tauto.
Qed.

Lemma held_release_elem ws q (x : @Task T) :
  x ∈ concat (held <$> release ws q) -> x ∈ concat (held <$> ws).
Proof.
  induction q as [|w q IH]; simpl; [done|].
  intros [H|H]%held_insert_elem; [by apply elem_of_nil in H | auto].
Qed.

Lemma held_lookup ws w y (x : @Task T) :
  ws !! w = Some y -> x ∈ held y -> x ∈ concat (held <$> ws).
Proof.
  revert w. induction ws as [|a ws IH]; intros [|w]; simpl; try done.
  - intros [= ->] H. apply elem_of_app. by left.
  - intros H1 H2. apply elem_of_app. right. eauto.
Qed.

Lemma chanrecv_elem c t woken c' :
  chanrecv c = Recv t woken c' ->
  (t ∈ sendq c \/ t ∈ buf c)
  /\ forall x, x ∈ sendq c' \/ x ∈ buf c' -> x ∈ sendq c \/ x ∈ buf c.
Proof.
  intros (HP & _)%chanrecv_recv. split.
  - apply elem_of_app. rewrite <- HP. left.
  - intros x Hx. apply elem_of_app. rewrite <- HP. right.
    by apply elem_of_app.
Qed.

(** Futures: what a call changes *)

Lemma grows_refl (f : @Future T) : grows f f.
Proof. by left. Qed.

Lemma grows_trans (f g h : @Future T) :
  grows f g -> grows g h -> grows f h.
Proof. unfold grows. intros [->|?] [->|?]; auto. right. lia. Qed.

Lemma complete_at_spec fs fid res e fs' pn :
  complete_at fs fid res e = (fs', pn) ->
  length fs' = length fs
  /\ (forall g, g <> fid -> fs' !! g = fs !! g)
  /\ (forall f, fs !! fid = Some f ->
        fs' !! fid = Some {| result := res; err := e; done := true;
                             completions := S (completions f) |}
        /\ pn = if done f then Some close_of_closed_channel else None).
Proof.
  unfold complete_at. intros H.
  destruct (fs !! fid) as [f|] eqn:Hf; simpl in H; simplify_eq.
  - split; [apply length_insert|]. split.
    + intros g Hg. by apply list_lookup_insert_ne.
    + intros f' [= <-]. split; [|done].
      apply list_lookup_insert_eq. eapply lookup_lt_Some; eauto.
  - split; [done|]. split; [done|]. intros f [=].
Qed.

Lemma complete_at_grows fs fid res e fs' pn g f :
  complete_at fs fid res e = (fs', pn) -> fs !! g = Some f ->
  exists f', fs' !! g = Some f' /\ grows f f'.
Proof.
  intros (_ & Ho & Hs)%complete_at_spec Hg.
  destruct (decide (g = fid)) as [->|Hne].
  - destruct (Hs f Hg) as [-> _]. eexists. split; [done|].
    right. simpl. lia.
  - rewrite Ho by done. eauto using grows_refl.
Qed.

Lemma call_spec t n fs fs' o :
  call t n fs = (fs', o) ->
  length fs' = length fs
  /\ (forall g, (forall fn, code t <> Wrapper g fn) -> fs' !! g = fs !! g)
  /\ (forall g f, fs !! g = Some f ->
        exists f', fs' !! g = Some f' /\ grows f f').
Proof.
  unfold call. intros H.
  destruct (code t) as [body|fid fn] eqn:Hc.
  - simplify_eq. split; [done|]. split; [done|]. eauto using grows_refl.
  - destruct (fn n) as [res e|r];
      destruct (complete_at _ _ _ _) as [fs1 pn] eqn:Hca; simplify_eq.
    all: pose proof (complete_at_spec _ _ _ _ _ _ Hca) as (Hl & Ho & _).
    all: split; [done|]; split;
      [intros g Hg; apply Ho; intros ->; by eapply Hg
      |intros g f Hf; eapply complete_at_grows; eauto].
Qed.

Lemma retry_loop_spec fuel k t :
  forall i n e fs ex n' fs',
    retry_loop fuel k t i n e fs = (Some ex, n', fs') ->
    length fs' = length fs
    /\ (forall g, (forall fn, code t <> Wrapper g fn) -> fs' !! g = fs !! g)
    /\ (forall g f, fs !! g = Some f ->
          exists f', fs' !! g = Some f' /\ grows f f').
Proof.
  induction fuel as [|fuel IH]; intros i n e fs ex n' fs' H; [done|].
  simpl in H. destruct (i <=? k).
  - destruct (call t n fs) as [fs1 o] eqn:Hc.
    apply call_spec in Hc as (Hl & Ho & Hg).
    destruct o as [[x|]|r]; simplify_eq; auto.
    apply IH in H as (Hl' & Ho' & Hg').
    split; [congruence|]. split.
    + intros g Hne. rewrite Ho', Ho; auto.
    + intros g f Hf. destruct (Hg g f Hf) as (f1 & Hf1 & Hgr).
      destruct (Hg' g f1 Hf1) as (f2 & Hf2 & Hgr').
      eauto using grows_trans.
  - simplify_eq. split; [done|]. split; [done|]. eauto using grows_refl.
Qed.

Lemma executeWithRetry_futures fuel p t fs x :
  executeWithRetry fuel p t fs = Some x ->
  length (ex_futures x) = length fs
  /\ (forall g, (forall fn, code t <> Wrapper g fn) ->
        ex_futures x !! g = fs !! g)
  /\ (forall g f, fs !! g = Some f ->
        exists f', ex_futures x !! g = Some f' /\ grows f f').
Proof.
  unfold executeWithRetry. intros H.
  destruct (retry_loop _ _ _ _ _ _ _) as [[[ex|] n] fs'] eqn:Hl; [|done].
  destruct (recovery p ex) as [[p' r] esc]. simplify_eq. simpl.
  eapply retry_loop_spec; eauto.
Qed.

Lemma submitted_inflight s t fs s' evs (x : @Task T) :
  submitted s t fs (Submit (pool s) t) = (s', evs) ->
  x ∈ inflight s' -> x ∈ inflight s \/ x = t.
Proof.
  intros Hs Hx.
  pose proof (Submit_cases (pool s) t) as HS. simpl in HS.
  destruct (chansend (tasks (pool s)) t) as [w c|c| |] eqn:Hsend.
  - rewrite HS in Hs. simpl in Hs. simplify_eq.
    apply chansend_direct in Hsend as (_ & _ & Hb & Hsq & _).
    elems. rewrite Hb, Hsq in Hx.
    destruct Hx as [?|[?|[Hx|?]%held_insert_elem]]; auto.
    apply list_elem_of_singleton in Hx. auto.
  - rewrite HS in Hs. simpl in Hs. simplify_eq.
    apply chansend_buffered in Hsend as (_ & _ & _ & Hb & Hsq & _).
    elems. rewrite Hb, Hsq, elem_of_app, list_elem_of_singleton in Hx. tauto.
  - repeat case_match; rewrite HS in Hs; simpl in Hs; simplify_eq; elems;
      rewrite ?elem_of_app, ?list_elem_of_singleton in Hx; tauto.
  - rewrite HS in Hs. simpl in Hs. simplify_eq. elems. tauto.
Qed.

Lemma select_inflight s w pk s' evs (x : @Task T) :
  select_step s w pk = Some (s', evs) -> x ∈ inflight s' -> x ∈ inflight s.
Proof.
  intros Hs Hx. unfold select_step in Hs.
  destruct (workers s !! w) as [[]|] eqn:Hw; try discriminate.
  destruct (chanrecv (tasks (pool s))) as [t woken c| |] eqn:Hr.
  - destruct (ctx_done s && pk); simplify_eq; elems.
    + destruct Hx as [?|[?|[Hx|?]%held_insert_elem]]; auto.
      by apply elem_of_nil in Hx.
    + apply chanrecv_elem in Hr as (Ht & Hc).
      destruct Hx as [?|[?|[Hx|?]%held_insert_elem]]; auto.
      * destruct (Hc x); auto.
      * destruct (Hc x); auto.
      * apply list_elem_of_singleton in Hx as ->. tauto.
  - simplify_eq; elems.
    destruct Hx as [?|[?|[Hx|?]%held_insert_elem]]; auto.
    by apply elem_of_nil in Hx.
  - destruct (ctx_done s); simplify_eq; elems;
      destruct Hx as [?|[?|[Hx|?]%held_insert_elem]]; auto;
      by apply elem_of_nil in Hx.
Qed.

Lemma execute_inflight s w fuel s' evs (x : @Task T) :
  execute_step s w fuel = Some (s', evs) -> x ∈ inflight s' -> x ∈ inflight s.
Proof.
  intros Hs Hx. unfold execute_step in Hs.
  destruct (workers s !! w) as [[]|] eqn:Hw; try discriminate.
  destruct (executeWithRetry fuel (pool s) t (futures s)) as [e|] eqn:He;
    [|discriminate].
  apply executeWithRetry_pool in He as (Ht & _ & _ & _ & _ & _ & Hesc).
  rewrite Hesc in Hs. simplify_eq. elems. rewrite Ht in Hx.
  destruct Hx as [?|[?|[Hx|?]%held_insert_elem]]; auto.
  right. right. eapply held_lookup; eauto.
Qed.

Lemma wgdone_inflight s w s' evs (x : @Task T) :
  wgdone_step s w = Some (s', evs) -> x ∈ inflight s' -> x ∈ inflight s.
Proof.
  intros Hs Hx. unfold wgdone_step in Hs.
  destruct (workers s !! w) as [[]|] eqn:Hw; try discriminate.
  destruct (wg (pool s) - 1 <? 0); simplify_eq; elems; auto.
  destruct Hx as [?|[?|[Hx|?]%held_insert_elem]]; auto.
  by apply elem_of_nil in Hx.
Qed.

Lemma waitclose_inflight s s' evs (x : @Task T) :
  waitclose_step s = Some (s', evs) -> x ∈ inflight s' -> x ∈ inflight s.
Proof.
  intros Hs Hx. unfold waitclose_step in Hs.
  destruct (waiters s) as [|n]; [discriminate|].
  unfold once_Do_close in Hs. simpl in Hs.
  destruct (once (pool s)) eqn:Ho; simplify_eq; [done|].
  destruct (closechan (tasks (pool s))) as [c|] eqn:Hcc; simpl in Hs;
    [|by simplify_eq].
  apply closechan_some in Hcc as (_ & _ & _ & Hb & Hsq & _).
  destruct (sendq c) eqn:Hsc; simplify_eq; elems;
    rewrite <- Hsq; rewrite Hb, ?Hsc in Hx;
    destruct Hx as [?|[?|?%held_release_elem]]; auto.
Qed.

(** The step of SubmitWithResult, by the Submit inside it. *)
Lemma submit_with_result_step s fn s' evs :
  step s (ASubmitWithResult fn) = Some (s', evs) ->
  let fid := length (futures s) in
  let t := {| tag := nsub s; code := Wrapper fid fn |} in
  let fs0 := futures s ++ [newFuture] in
  exists fs s1 evs1,
    submitted s t fs (Submit (pool s) t) = (s1, evs1)
    /\ (s' = s1 \/ s' = crash s1)
    /\ (fs = fs0
        \/ exists p e, Submit (pool s) t = Rejected p e
                       /\ fs = (complete_at fs0 fid zero (Some e)).1)
    /\ exists evs2, evs = evs1 ++ evs2
                    /\ forall e, e ∈ evs2 -> exists r, e = EvPanic r.
Proof.
  intros Hs fid t fs0. unfold step in Hs.
  destruct (crashed s); [discriminate|].
  unfold SubmitWithResult in Hs. fold fid t fs0 in Hs.
  destruct (Submit (pool s) t) as [p w|p|p e|p|p] eqn:HS.
  3: destruct (complete_at fs0 fid zero (Some e)) as [fs1 pn] eqn:Hc.
  all: match type of Hs with
       | context [submitted ?a ?b ?c ?d] =>
           destruct (submitted a b c d) as [s1 evs1] eqn:Hsub
       end.
  3: destruct pn.
  all: simplify_eq.
  all: eexists _, _, _; split; [exact Hsub|].
  all: split; [auto|]; split; [eauto; right; eexists _, _; split; eauto;
                               by rewrite Hc|].
  all: first [ exists []; rewrite app_nil_r; split; [done|];
               by intros ? ?%elem_of_nil
             | eexists [_]; split; [done|];
               intros ? ->%list_elem_of_singleton; eauto ].
Qed.

Lemma submitted_ghost s t fs r s' evs :
  submitted s t fs r = (s', evs) ->
  nsub s' = S (nsub s) /\ futures s' = fs.
Proof.
  unfold submitted. intros H. repeat (case_match; simplify_eq); done.
Qed.

Lemma step_inflight s a s' evs (x : @Task T) :
  step s a = Some (s', evs) -> x ∈ inflight s' ->
  x ∈ inflight s
  \/ (tag x = nsub s /\ (nsub s < nsub s')%nat
      /\ forall fid fn, code x = Wrapper fid fn ->
           fid = length (futures s) /\ (fid < length (futures s'))%nat).
Proof.
  intros Hs Hx.
  destruct a.
  5-9: unfold step in Hs; destruct (crashed s) eqn:Hc; [discriminate|].
  1-3: unfold step in Hs; destruct (crashed s) eqn:Hc; [discriminate|].
  - simplify_eq. left. elems.
    rewrite fmap_app, concat_app, held_replicate, app_nil_r in Hx. done.
  - simplify_eq. left. elems.
    destruct Hx as [?|[?|?%held_release_elem]]; auto.
  - simplify_eq.
    destruct (submitted s _ _ _) as [s1 e1] eqn:Hsub. simplify_eq.
    pose proof (submitted_ghost _ _ _ _ _ _ Hsub) as [Hn _].
    eapply submitted_inflight in Hsub as [?| ->]; eauto.
    right. simpl. split; [done|]. split; [lia|]. intros ? ? [=].
  - apply submit_with_result_step in Hs
      as (fs & s1 & evs1 & Hsub & Hs' & Hfs & _).
    pose proof (submitted_ghost _ _ _ _ _ _ Hsub) as [Hn Hf].
    assert (x ∈ inflight s1) as Hx1 by (by destruct Hs' as [->| ->]).
    assert (nsub s' = nsub s1 /\ futures s' = futures s1) as [-> ->]
      by (by destruct Hs' as [->| ->]).
    assert (length fs = S (length (futures s))) as Hl.
    { destruct Hfs as [->|(p & e & _ & ->)].
      - rewrite length_app. simpl. lia.
      - destruct (complete_at _ _ _ _) as [fs1 pn] eqn:Hca. simpl.
        apply complete_at_spec in Hca as (-> & _).
        rewrite length_app. simpl. lia. }
    eapply submitted_inflight in Hsub as [?| ->]; eauto.
    right. simpl. split; [done|]. split; [lia|].
    intros ? ? [= <- _]. split; [done|]. rewrite Hf. lia.
  - left. eapply select_inflight; eauto.
  - left. eapply execute_inflight; eauto.
  - left. eapply wgdone_inflight; eauto.
  - case_match; simplify_eq. by left.
  - left. eapply waitclose_inflight; eauto.
Qed.

Lemma step_nsub s a s' evs :
  step s a = Some (s', evs) -> (nsub s <= nsub s')%nat.
Proof. intros H. step_cases H; lia. Qed.

Lemma concerns_records tg tg' l :
  count (concerns tg) (map (EvRecord tg') l) <> O -> tg = tg'.
Proof.
  induction l as [|e l IH]; simpl; [done|].
  destruct (Nat.eqb_spec tg tg'); auto.
Qed.

Lemma concerns_panics tg evs :
  (forall e, e ∈ evs -> exists r, e = EvPanic r) ->
  count (concerns tg) evs = O.
Proof.
  induction evs as [|e evs IH]; intros H; simpl; [done|].
  destruct (H e) as [r ->]; [left|]. simpl. apply IH.
  intros e' He'. apply H. by right.
Qed.

Lemma submitted_concerns s t fs r s' evs tg :
  submitted s t fs r = (s', evs) ->
  count (concerns tg) evs <> O -> tg = tag t.
Proof.
  unfold submitted. intros H.
  repeat case_match; simplify_eq; simpl; try done.
  destruct (Nat.eqb_spec tg (tag t)); done.
Qed.

Lemma step_concerns s a s' evs tg :
  step s a = Some (s', evs) -> count (concerns tg) evs <> O ->
  (exists x, x ∈ inflight s /\ tag x = tg) \/ tg = nsub s.
Proof.
  intros Hs Hn.
  destruct a.
  5-9: unfold step in Hs; destruct (crashed s) eqn:Hc; [discriminate|].
  1-3: unfold step in Hs; destruct (crashed s) eqn:Hc; [discriminate|].
  - by simplify_eq.
  - by simplify_eq.
  - simplify_eq.
    destruct (submitted s _ _ _) as [s1 e1] eqn:Hsub. simplify_eq.
    right. by eapply submitted_concerns in Hsub.
  - apply submit_with_result_step in Hs
      as (fs & s1 & evs1 & Hsub & _ & _ & evs2 & -> & Hp).
    rewrite count_app, (concerns_panics _ evs2 Hp), Nat.add_0_r in Hn.
    right. by eapply submitted_concerns in Hsub.
  - unfold select_step in Hs.
    repeat (case_match; simplify_eq); simpl in Hn; done.
  - unfold execute_step in Hs.
    destruct (workers s !! w) as [[]|] eqn:Hw; try discriminate.
    destruct (executeWithRetry _ _ _ _) as [e|] eqn:He; [|discriminate].
    apply executeWithRetry_pool in He as (_ & _ & _ & _ & _ & _ & Hesc).
    rewrite Hesc in Hs. simplify_eq. left. exists t. split.
    + unfold inflight. rewrite !elem_of_app. right. right.
      eapply held_lookup; eauto. simpl. left.
    + simpl in Hn. destruct (Nat.eqb_spec tg (tag t)); [done|].
      by apply concerns_records in Hn.
  - unfold wgdone_step in Hs.
    destruct (workers s !! w) as [[]|] eqn:Hw; try discriminate.
    destruct (wg (pool s) - 1 <? 0); simplify_eq; simpl in Hn; try done.
    left. exists t. split.
    + unfold inflight. rewrite !elem_of_app. right. right.
      eapply held_lookup; eauto. simpl. left.
    + by destruct (Nat.eqb_spec tg (tag t)).
  - case_match; by simplify_eq.
  - unfold waitclose_step, once_Do_close in Hs.
    repeat (case_match; simplify_eq); simpl in Hn; done.
Qed.

Lemma step_futures s a s' evs :
  step s a = Some (s', evs) ->
  (length (futures s) <= length (futures s'))%nat
  /\ (forall g, (g < length (futures s))%nat ->
        (forall x fn, x ∈ inflight s -> code x <> Wrapper g fn) ->
        futures s' !! g = futures s !! g)
  /\ (forall g f, futures s !! g = Some f ->
        exists f', futures s' !! g = Some f' /\ grows f f').
Proof.
  intros Hs.
  assert (futures s' = futures s ->
    (length (futures s) <= length (futures s'))%nat
    /\ (forall g, (g < length (futures s))%nat ->
          (forall x fn, x ∈ inflight s -> code x <> Wrapper g fn) ->
          futures s' !! g = futures s !! g)
    /\ (forall g f, futures s !! g = Some f ->
          exists f', futures s' !! g = Some f' /\ grows f f')) as Hsame.
  { intros ->. split; [done|]. split; [done|]. eauto using grows_refl. }
  destruct a.
  5-9: unfold step in Hs; destruct (crashed s) eqn:Hc; [discriminate|].
  1-3: unfold step in Hs; destruct (crashed s) eqn:Hc; [discriminate|].
  - simplify_eq. by apply Hsame.
  - simplify_eq. by apply Hsame.
  - apply Hsame. unfold submitted in Hs.
    repeat (case_match; simplify_eq); done.
  - apply submit_with_result_step in Hs
      as (fs & s1 & evs1 & Hsub & Hs' & Hfs & _).
    assert (futures s' = fs) as ->.
    { unfold submitted in Hsub.
      destruct Hs' as [->| ->]; repeat (case_match; simplify_eq); done. }
    destruct Hfs as [->|(p & e & _ & ->)].
    + rewrite length_app. split; [lia|]. split.
      * intros g Hg _. by apply lookup_app_l.
      * intros g f Hf. exists f. split; [|apply grows_refl].
        apply lookup_app_l_Some. done.
    + destruct (complete_at _ _ _ _) as [fs1 pn] eqn:Hca. simpl.
      pose proof (complete_at_spec _ _ _ _ _ _ Hca) as (Hl & Ho & _).
      rewrite Hl, length_app. split; [lia|]. split.
      * intros g Hg _. rewrite Ho by lia. by apply lookup_app_l.
      * intros g f Hf. eapply complete_at_grows; eauto.
        by apply lookup_app_l_Some.
  - apply Hsame. unfold select_step in Hs.
    repeat (case_match; simplify_eq); done.
  - unfold execute_step in Hs.
    destruct (workers s !! w) as [[]|] eqn:Hw; try discriminate.
    destruct (executeWithRetry _ _ _ _) as [e|] eqn:He; [|discriminate].
    pose proof (executeWithRetry_pool _ _ _ _ _ He)
      as (_ & _ & _ & _ & _ & _ & Hesc).
    apply executeWithRetry_futures in He as (Hl & Ho & Hg).
    rewrite Hesc in Hs. simplify_eq. simpl.
    split; [lia|]. split; [|done].
    intros g _ Hng. apply Ho. intros fn. apply Hng.
    unfold inflight. rewrite !elem_of_app. right. right.
    eapply held_lookup; eauto. simpl. left.
  - apply Hsame. unfold wgdone_step in Hs.
    repeat (case_match; simplify_eq); done.
  - apply Hsame. case_match; by simplify_eq.
  - apply Hsame. unfold waitclose_step, once_Do_close in Hs.
    repeat (case_match; simplify_eq); done.
Qed.

(** ** Closures that are not in flight stay out *)

Lemma step_tags_ok s a s' evs :
  step s a = Some (s', evs) -> tags_ok s -> tags_ok s'.
Proof.
  intros Hs Hok x Hx.
  pose proof (step_nsub _ _ _ _ Hs) as Hn.
  pose proof (step_futures _ _ _ _ Hs) as (Hl & _).
  destruct (step_inflight _ _ _ _ _ Hs Hx) as [Hin|(Ht & Hlt & Hw)].
  - destruct (Hok x Hin) as [H1 H2]. split; [lia|].
    intros fid fn Hc. specialize (H2 fid fn Hc). lia.
  - split; [lia|]. intros fid fn Hc. by destruct (Hw fid fn Hc).
Qed.

Lemma steps_tags_ok s evs s' : steps s evs s' -> tags_ok s -> tags_ok s'.
Proof. induction 1; eauto using step_tags_ok. Qed.

Lemma reachable_tags_ok s evs : reachable s evs -> tags_ok s.
Proof.
  intros (n & os & H). eapply steps_tags_ok; eauto.
  intros x Hx. unfold inflight in Hx. simpl in Hx.
  destruct (0 <? _) in Hx; simpl in Hx; by apply elem_of_nil in Hx.
Qed.

Lemma step_absent tg s a s' evs :
  step s a = Some (s', evs) -> absent tg s ->
  absent tg s' /\ count (concerns tg) evs = O.
Proof.
  intros Hs [Hlt Hno]. split; [split|].
  - pose proof (step_nsub _ _ _ _ Hs). lia.
  - intros x Hx. destruct (step_inflight _ _ _ _ _ Hs Hx) as [?|(? & _)];
      [auto|lia].
  - destruct (count (concerns tg) evs) eqn:Hc; [done|].
    destruct (step_concerns s a s' evs tg Hs) as [(x & Hx & Ht)|Ht];
      [lia| |lia].
    by destruct (Hno x Hx).
Qed.

Lemma steps_absent tg s evs s' :
  steps s evs s' -> absent tg s ->
  absent tg s' /\ count (concerns tg) evs = O.
Proof.
  induction 1 as [|evs s' a s'' evs' _ IH Hs]; intros Ha; [done|].
  destruct (IH Ha) as [Ha' Hc].
  destruct (step_absent _ _ _ _ _ Hs Ha') as [Ha'' Hc'].
  split; [done|]. rewrite count_app. lia.
Qed.

Lemma step_orphan g s a s' evs :
  step s a = Some (s', evs) -> orphan g s ->
  orphan g s' /\ futures s' !! g = futures s !! g.
Proof.
  intros Hs [Hlt Hno].
  pose proof (step_futures _ _ _ _ Hs) as (Hl & Ho & _).
  split; [split|]; [lia| |auto].
  intros x fn Hx Hc.
  destruct (step_inflight _ _ _ _ _ Hs Hx) as [?|(_ & _ & Hw)].
  - by eapply Hno.
  - destruct (Hw _ _ Hc). lia.
Qed.

Lemma steps_orphan g s evs s' :
  steps s evs s' -> orphan g s ->
  orphan g s' /\ futures s' !! g = futures s !! g.
Proof.
  induction 1 as [|evs s' a s'' evs' _ IH Hs]; intros Ha; [done|].
  destruct (IH Ha) as [Ha' Hc].
  destruct (step_orphan _ _ _ _ _ Hs Ha') as [Ha'' Hc'].
  split; [done|]. congruence.
Qed.

Lemma steps_grows s evs s' g f :
  steps s evs s' -> futures s !! g = Some f ->
  exists f', futures s' !! g = Some f' /\ grows f f'.
Proof.
  induction 1 as [|evs s' a s'' evs' _ IH Hs]; intros Hf.
  - eauto using grows_refl.
  - destruct (IH Hf) as (f1 & Hf1 & Hg1).
    pose proof (step_futures _ _ _ _ Hs) as (_ & _ & Hgr).
    destruct (Hgr g f1 Hf1) as (f2 & Hf2 & Hg2).
    eauto using grows_trans.
Qed.

Lemma steps_errs s evs s' :
  steps s evs s' -> errs (pool s') = errs (pool s) ++ recorded evs.
Proof.
  induction 1 as [|evs s' a s'' evs' _ IH Hs]; simpl.
  - by rewrite app_nil_r.
  - apply step_errs in Hs. rewrite Hs, IH, recorded_app, app_assoc. done.
Qed.

(** ** Runs *)

Lemma steps_cons s a s1 evs1 evs2 s2 :
  step s a = Some (s1, evs1) -> steps s1 evs2 s2 -> steps s (evs1 ++ evs2) s2.
Proof.
  intros Hs. induction 1 as [|evs s' a' s'' evs' _ IH Hs'].
  - rewrite app_nil_r. rewrite <- (app_nil_l evs1).
    eapply steps_snoc; [apply steps_refl|done].
  - rewrite app_assoc. eapply steps_snoc; eauto.
Qed.

Lemma run_steps acts : forall s s' evs,
  run s acts = Some (s', evs) -> steps s evs s'.
Proof.
  induction acts as [|a acts IH]; intros s s' evs H; simpl in H.
  - simplify_eq. apply steps_refl.
  - destruct (step s a) as [[s1 evs1]|] eqn:Hs; [|done].
    destruct (run s1 acts) as [[s2 evs2]|] eqn:Hr; [|done].
    simplify_eq. eapply steps_cons; eauto.
Qed.

Lemma steps_trans s evs s' evs' s'' :
  steps s evs s' -> steps s' evs' s'' -> steps s (evs ++ evs') s''.
Proof.
  intros H. induction 1 as [|e1 s1 a s2 e2 _ IH Hs].
  - by rewrite app_nil_r.
  - rewrite app_assoc. eapply steps_snoc; eauto.
Qed.

Lemma reachable_run n os acts s evs :
  run (init n os) acts = Some (s, evs) -> reachable s evs.
Proof. intros H. exists n, os. by apply (run_steps acts). Qed.

(** ** The queue-full policies *)

(** C5. The ReturnError policy.  When the queue is at capacity the
    non-blocking send fails: Submit undoes its increment of the counter,
    leaves the queue as it was, appends the queue-full error to the
    collector, where every later snapshot [Errors] still shows it, and
    returns that same error.  When the send goes through, Submit returns
    nil, the counter is one higher and the collector unchanged. *)
Theorem return_error_policy p t :
  queueFullPolicy (opts p) = QueueFullReturnError ->
  (at_capacity (tasks p) ->
     exists p',
       Submit p t = Rejected p' ErrQueueFull
       /\ returned (Submit p t) = Some (Some ErrQueueFull)
       /\ wg p' = wg p
       /\ tasks p' = tasks p
       /\ Errors (errs p') = Errors (errs p) ++ [ErrQueueFull]
       /\ forall s evs s',
            pool s = p' -> steps s evs s' ->
            ErrQueueFull ∈ Errors (errs (pool s')))
  /\ (forall p' w, Submit p t = Enqueued p' w ->
        returned (Submit p t) = Some None
        /\ wg p' = wg p + 1 /\ errs p' = errs p).
Proof.
  intros Hpol.
  pose proof (Submit_cases p t) as HS. simpl in HS. rewrite Hpol in HS.
  split.
  - intros Hfull%(chansend_would_block _ t). rewrite Hfull in HS.
    simpl in HS. eexists. split; [exact HS|]. rewrite HS. simpl.
    split; [done|]. split; [lia|]. split; [done|]. split; [done|].
    intros s evs s' Hp Hst. apply steps_errs in Hst. unfold Errors.
    rewrite Hst, Hp. simpl. rewrite !elem_of_app. left. right. left.
  - intros p' w HE. rewrite HE. split; [done|].
    destruct (chansend (tasks p) t); simpl in HS; rewrite HS in HE;
      simplify_eq; simpl; done.
Qed.

(** C6. The Discard policy.  When the queue is at capacity, Submit
    returns nil, with the counter, the collector and the closures in
    flight as they were before the call; and in every continuation of the
    run the dropped task is never executed, no error is recorded for it
    and no worker runs [wg.Done()] for it. *)
Theorem discard_policy s evs0 body :
  reachable s evs0 -> crashed s = false ->
  queueFullPolicy (opts (pool s)) = QueueFullDiscard ->
  at_capacity (tasks (pool s)) ->
  let task := {| tag := nsub s; code := Plain body |} in
  exists s',
    step s (ASubmit body)
    = Some (s', [EvEnter (nsub s); EvDiscard (nsub s)])
    /\ returned (Submit (pool s) task) = Some None
    /\ wg (pool s') = wg (pool s)
    /\ Errors (errs (pool s')) = Errors (errs (pool s))
    /\ inflight s' = inflight s
    /\ forall evs s'',
         steps s' evs s'' ->
         count (concerns (nsub s)) evs = O
         /\ forall x, x ∈ inflight s'' -> tag x <> nsub s.
Proof.
  intros Hr Hc Hpol Hfull task.
  pose proof (Submit_cases (pool s) task) as HS. simpl in HS.
  apply (chansend_would_block _ task) in Hfull.
  rewrite Hfull, Hpol in HS. simpl in HS.
  eexists. split.
  { unfold step. rewrite Hc. fold task. rewrite HS. simpl. reflexivity. }
  rewrite HS. simpl. split; [done|]. split; [lia|]. split; [done|].
  split; [done|].
  intros evs s'' Hst.
  eapply steps_absent in Hst as [[_ Ha] Hn].
  - split; [exact Hn|exact Ha].
  - split; simpl; [lia|]. intros x Hx.
    apply (reachable_tags_ok _ _ Hr) in Hx as [Hx _]. lia.
Qed.

(** ** SubmitWithResult at admission *)

(** C9. SubmitWithResult when Submit returns an error [e].  That happens
    only under the ReturnError policy with the queue at capacity, and [e]
    is the queue-full error.  The new Future is completed at once, by one
    call of [complete], with the zero value and [e]; the wrapper is not in
    flight, so in every continuation of the run the producer is never
    called and the Future keeps that state. *)
Theorem submit_with_result_rejected s evs0 fn e :
  reachable s evs0 -> crashed s = false ->
  let fid := length (futures s) in
  let task := {| tag := nsub s; code := Wrapper fid fn |} in
  returned (Submit (pool s) task) = Some (Some e) ->
  e = ErrQueueFull
  /\ queueFullPolicy (opts (pool s)) = QueueFullReturnError
  /\ at_capacity (tasks (pool s))
  /\ exists s',
    step s (ASubmitWithResult fn)
    = Some (s', [EvEnter (nsub s); EvRecord (nsub s) e; EvReject (nsub s)])
    /\ futures s' !! fid
       = Some {| result := zero; err := Some e; done := true;
                 completions := 1 |}
    /\ forall evs s'',
         steps s' evs s'' ->
         count (concerns (nsub s)) evs = O
         /\ (forall x, x ∈ inflight s'' -> tag x <> nsub s)
         /\ futures s'' !! fid = futures s' !! fid.
Proof.
  intros Hr Hc fid task Hret.
  destruct (Submit (pool s) task) as [p w|p|p e'|p|p] eqn:HS;
    simpl in Hret; simplify_eq.
  assert (tasks p = tasks (pool s) /\ e = ErrQueueFull
          /\ queueFullPolicy (opts (pool s)) = QueueFullReturnError
          /\ at_capacity (tasks (pool s))) as (Htasks & He & Hpol & Hfull).
  { pose proof (Submit_cases (pool s) task) as HC. simpl in HC.
    rewrite HS in HC.
    destruct (chansend (tasks (pool s)) task) eqn:Hsend; try done.
    apply chansend_would_block in Hsend.
    destruct (Z.eqb_spec (queueFullPolicy (opts (pool s))) QueueFullDiscard);
      [done|].
    destruct (Z.eqb_spec (queueFullPolicy (opts (pool s)))
                QueueFullReturnError); [|done].
    by simplify_eq. }
  split; [exact He|]. split; [exact Hpol|]. split; [exact Hfull|].
  assert (complete_at (futures s ++ [newFuture]) fid zero (Some e)
          = (futures s ++ [{| result := zero; err := Some e; done := true;
                              completions := 1 |}], None)) as Hca.
  { unfold complete_at, fid.
    rewrite lookup_app_r, Nat.sub_diag by lia. simpl.
    rewrite insert_app_r_alt, Nat.sub_diag by lia. done. }
  eexists. split.
  { unfold step. rewrite Hc. unfold SubmitWithResult. fold fid task.
    rewrite HS, Hca. simpl. reflexivity. }
  simpl. split.
  { unfold fid. rewrite lookup_app_r, Nat.sub_diag by lia. done. }
  intros evs s'' Hst.
  pose proof (reachable_tags_ok _ _ Hr) as Hok.
  pose proof Hst as Hst'.
  eapply steps_absent in Hst as [[_ Ha] Hn].
  - split; [exact Hn|]. split; [exact Ha|].
    eapply steps_orphan in Hst' as [_ Hf]; [exact Hf|].
    split; simpl.
    + rewrite length_app. simpl. fold fid. lia.
    + intros x fn' Hx Hcode. unfold inflight in Hx. simpl in Hx.
      rewrite Htasks in Hx. apply Hok in Hx as [_ Hx].
      specialize (Hx _ _ Hcode). fold fid in Hx. lia.
  - split; simpl; [lia|]. intros x Hx.
    unfold inflight in Hx. simpl in Hx. rewrite Htasks in Hx.
    apply Hok in Hx as [Hx _]. lia.
Qed.

(** C10. SubmitWithResult under the Discard policy with the queue at
    capacity: Submit returns nil, nothing completes the new Future, and in
    every continuation of the run it is still the pending Future that
    [newFuture] made.  A [Get] on it blocks while the reader's context is
    not done and returns the zero value with [ctx.Err()] once it is. *)
Theorem discarded_future_stays_pending s evs0 fn :
  reachable s evs0 -> crashed s = false ->
  queueFullPolicy (opts (pool s)) = QueueFullDiscard ->
  at_capacity (tasks (pool s)) ->
  let fid := length (futures s) in
  let task := {| tag := nsub s; code := Wrapper fid fn |} in
  exists s',
    step s (ASubmitWithResult fn)
    = Some (s', [EvEnter (nsub s); EvDiscard (nsub s)])
    /\ returned (Submit (pool s) task) = Some None
    /\ futures s' !! fid = Some newFuture
    /\ forall evs s'',
         steps s' evs s'' ->
         count (concerns (nsub s)) evs = O
         /\ futures s'' !! fid = Some newFuture
         /\ (forall pick, Get pick newFuture None = None)
         /\ (forall pick e, Get pick newFuture (Some e) = Some (zero, Some e)).
Proof.
  intros Hr Hc Hpol Hfull fid task.
  pose proof (Submit_cases (pool s) task) as HS. simpl in HS.
  apply (chansend_would_block _ task) in Hfull.
  rewrite Hfull, Hpol in HS. simpl in HS.
  eexists. split.
  { unfold step. rewrite Hc. unfold SubmitWithResult. fold fid task.
    rewrite HS. simpl. reflexivity. }
  rewrite HS. simpl. split; [done|].
  assert ((futures s ++ [newFuture]) !! fid = Some newFuture) as Hnew.
  { unfold fid. rewrite lookup_app_r, Nat.sub_diag by lia. done. }
  split; [exact Hnew|].
  intros evs s'' Hst.
  pose proof (reachable_tags_ok _ _ Hr) as Hok.
  pose proof Hst as Hst'.
  eapply steps_absent in Hst as [_ Hn].
  - split; [exact Hn|]. split; [|done].
    eapply steps_orphan in Hst' as [_ Hf]; [rewrite Hf; exact Hnew|].
    split; simpl.
    + rewrite length_app. simpl. fold fid. lia.
    + intros x fn' Hx Hcode. apply Hok in Hx as [_ Hx].
      specialize (Hx _ _ Hcode). fold fid in Hx. lia.
  - split; simpl; [lia|]. intros x Hx.
    apply Hok in Hx as [Hx _]. lia.
Qed.

(** ** Get *)

(** C7, as the code has it.  Once a Future is completed, and as long as
    [complete] does not run on it again, every [Get] whose context is not
    done returns the stored value and error, the same for every caller and
    every call, however the run went on in between; a [Get] whose context
    is done returns either that pair or the zero value with [ctx.Err()]. *)
Theorem get_after_completion s evs s' g f f' :
  steps s evs s' ->
  futures s !! g = Some f -> done f = true ->
  futures s' !! g = Some f' -> completions f' = completions f ->
  (forall pick pick',
     Get pick f None = Some (result f, err f)
     /\ Get pick' f' None = Get pick f None)
  /\ (forall pick e,
        Get pick f' (Some e) = Some (result f, err f)
        \/ Get pick f' (Some e) = Some (zero, Some e)).
Proof.
  intros Hst Hf Hd Hf' Hc.
  destruct (steps_grows _ _ _ _ _ Hst Hf) as (f1 & Hf1 & [->|Hlt]);
    [|simplify_eq; lia].
  simplify_eq. unfold Get. rewrite Hd. split.
  - done.
  - intros [] e; auto.
Qed.

(** ** Wait *)

Lemma steps_closes s evs s' :
  steps s evs s' ->
  (closes evs + (if once (pool s) then 1 else 0)
   = if once (pool s') then 1 else 0)%nat.
Proof.
  induction 1 as [|evs s' a s'' evs' _ IH Hs]; [done|].
  apply step_closes in Hs. unfold closes in *. rewrite count_app. lia.
Qed.

(** C8. Wait.  In every state the program reaches, whatever the number
    of Wait calls and however they interleave: [close(p.tasks)] has run at
    most once, exactly when the Once has run; running [p.once.Do] never
    panics with a second close; [wg.Wait()] lets a caller through only
    when the counter is zero, that is when every Submit call made so far
    has finished; and the step that ends a Wait closes the queue exactly
    when no earlier Wait has, and leaves the queue closed. *)
Theorem wait_closes_once s evs :
  reachable s evs ->
  (closes evs <= 1)%nat
  /\ closes evs = (if once (pool s) then 1 else 0)%nat
  /\ (crashed s = false ->
      once_Do_close (pool s) <> None /\ Wait (pool s) <> Some None)
  /\ (forall s' evs',
        step s AWaitPass = Some (s', evs') ->
        wg (pool s) = 0 /\ finished evs = entered evs)
  /\ (forall s' evs',
        step s AWaitClose = Some (s', evs') ->
        once (pool s') = true
        /\ closed (tasks (pool s')) = true
        /\ closes evs' = (if once (pool s) then 0 else 1)%nat
        /\ (EvPanic close_of_closed_channel ∉ evs')
        /\ (closes (evs ++ evs') <= 1)%nat).
Proof.
  intros Hr.
  assert (closes evs = (if once (pool s) then 1 else 0)%nat) as Hcl.
  { destruct Hr as (n & os & Hst). apply steps_closes in Hst.
    simpl in Hst. lia. }
  assert (crashed s = false -> closed (tasks (pool s)) = once (pool s))
    as Hinv by (intros Hc; by destruct (reachable_inv _ _ Hr Hc)).
  split; [destruct (once (pool s)); lia|]. split; [done|]. split; [|split].
  - intros Hc.
    assert (once_Do_close (pool s) <> None) as Hne.
    { unfold once_Do_close, closechan. rewrite <- (Hinv Hc).
      by destruct (closed (tasks (pool s))). }
    split; [exact Hne|]. unfold Wait.
    destruct (wg_Wait (pool s)); congruence.
  - intros s' evs' Hs. unfold step in Hs.
    destruct (crashed s); [done|]. unfold wg_Wait in Hs.
    destruct (Z.eqb_spec (wg (pool s)) 0) as [Hz|]; [|done].
    split; [done|]. pose proof (reachable_wg _ _ Hr). lia.
  - intros s' evs' Hs.
    pose proof (step_closes _ _ _ _ Hs) as Hcl'.
    unfold step in Hs. destruct (crashed s) eqn:Hc; [done|].
    specialize (Hinv eq_refl).
    unfold waitclose_step, once_Do_close, closechan in Hs. simpl in Hs.
    rewrite Hinv in Hs.
    assert (forall r : any, r <> close_of_closed_channel ->
            EvPanic close_of_closed_channel
            ∉ [EvClose; EvPanic r]) as Hno.
    { intros r Hne Hin. apply elem_of_cons in Hin as [|Hin]; [done|].
      apply list_elem_of_singleton in Hin. congruence. }
    unfold closes in *. rewrite count_app, Hcl.
    destruct (waiters s); [done|].
    destruct (once (pool s)) eqn:Ho; simpl in Hs.
    + simplify_eq. simpl. rewrite Hinv, Ho.
      split_and!; auto.
      by intros ?%list_elem_of_singleton.
    + destruct (sendq (tasks (pool s))); simplify_eq; simpl;
        split_and!; auto.
      intros Hin. apply elem_of_cons in Hin as [|Hin]; [done|].
      by apply list_elem_of_singleton in Hin.
Qed.

(** ** Retry *)


(** Below the largest int the loop ends, whatever the task does. *)
Lemma retry_loop_terminates t k (m : nat) :
  k < max_int ->
  forall i n e fs fuel,
    0 <= i -> i + Z.of_nat m = k + 1 -> (m < fuel)%nat ->
    exists ex n' fs', retry_loop fuel k t i n e fs = (Some ex, n', fs').
Proof.
  intros Hk. induction m as [|m IH]; intros i n e fs fuel Hi Him Hfuel.
  - destruct fuel as [|fuel]; [lia|]. simpl.
    destruct (Z.leb_spec i k); [lia|]. eauto.
  - destruct fuel as [|fuel]; [lia|]. simpl.
    destruct (Z.leb_spec i k); [|lia].
    destruct (call t n fs) as [fs1 [[x|]|r]]; eauto.
    rewrite wrap_int_id by (unfold min_int, int_bits; simpl; lia).
    apply IH; lia.
Qed.

Lemma executeWithRetry_terminates fuel p t fs :
  0 <= retry (opts p) < max_int ->
  (Z.to_nat (retry (opts p) + 1) < fuel)%nat ->
  is_Some (executeWithRetry fuel p t fs).
Proof.
  intros Hk Hfuel. unfold executeWithRetry.
  destruct (retry_loop_terminates t (retry (opts p))
              (Z.to_nat (retry (opts p) + 1)) (proj2 Hk) 0 O None fs fuel)
    as (ex & n & fs' & ->); try lia.
  destruct (recovery p ex) as [[p' r] esc]. eauto.
Qed.

(** The retry loop is exact below the largest int. *)
Theorem retry_exactness fuel p t fs :
  0 <= retry (opts p) < max_int ->
  (Z.to_nat (retry (opts p) + 1) < fuel)%nat ->
  (always_fails t ->
     exists x, executeWithRetry fuel p t fs = Some x
               /\ ex_calls x = Z.to_nat (retry (opts p) + 1)
               /\ exists e, ex_recorded x = [e])
  /\ (forall j, (1 <= j)%nat -> Z.of_nat j <= retry (opts p) + 1 ->
        fails_before t (j - 1) -> succeeds_at t (j - 1) ->
        exists x, executeWithRetry fuel p t fs = Some x
                  /\ ex_calls x = j /\ ex_recorded x = []).
Proof.
  intros Hk Hfuel. unfold executeWithRetry. split.
  - intros Hf.
    destruct (retry_loop_exhausts t (retry (opts p))
                (Z.to_nat (retry (opts p) + 1))) with
      (i := 0) (n := O) (e := @None goerr) (fs := fs) (fuel := fuel)
      as (e' & fs' & -> & He'); try lia.
    { intros n fs0 _. apply Hf. }
    destruct e' as [x|]; [|destruct (He' eq_refl); lia]. simpl. eauto.
  - intros j Hj Hjk Hfb Hsa.
    destruct (retry_loop_succeeds t (retry (opts p)) (j - 1) (j - 1)
                0 O None fs fuel) as (fs' & ->); auto; try lia.
    simpl. eexists. split; [done|]. simpl. split; [lia|done].
Qed.

Lemma reachable_step s evs a s' evs' :
  reachable s evs -> step s a = Some (s', evs') -> reachable s' (evs ++ evs').
Proof. intros (n & os & H) Hs. exists n, os. eapply steps_snoc; eauto. Qed.

Lemma step_opts s a s' evs :
  step s a = Some (s', evs) -> opts (pool s') = opts (pool s).
Proof. intros H. step_cases H. Qed.

Lemma completed_app evs evs' :
  completed (evs ++ evs') = completed evs ++ completed evs'.
Proof.
  induction evs as [|e evs IH]; simpl; [done|].
  destruct e; simpl; congruence.
Qed.


Lemma run_cons s a s1 evs1 acts s2 evs2 :
  step s a = Some (s1, evs1) -> run s1 acts = Some (s2, evs2) ->
  run s (a :: acts) = Some (s2, evs1 ++ evs2).
Proof. intros H1 H2. simpl. by rewrite H1, H2. Qed.

End Properties.

(** * Further properties of the code *)

Section Further.
Context {T : Type} {zeroT : Zero T}.
Implicit Types (t : @Task T) (fs : list (@Future T)) (p : @Pool T)
  (s : @System T) (c : @Chan T) (ws : list (@Worker T)).

(** ** errors.go: the collector *)

(** X1. ErrorCollector.  After any sequence of [Add] calls, [Errors]
    returns what the collector held before followed by the non-nil
    arguments, in the order of the calls: a nil error is ignored and
    nothing is lost or reordered. *)
Theorem collector_keeps_errors_in_order (e : ErrorCollector) (l : list error) :
  Errors (fold_left Add l e) = Errors e ++ omap id l.
Proof.
  revert e. induction l as [|x l IH]; intros e; simpl.
  - by rewrite app_nil_r.
  - rewrite IH. destruct x as [x|]; simpl; [|done].
    unfold Errors. by rewrite <- app_assoc.
Qed.

(** ** The queue *)

(** A receive takes the first value of the queue. *)
Lemma chanrecv_queue c t woken c' :
  chanrecv c = Recv t woken c' ->
  queue c = t :: queue c'
  /\ (length (buf c') <= length (buf c))%nat
  /\ (sendq c' <> [] -> length (buf c') = length (buf c))
  /\ (sendq c' <> [] -> sendq c <> [])
  /\ recvq c' = recvq c /\ cap c' = cap c.
Proof.
  unfold chanrecv, queue. intros H.
  repeat case_match; simplify_eq; simpl; rewrite <- ?app_assoc, ?length_app;
    simpl; split_and!; auto; try lia; try done.
Qed.

Lemma sorted_snoc (l : list nat) (n : nat) :
  StronglySorted lt l -> (forall x, x ∈ l -> (x < n)%nat) ->
  StronglySorted lt (l ++ [n]).
Proof.
  intros Hl Hn. apply StronglySorted_app_2; [|done|repeat constructor].
  intros x y Hx ->%list_elem_of_singleton. auto.
Qed.

Lemma queue_inv_frame s s' :
  queue_inv s ->
  tasks (pool s') = tasks (pool s) -> opts (pool s') = opts (pool s) ->
  ctx_done s' = ctx_done s -> (nsub s <= nsub s')%nat ->
  queue_inv s'.
Proof.
  intros [Hcap Hb Hsq Hrq Hctx Htg Hso] Ht Ho Hc Hn.
  constructor; rewrite ?Ht, ?Ho, ?Hc; auto.
  intros x Hx. apply Htg in Hx. lia.
Qed.

Lemma submitted_queue_inv s t fs s' evs :
  queue_inv s -> tag t = nsub s ->
  submitted s t fs (Submit (pool s) t) = (s', evs) ->
  queue_inv s'.
Proof.
  intros Hq Htag Hs. pose proof Hq as [Hcap Hb Hsq Hrq Hctx Htg Hso].
  pose proof (Submit_cases (pool s) t) as HS. simpl in HS.
  destruct (chansend (tasks (pool s)) t) as [w c|c| |] eqn:Hsend.
  - rewrite HS in Hs. simpl in Hs. simplify_eq.
    apply chansend_direct in Hsend as (Hcl & Hr & Hbf & Hsd & Hcl' & Hcp).
    assert (queue (tasks (pool s)) = []) as [Hq1 Hq2]%app_eq_nil
      by (apply Hrq; by rewrite Hr).
    constructor; unfold queue; simpl; rewrite ?Hbf, ?Hsd, ?Hcp, ?Hq1, ?Hq2;
      simpl; auto; try done.
    + rewrite Hq1 in Hb. done.
    + intros Hc. specialize (Hctx Hc). congruence.
    + intros x Hx. by apply elem_of_nil in Hx.
    + constructor.
  - rewrite HS in Hs. simpl in Hs. simplify_eq.
    apply chansend_buffered in Hsend
      as (Hcl & Hr & Hr' & Hbf & Hsd & Hcl' & Hcp & Hroom).
    assert (sendq (tasks (pool s)) = []) as Hnil.
    { destruct (sendq (tasks (pool s))) eqn:E; [done|].
      destruct Hsq as [_ Hfull]; [done|]. lia. }
    constructor; unfold queue; simpl; rewrite ?Hbf, ?Hsd, ?Hcp, ?Hnil, ?Hr';
      simpl; auto; try done.
    + rewrite length_app. simpl. lia.
    + rewrite app_nil_r. intros x [Hx| ->%list_elem_of_singleton]%elem_of_app.
      * assert (tag x < nsub s)%nat; [|lia].
        apply Htg. unfold queue. rewrite Hnil, app_nil_r. done.
      * lia.
    + rewrite app_nil_r, fmap_app. simpl. unfold queue in Hso, Htg.
      rewrite Hnil, app_nil_r in Hso, Htg. apply sorted_snoc; [done|].
      intros x (y & -> & Hy)%list_elem_of_fmap. rewrite Htag. auto.
  - apply chansend_would_block in Hsend as (Hcl & Hr & Hfull).
    repeat case_match; rewrite HS in Hs; simpl in Hs; simplify_eq;
      try (eapply queue_inv_frame; [exact Hq|simpl; auto; lia ..]).
    constructor; unfold queue; simpl; auto.
    + intros _. split; [done|lia].
    + rewrite Hr. done.
    + rewrite app_assoc.
      intros x [Hx| ->%list_elem_of_singleton]%elem_of_app.
      * assert (tag x < nsub s)%nat; [|lia]. by apply Htg.
      * lia.
    + rewrite app_assoc, fmap_app. simpl. apply sorted_snoc; [done|].
      intros x (y & -> & Hy)%list_elem_of_fmap. rewrite Htag. auto.
  - rewrite HS in Hs. simpl in Hs. simplify_eq.
    eapply queue_inv_frame; [exact Hq|simpl; auto; lia ..].
Qed.

Lemma release_length ws q : length (release ws q) = length ws.
Proof. induction q; simpl; rewrite ?length_insert; auto. Qed.

(** Every step keeps [queue_inv]. *)
Lemma step_queue_inv s a s' evs :
  queue_inv s -> step s a = Some (s', evs) -> queue_inv s'.
Proof.
  intros Hq Hs. pose proof Hq as [Hcap Hb Hsq Hrq Hctx Htg Hso].
  unfold step in Hs. destruct (crashed s) eqn:Hc; [discriminate|].
  destruct a.
  - simplify_eq. eapply queue_inv_frame; [exact Hq|simpl; auto; lia ..].
  - simplify_eq. constructor; unfold queue; simpl; auto; try done.
    intros Hn. split; [done|by destruct Hsq].
  - simplify_eq.
    destruct (submitted s _ _ _) as [s1 e1] eqn:Hsub. simplify_eq.
    eapply submitted_queue_inv; [exact Hq| |exact Hsub]. done.
  - unfold SubmitWithResult in Hs.
    set (t := {| tag := nsub s; code := Wrapper (length (futures s)) fn |}) in *.
    destruct (Submit (pool s) t) eqn:HS;
      repeat (case_match; simplify_eq);
      try (eapply submitted_queue_inv; [exact Hq| |rewrite HS; eauto]; done).
    all: eapply (queue_inv_frame s1);
      [eapply submitted_queue_inv; [exact Hq| |rewrite HS; eauto]; done
      |simpl; auto; lia ..].
  - unfold select_step in Hs.
    destruct (workers s !! w) as [[]|] eqn:Hw; try discriminate.
    destruct (chanrecv (tasks (pool s))) as [t woken c| |] eqn:Hr.
    + destruct (ctx_done s && pick_ctx); simplify_eq;
        [eapply queue_inv_frame; [exact Hq|simpl; auto; lia ..]|].
      apply chanrecv_queue in Hr as (Hqu & Hle & Hsame & Hne & Hrv & Hcp).
      rewrite Hqu in Htg, Hso, Hrq.
      constructor; simpl; rewrite ?Hcp, ?Hrv; auto.
      * lia.
      * intros Hn. destruct Hsq as [? ?]; auto. rewrite Hsame by done. auto.
      * intros Hn. by specialize (Hrq Hn).
      * intros x Hx. apply Htg. by right.
      * simpl in Hso. by apply StronglySorted_inv in Hso as [? _].
    + simplify_eq. eapply queue_inv_frame; [exact Hq|simpl; auto; lia ..].
    + destruct (ctx_done s) eqn:Hcd; simplify_eq;
        [eapply queue_inv_frame; [exact Hq|simpl; auto; lia ..]|].
      unfold chanrecv in Hr. unfold queue in *.
      destruct (buf (tasks (pool s))) eqn:Hbf;
        destruct (sendq (tasks (pool s))) eqn:Hsd;
        try discriminate.
      constructor; unfold queue; simpl; rewrite ?Hbf, ?Hsd; auto; try done.
      congruence.
  - unfold execute_step in Hs.
    destruct (workers s !! w) as [[]|] eqn:Hw; try discriminate.
    destruct (executeWithRetry fuel (pool s) t (futures s)) as [x|] eqn:Hx;
      [|discriminate].
    apply executeWithRetry_pool in Hx as (Ht & Hg & Ho & Hop & _ & _ & Hesc).
    rewrite Hesc in Hs. simplify_eq.
    eapply queue_inv_frame; [exact Hq|simpl; auto; lia ..].
  - unfold wgdone_step in Hs.
    destruct (workers s !! w) as [[]|] eqn:Hw; try discriminate.
    destruct (wg (pool s) - 1 <? 0); simplify_eq;
      (eapply queue_inv_frame; [exact Hq|simpl; auto; lia ..]).
  - case_match; simplify_eq.
    eapply queue_inv_frame; [exact Hq|simpl; auto; lia ..].
  - unfold waitclose_step in Hs.
    destruct (waiters s) as [|n]; [discriminate|].
    unfold once_Do_close in Hs. simpl in Hs.
    destruct (once (pool s)) eqn:Ho; simplify_eq;
      [eapply queue_inv_frame; [exact Hq|simpl; auto; lia ..]|].
    destruct (closechan (tasks (pool s))) as [c|] eqn:Hcc; simpl in Hs;
      [|simplify_eq; eapply queue_inv_frame; [exact Hq|simpl; auto; lia ..]].
    apply closechan_some in Hcc as (_ & Hcl & Hrv & Hbf & Hsd & Hcp).
    destruct (sendq c) eqn:Hsc; simplify_eq.
    all: constructor; unfold queue in *; simpl;
      rewrite ?Hcp, ?Hrv, ?Hbf, ?Hsc; rewrite <- ?Hsd, ?Hsc in *; auto;
      try done.
    all: intros _; split; [done|]; by destruct Hsq.
Qed.

Lemma steps_queue_inv s evs s' :
  steps s evs s' -> queue_inv s -> queue_inv s'.
Proof.
  induction 1 as [|evs s' a s'' evs' _ IH Hs]; [done|].
  intros Hq. eapply step_queue_inv; [|exact Hs]. auto.
Qed.

Lemma queue_inv_init n os : queue_inv (@init T n os).
Proof.
  constructor; unfold queue; simpl; try done.
  - case_match; simpl; lia.
  - case_match; simpl; lia.
  - by case_match.
  - by case_match.
  - case_match; simpl; intros x Hx; by apply elem_of_nil in Hx.
  - case_match; simpl; constructor.
Qed.

Lemma reachable_queue_inv s evs : reachable s evs -> queue_inv s.
Proof. intros (n & os & H). eapply steps_queue_inv; eauto using queue_inv_init. Qed.

Lemma steps_opts s evs s' : steps s evs s' -> opts (pool s') = opts (pool s).
Proof.
  induction 1 as [|evs s' a s'' evs' _ IH Hs]; [done|].
  apply step_opts in Hs. congruence.
Qed.

(** X3. The bound of the queue.  In every state of a program started
    with [New(n, os...)] the channel has the capacity [max 0 queueSize]
    of the options given, the buffer holds at most that many tasks, a
    caller of Submit is parked only while the buffer is full, and with a
    queue size of zero or less the buffer stays empty. *)
Theorem queue_bound n os evs s :
  steps (init n os) evs s ->
  let q := Z.max 0 (queueSize (opts (@New T n os))) in
  cap (tasks (pool s)) = q
  /\ Z.of_nat (length (buf (tasks (pool s)))) <= q
  /\ (sendq (tasks (pool s)) <> [] ->
      Z.of_nat (length (buf (tasks (pool s)))) = q)
  /\ (queueSize (opts (@New T n os)) <= 0 -> buf (tasks (pool s)) = []).
Proof.
  intros H q. pose proof (steps_opts _ _ _ H) as Ho.
  change (pool (init n os)) with (@New T n os) in Ho.
  assert (queue_inv s) as [Hcap Hb Hsq _ _ _ _]
    by (eapply steps_queue_inv; eauto using queue_inv_init).
  rewrite Ho in Hcap. fold q in Hcap. rewrite Hcap in *.
  split_and!; auto.
  - intros Hn. by destruct (Hsq Hn).
  - intros Hz. destruct (buf (tasks (pool s))); [done|].
    simpl length in Hb. unfold q in Hb. lia.
Qed.

(** X4. No task waits while a worker is parked.  Whenever a worker
    is parked in its [select], the buffer is empty and no caller of
    Submit is parked: a task is handed to a parked worker at once. *)
Theorem no_task_waits_while_a_worker_is_parked s evs w :
  reachable s evs -> crashed s = false ->
  workers s !! w = Some WParked ->
  buf (tasks (pool s)) = [] /\ sendq (tasks (pool s)) = [].
Proof.
  intros Hr Hc Hw.
  pose proof (reachable_inv _ _ Hr Hc) as [_ _ Hpk _].
  pose proof (reachable_queue_inv _ _ Hr) as [_ _ _ Hrq _ _ _].
  apply Hpk in Hw. apply app_eq_nil. apply Hrq.
  intros Hn. rewrite Hn in Hw. by apply elem_of_nil in Hw.
Qed.

(** X5. First in, first out.  The tasks waiting in the channel (the
    buffer, then the parked senders) are in the order in which their
    Submit calls reached the channel, and a worker that receives takes
    the first of them: the task it takes comes from an earlier Submit
    call than every task left waiting. *)
Theorem fifo s evs :
  reachable s evs ->
  StronglySorted lt (tag <$> queue (tasks (pool s)))
  /\ forall w pick s' evs' t,
       step s (ASelect w pick) = Some (s', evs') ->
       workers s' !! w = Some (WExec t) ->
       queue (tasks (pool s)) = t :: queue (tasks (pool s'))
       /\ forall x, x ∈ queue (tasks (pool s')) -> (tag t < tag x)%nat.
Proof.
  intros Hr. pose proof (reachable_queue_inv _ _ Hr) as [_ _ _ _ _ _ Hso].
  split; [done|]. intros w pick s' evs' t Hs Hw.
  unfold step in Hs. destruct (crashed s); [done|].
  unfold select_step in Hs.
  destruct (workers s !! w) as [[]|] eqn:Hws; try discriminate.
  pose proof (lookup_lt_Some _ _ _ Hws) as Hlt.
  destruct (chanrecv (tasks (pool s))) as [t' woken c| |] eqn:Hrecv.
  - destruct (ctx_done s && pick); simplify_eq; simpl in Hw;
      rewrite list_lookup_insert_eq in Hw by done; simplify_eq.
    apply chanrecv_queue in Hrecv as (Hqu & _). simpl.
    split; [done|]. rewrite Hqu in Hso. simpl in Hso.
    apply StronglySorted_inv in Hso as [_ Hall].
    rewrite Forall_forall in Hall. intros x Hx. apply Hall.
    apply list_elem_of_fmap. eauto.
  - simplify_eq. simpl in Hw.
    rewrite list_lookup_insert_eq in Hw by done. done.
  - destruct (ctx_done s); simplify_eq; simpl in Hw;
      rewrite list_lookup_insert_eq in Hw by done; done.
Qed.

Lemma step_ctx_done s a s' evs :
  step s a = Some (s', evs) -> ctx_done s = true -> ctx_done s' = true.
Proof. intros H. step_cases H. Qed.

(** X6. After the context is done.  Once the context given to Run
    is done it stays done, no worker is parked in its [select], a worker
    that comes to its [select] with nothing waiting in the channel
    returns, whichever case the [select] picks. *)
Theorem no_worker_parks_after_cancel s evs :
  reachable s evs -> crashed s = false -> ctx_done s = true ->
  recvq (tasks (pool s)) = []
  /\ (forall w, workers s !! w <> Some WParked)
  /\ (forall w pick s' evs',
        queue (tasks (pool s)) = [] ->
        step s (ASelect w pick) = Some (s', evs') ->
        workers s' !! w = Some WStopped)
  /\ (forall a s' evs', step s a = Some (s', evs') -> ctx_done s' = true).
Proof.
  intros Hr Hc Hd.
  pose proof (reachable_inv _ _ Hr Hc) as [_ _ Hpk _].
  pose proof (reachable_queue_inv _ _ Hr) as [_ _ _ _ Hctx _ _].
  specialize (Hctx Hd). split_and!; auto.
  - intros w Hw. apply Hpk in Hw. rewrite Hctx in Hw.
    by apply elem_of_nil in Hw.
  - intros w pick s' evs' [Hb Hs]%app_eq_nil H.
    unfold step in H. rewrite Hc in H. unfold select_step, chanrecv in H.
    rewrite Hb, Hs, Hd in H.
    destruct (workers s !! w) as [[]|] eqn:Hw; try discriminate.
    pose proof (lookup_lt_Some _ _ _ Hw).
    destruct (closed (tasks (pool s))); simplify_eq; simpl;
      by apply list_lookup_insert_eq.
  - intros a s' evs' H. eapply step_ctx_done; eauto.
Qed.

(** ** Panics *)

Lemma panics_records tg l : panics (map (EvRecord tg) l) = [].
Proof. induction l; simpl; auto. Qed.

Lemma complete_at_fresh fs (res : T) e :
  complete_at (fs ++ [newFuture]) (length fs) res e
  = (fs ++ [{| result := res; err := e; done := true; completions := 1 |}],
     None).
Proof.
  unfold complete_at.
  rewrite lookup_app_r, Nat.sub_diag by lia. simpl.
  rewrite insert_app_r_alt, Nat.sub_diag by lia. done.
Qed.

(** X7. Panics of the pool's own operations.  In every state the
    program reaches without a panic: no panic leaves executeWithRetry,
    whatever the task does; a worker about to run [wg.Done()] finds the
    counter at one or more, so that call never makes it negative; the
    [close] in Wait never runs on a closed channel, and it ends the
    program exactly when it runs while a Submit caller is parked in its
    send, whose send then panics; the [complete] that SubmitWithResult
    runs on its fresh Future after a rejection does not panic; and the
    send of a Submit call panics exactly when a Wait call has closed the
    queue before.  The panics that sync.WaitGroup raises when [Add] races
    with [Wait] are not part of this statement. *)
Theorem panics_of_the_pool_operations s evs :
  reachable s evs -> crashed s = false ->
  (forall w fuel s' evs',
     step s (AExecute w fuel) = Some (s', evs') ->
     crashed s' = false /\ panics evs' = [])
  /\ (forall w t, workers s !! w = Some (WDone t) -> 1 <= wg (pool s))
  /\ once_Do_close (pool s) <> None
  /\ (forall s' evs',
        step s AWaitClose = Some (s', evs') ->
        (crashed s' = true
         <-> once (pool s) = false /\ sendq (tasks (pool s)) <> [])
        /\ panics evs'
           = if crashed s' then [send_on_closed_channel] else [])
  /\ (forall tg fn, (SubmitWithResult (pool s) (futures s) tg fn).2 = None)
  /\ (forall t,
        (exists p, Submit (pool s) t = SubmitPanics p)
        <-> closes evs = 1%nat).
Proof.
  intros Hr Hc.
  pose proof (reachable_inv _ _ Hr Hc) as [Hwg Hnd Hpk Hon].
  split_and!.
  - intros w fuel s' evs' H. unfold step, execute_step in H.
    rewrite Hc in H.
    destruct (workers s !! w) as [[| |t|t|]|]; try discriminate.
    destruct (executeWithRetry fuel (pool s) t (futures s)) as [x|] eqn:Hx;
      [|discriminate].
    pose proof (executeWithRetry_pool _ _ _ _ _ Hx)
      as (_ & _ & _ & _ & _ & _ & Hesc).
    rewrite Hesc in H. simplify_eq. simpl.
    split; [done|]. apply panics_records.
  - intros w t Hw. rewrite Hwg.
    assert (t ∈ inflight s) as Hin.
    { unfold inflight. rewrite !elem_of_app. right. right.
      eapply held_lookup; [exact Hw|]. simpl. left. }
    destruct (inflight s); [by apply elem_of_nil in Hin|]. simpl. lia.
  - unfold once_Do_close, closechan. rewrite Hon.
    by destruct (once (pool s)).
  - intros s' evs' H. unfold step, waitclose_step in H. rewrite Hc in H.
    destruct (waiters s) as [|n]; [discriminate|].
    unfold once_Do_close, closechan in H. simpl in H. rewrite Hon in H.
    destruct (once (pool s)) eqn:Ho; simpl in H.
    { simplify_eq. simpl. rewrite Hc. split; [|done].
      split; [done|]. by intros [? _]. }
    destruct (sendq (tasks (pool s))) as [|x l] eqn:Hsq; simplify_eq; simpl.
    + rewrite Hc. split; [|done]. split; [done|]. by intros [_ ?].
    + split; [|done]. split; [|done]. intros _. by split.
  - intros tg fn. unfold SubmitWithResult.
    destruct (Submit _ _); try done.
    by rewrite complete_at_fresh.
  - intros t.
    assert (closes evs = (if once (pool s) then 1 else 0)%nat) as Hcl.
    { destruct Hr as (n & os & H). apply steps_closes in H. simpl in H.
      lia. }
    rewrite Hcl, <- Hon. split.
    + intros [p H]. unfold Submit in H.
      destruct (closed (tasks (pool s))) eqn:Hd; [done|]. exfalso.
      assert (chansend (tasks (wg_Add (pool s) 1)) t <> SendPanic) as Hne.
      { intros Hs. apply chansend_panic in Hs. simpl in Hs. congruence. }
      repeat case_match; simplify_eq.
    + intros H. destruct (closed (tasks (pool s))) eqn:Hd; [|done].
      assert (chansend (tasks (wg_Add (pool s) 1)) t = SendPanic) as Hs
        by (apply chansend_panic; done).
      unfold Submit. rewrite Hs. repeat case_match; eauto.
Qed.

(** The Once stays run, and a Wait returns only after it has run. *)
Lemma step_once s a s' evs :
  step s a = Some (s', evs) ->
  (once (pool s) = true -> once (pool s') = true)
  /\ ((0 < waits_returned evs)%nat -> once (pool s') = true).
Proof.
  intros H. step_cases H; unfold waits_returned;
    rewrite ?count_app; simpl; rewrite ?count_records by done; simpl;
    split; auto; try lia; try congruence.
Qed.

Lemma steps_once s evs s' :
  steps s evs s' ->
  (once (pool s) = true -> once (pool s') = true)
  /\ ((0 < waits_returned evs)%nat -> once (pool s') = true).
Proof.
  induction 1 as [|evs s' a s'' evs' _ IH Hs].
  - split; [done|]. unfold waits_returned. simpl. lia.
  - apply step_once in Hs as [H1 H2]. destruct IH as [IH1 IH2].
    split; [auto|]. unfold waits_returned in *. rewrite count_app.
    intros Hn.
    destruct (decide (0 < count
      (λ e, match e with EvWaitReturn => true | _ => false end) evs)%nat);
      [auto|]. apply H2. lia.
Qed.

(** X8. Submit after Wait.  Once a call of Wait has returned, every
    call of Submit and of SubmitWithResult, under every policy, panics
    with a send on the closed channel, after it has incremented the
    counter. *)
Theorem submit_after_wait_panics s evs :
  reachable s evs -> crashed s = false -> (0 < waits_returned evs)%nat ->
  (forall t, Submit (pool s) t = SubmitPanics (wg_Add (pool s) 1))
  /\ (forall body, exists s',
        step s (ASubmit body)
        = Some (s', [EvEnter (nsub s); EvPanic send_on_closed_channel])
        /\ crashed s' = true /\ wg (pool s') = wg (pool s) + 1)
  /\ (forall fn, exists s',
        step s (ASubmitWithResult fn)
        = Some (s', [EvEnter (nsub s); EvPanic send_on_closed_channel])
        /\ crashed s' = true /\ wg (pool s') = wg (pool s) + 1).
Proof.
  intros Hr Hc Hw. pose proof (reachable_inv _ _ Hr Hc) as [_ _ _ Hon].
  destruct Hr as (n & os & H). apply steps_once in H as [_ Ho].
  specialize (Ho Hw). rewrite Ho in Hon.
  assert (forall t, Submit (pool s) t = SubmitPanics (wg_Add (pool s) 1)) as HS.
  { intros t. pose proof (Submit_cases (pool s) t) as HS. simpl in HS.
    pose proof (proj2 (chansend_panic (tasks (pool s)) t) Hon) as Hp.
    by rewrite Hp in HS. }
  split; [done|]. split.
  - intros body. eexists. unfold step. rewrite Hc, HS. simpl.
    split; [reflexivity|]. done.
  - intros fn. eexists. unfold step, SubmitWithResult. rewrite Hc, HS. simpl.
    split; [reflexivity|]. done.
Qed.

(** ** Run and the workers *)

Lemma held_length ws :
  (length (concat (held <$> ws)) <= length ws)%nat.
Proof.
  induction ws as [|w ws IH]; [simpl; lia|].
  rewrite fmap_cons. cbn [concat length]. rewrite length_app.
  destruct w; cbn [held length]; lia.
Qed.

(** Only Run adds goroutines. *)
Lemma step_workers s a s' evs :
  step s a = Some (s', evs) ->
  workerNum (pool s') = workerNum (pool s)
  /\ length (workers s')
     = (length (workers s)
        + match a with
          | ARun => Z.to_nat (workerNum (pool s))
          | _ => 0
          end)%nat.
Proof.
  intros H. step_cases H;
    rewrite ?length_app, ?length_replicate, ?length_insert, ?release_length;
    split; auto; lia.
Qed.

(** X9. The number of workers.  After any steps of a program started
    with [New(n, os...)] there are [n] goroutines for every call of Run
    (none when [n] is zero or negative), and at most that many tasks are
    in the hands of workers at any time. *)
Theorem worker_bound n os acts s evs :
  run (@init T n os) acts = Some (s, evs) ->
  length (workers s) = (runs acts * Z.to_nat n)%nat
  /\ (length (concat (held <$> workers s)) <= runs acts * Z.to_nat n)%nat.
Proof.
  intros H.
  assert (forall acts s0 s evs,
    run s0 acts = Some (s, evs) ->
    workerNum (pool s) = workerNum (pool s0)
    /\ length (workers s)
       = (length (workers s0)
          + runs acts * Z.to_nat (workerNum (pool s0)))%nat) as Hgen.
  { clear. induction acts as [|a acts IH]; intros s0 s evs H; simpl in H.
    - simplify_eq. simpl. split; [done|lia].
    - destruct (step s0 a) as [[s1 evs1]|] eqn:Hs; [|done].
      destruct (run s1 acts) as [[s2 evs2]|] eqn:Hr; [|done].
      simplify_eq. apply step_workers in Hs as [Hn Hl].
      apply IH in Hr as [Hn' Hl']. split; [congruence|].
      rewrite Hl', Hl, Hn. destruct a; simpl; lia. }
  apply Hgen in H as [_ Hl]. simpl in Hl. split; [done|].
  rewrite <- Hl. apply held_length.
Qed.

(** Without a worker the counter does not go down. *)
Lemma step_stopped s a s' evs :
  inv s -> all_stopped (workers s) -> a <> ARun ->
  step s a = Some (s', evs) ->
  wg (pool s) <= wg (pool s') /\ all_stopped (workers s')
  /\ completed evs = [].
Proof.
  intros [Hwg Hnd Hpk Hon] Hst Ha H.
  assert (recvq (tasks (pool s)) = []) as Hrq.
  { destruct (recvq (tasks (pool s))) as [|w q] eqn:E; [done|].
    assert (workers s !! w = Some WParked) as Hw by (apply Hpk; left).
    by apply Hst in Hw. }
  step_cases H; rewrite ?Hrq in *; simpl in *;
    try match goal with
        | H : workers s !! _ = Some _ |- _ => by apply Hst in H
        end;
    try (split_and!; [lia|done|done]).
Qed.

(** X10. Wait without workers.  When no worker is left (every
    goroutine started by Run has returned, or Run was never called) while
    the counter is not zero, then, as long as Run is not called again,
    whatever else the program does the counter never goes down, no task
    is finished, and Wait stays blocked. *)
Theorem wait_blocks_once_the_workers_stopped s evs0 acts s' evs :
  reachable s evs0 -> all_stopped (workers s) -> 0 < wg (pool s) ->
  runs acts = O -> run s acts = Some (s', evs) ->
  wg (pool s) <= wg (pool s') /\ completed evs = []
  /\ Wait (pool s') = None /\ step s' AWaitPass = None.
Proof.
  intros Hr Hst Hwg Hruns Hrun.
  assert (wg (pool s) <= wg (pool s') /\ completed evs = []) as [Hle Hco].
  { revert s evs0 s' evs Hr Hst Hwg Hruns Hrun.
    induction acts as [|a acts IH]; intros s evs0 s' evs Hr Hst Hwg Hruns Hrun;
      simpl in Hrun.
    - simplify_eq. split; [lia|done].
    - destruct (step s a) as [[s1 evs1]|] eqn:Hs; [|done].
      destruct (run s1 acts) as [[s2 evs2]|] eqn:Hr2; [|done].
      simplify_eq.
      assert (crashed s = false) as Hc
        by (unfold step in Hs; by destruct (crashed s)).
      assert (a <> ARun /\ runs acts = O) as [Ha Hruns'].
      { destruct a; simpl in Hruns; try done. }
      pose proof (step_stopped _ _ _ _ (reachable_inv _ _ Hr Hc) Hst Ha Hs)
        as (Hle & Hst' & Hco).
      destruct (IH s1 _ _ _ (reachable_step _ _ _ _ _ Hr Hs) Hst'
                  ltac:(lia) Hruns' Hr2) as [Hle' Hco'].
      rewrite completed_app, Hco, Hco'. split; [lia|done]. }
  split_and!; auto.
  - unfold Wait, wg_Wait. destruct (Z.eqb_spec (wg (pool s')) 0); [lia|done].
  - unfold step, wg_Wait. destruct (crashed s'); [done|].
    destruct (Z.eqb_spec (wg (pool s')) 0); [lia|done].
Qed.

(** ** The policies *)

Lemma step_wait_policy s a s' evs :
  step s a = Some (s', evs) ->
  queueFullPolicy (opts (pool s)) <> QueueFullDiscard ->
  queueFullPolicy (opts (pool s)) <> QueueFullReturnError ->
  dropped evs = O /\ rejected evs = O.
Proof.
  intros H Hd Hr.
  step_cases H; unfold dropped, rejected;
    rewrite ?count_app; simpl; rewrite ?count_records by done; simpl;
    try done.
  all: repeat match goal with
         | H : (_ =? _) = true |- _ => apply Z.eqb_eq in H
         end; congruence.
Qed.

(** X11. The policy QueueFullWait.  Under QueueFullWait, and under
    every policy value that is neither QueueFullDiscard nor
    QueueFullReturnError, no task is ever dropped or rejected, Submit
    never returns an error, and at capacity Submit parks its caller with
    the task, the counter incremented. *)
Theorem wait_policy_never_drops s evs :
  reachable s evs ->
  queueFullPolicy (opts (pool s)) <> QueueFullDiscard ->
  queueFullPolicy (opts (pool s)) <> QueueFullReturnError ->
  dropped evs = O /\ rejected evs = O
  /\ (forall t e, returned (Submit (pool s) t) <> Some (Some e))
  /\ (forall t, at_capacity (tasks (pool s)) ->
        Submit (pool s) t
        = Parked (set_tasks (wg_Add (pool s) 1)
                    (park_sender (tasks (pool s)) t))).
Proof.
  intros (n & os & H) Hd Hr.
  assert (dropped evs = O /\ rejected evs = O) as [H1 H2].
  { induction H as [|evs s' a s'' evs' H IH Hs]; [done|].
    pose proof (step_opts _ _ _ _ Hs) as Ho. rewrite Ho in *.
    destruct (IH Hd Hr) as [IH1 IH2].
    destruct (step_wait_policy _ _ _ _ Hs Hd Hr) as [H1 H2].
    unfold dropped, rejected in *. rewrite !count_app. lia. }
  assert (forall t, (queueFullPolicy (opts (pool s)) =? QueueFullDiscard)
                    = false
                    /\ (queueFullPolicy (opts (pool s))
                        =? QueueFullReturnError) = false) as Hpol.
  { intros _. split; by apply Z.eqb_neq. }
  split_and!; auto.
  - intros t e. pose proof (Submit_cases (pool s) t) as HS. simpl in HS.
    destruct (Hpol t) as [E1 E2]. rewrite E1, E2 in HS.
    destruct (chansend (tasks (pool s)) t); rewrite HS; done.
  - intros t Hcap. pose proof (Submit_cases (pool s) t) as HS. simpl in HS.
    destruct (Hpol t) as [E1 E2]. rewrite E1, E2 in HS.
    apply (chansend_would_block _ t) in Hcap. by rewrite Hcap in HS.
Qed.

Lemma step_nonblocking s a s' evs :
  step s a = Some (s', evs) ->
  queueFullPolicy (opts (pool s)) = QueueFullDiscard
  \/ queueFullPolicy (opts (pool s)) = QueueFullReturnError ->
  sendq (tasks (pool s)) = [] -> sendq (tasks (pool s')) = [].
Proof.
  intros H Hp Hs.
  step_cases H; rewrite ?Hs in *; try done.
  all: try match goal with
    | H : chanrecv _ = Recv _ ?woken _ |- _ =>
        apply chanrecv_sendq in H; rewrite Hs in H; by destruct woken
    end.
  all: repeat match goal with
         | H : (_ =? _) = false |- _ => apply Z.eqb_neq in H
         end; destruct Hp; congruence.
Qed.

(** X12. Discard and ReturnError never block.  Under QueueFullDiscard
    and under QueueFullReturnError no caller of Submit is ever parked:
    every Submit call made has returned, or panicked. *)
Theorem submit_never_blocks_unless_policy_is_wait s evs :
  reachable s evs ->
  queueFullPolicy (opts (pool s)) = QueueFullDiscard
  \/ queueFullPolicy (opts (pool s)) = QueueFullReturnError ->
  sendq (tasks (pool s)) = []
  /\ (forall t p, Submit (pool s) t <> Parked p)
  /\ (crashed s = false -> entered evs = accepted evs).
Proof.
  intros Hr Hp. pose proof Hr as (n & os & H).
  assert (sendq (tasks (pool s)) = []) as Hs.
  { induction H as [|evs s' a s'' evs' H IH Hs]; [simpl; by case_match|].
    pose proof (step_opts _ _ _ _ Hs) as Ho. rewrite Ho in *.
    eapply step_nonblocking; eauto.
    apply IH; auto. exists n, os. done. }
  split_and!; auto.
  - intros t p. pose proof (Submit_cases (pool s) t) as HS. simpl in HS.
    destruct (chansend (tasks (pool s)) t); try (rewrite HS; done).
    destruct Hp as [Hp|Hp]; rewrite Hp in HS; simpl in HS; by rewrite HS.
  - intros Hc. pose proof (reachable_sendq _ _ Hr Hc) as Hq.
    rewrite Hs in Hq. simpl in Hq. lia.
Qed.

(** ** executeWithRetry *)

(** The calls made when the loop is left. *)
Lemma retry_loop_bound fuel k t :
  k < max_int ->
  forall i n e fs ex n' fs',
    retry_loop fuel k t i n e fs = (Some ex, n', fs') ->
    0 <= i -> Z.of_nat n = i ->
    (n <= n')%nat /\ Z.of_nat n' <= Z.max i (k + 1)
    /\ (i <= k -> (n < n')%nat)
    /\ (n' = n -> ex = Exit e /\ fs' = fs).
Proof.
  intros Hk. induction fuel as [|fuel IH]; intros i n e fs ex n' fs' H Hi Hn;
    [done|].
  simpl in H. destruct (Z.leb_spec i k).
  - destruct (call t n fs) as [fs1 [[x|]|r]]; simplify_eq;
      try (split_and!; [lia..|intros; lia]).
    rewrite wrap_int_id in H by (unfold min_int, int_bits; simpl; lia).
    apply IH in H as (H1 & H2 & H3 & H4); lia.
  - simplify_eq. split_and!; auto; lia.
Qed.

Lemma retry_loop_returns t k fuel :
  k < max_int -> (Z.to_nat (k + 1) < fuel)%nat ->
  forall e fs, exists ex n' fs',
    retry_loop fuel k t 0 0 e fs = (Some ex, n', fs').
Proof.
  intros Hk Hfuel e fs. destruct (Z.le_gt_cases 0 k).
  - apply (retry_loop_terminates t k (Z.to_nat (k + 1))); lia.
  - destruct fuel as [|fuel]; [lia|]. simpl.
    destruct (Z.leb_spec 0 k); [lia|]. eauto.
Qed.

(** The loop on a caller's closure: how it is left is decided by the
    last call. *)
Lemma retry_loop_plain fuel k tg body :
  k < max_int ->
  forall i n e fs ex n' fs',
    retry_loop fuel k {| tag := tg; code := Plain body |} i n e fs
    = (Some ex, n', fs') ->
    0 <= i -> Z.of_nat n = i -> i <= k ->
    exists j, n' = S j /\ (n <= j)%nat /\ Z.of_nat j <= k /\ fs' = fs
      /\ (forall m, (n <= m < j)%nat -> exists x, body m = Return (Some x))
      /\ match body j with
         | Return None => ex = Exit None
         | Return (Some x) => ex = Exit (Some x) /\ Z.of_nat j = k
         | Panicked r => ex = Unwind r
         end.
Proof.
  intros Hk. induction fuel as [|fuel IH]; intros i n e fs ex n' fs' H Hi Hn Hik;
    [done|].
  simpl in H. destruct (Z.leb_spec i k); [|lia].
  unfold call in H. simpl in H.
  destruct (body n) as [[x|]|r] eqn:Hb; simplify_eq.
  - rewrite wrap_int_id in H by (unfold min_int, int_bits; simpl; lia).
    destruct (Z.le_gt_cases (Z.of_nat n + 1) k) as [Hle|Hgt].
    + apply IH in H as (j & -> & Hj & Hjk & -> & Hbefore & Hlast); try lia.
      exists j. split_and!; auto; try lia.
      intros m Hm. destruct (decide (m = n)) as [->|]; [eauto|].
      apply Hbefore. lia.
    + destruct fuel as [|fuel]; [done|]. simpl in H.
      destruct (Z.leb_spec (Z.of_nat n + 1) k); [lia|]. simplify_eq.
      exists n. rewrite Hb. split_and!; auto; lia.
  - exists n. rewrite Hb. split_and!; auto; lia.
  - exists n. rewrite Hb. split_and!; auto; lia.
Qed.

(** X13. What executeWithRetry does with a task.  With a retry count
    [0 <= k < MaxInt], executeWithRetry returns after some [j + 1 <= k + 1]
    calls of the task, the first [j] of which returned errors, and the
    last call alone decides what is recorded: nothing when it returned
    nil, its error when it returned one (and then all [k + 1] calls were
    made), the synthetic error when it panicked.  The errors of the
    earlier calls are dropped. *)
Theorem retry_outcome fuel p tg body fs :
  0 <= retry (opts p) < max_int ->
  (Z.to_nat (retry (opts p) + 1) < fuel)%nat ->
  exists x j,
    executeWithRetry fuel p {| tag := tg; code := Plain body |} fs = Some x
    /\ ex_calls x = S j /\ Z.of_nat j <= retry (opts p)
    /\ (forall m, (m < j)%nat -> exists e, body m = Return (Some e))
    /\ (forall e, body j = Return (Some e) -> Z.of_nat j = retry (opts p))
    /\ ex_recorded x = match body j with
                       | Return None => []
                       | Return (Some e) => [e]
                       | Panicked r => [panicError r]
                       end
    /\ Errors (errs (ex_pool x)) = Errors (errs p) ++ ex_recorded x
    /\ ex_futures x = fs /\ ex_escaped x = None.
Proof.
  intros Hk Hfuel. unfold executeWithRetry.
  destruct (retry_loop_returns {| tag := tg; code := Plain body |} _ _
              (proj2 Hk) Hfuel None fs) as (ex & n & fs' & Hl).
  rewrite Hl.
  apply retry_loop_plain in Hl
    as (j & -> & _ & Hj & -> & Hbefore & Hlast); try lia.
  destruct (recovery p ex) as [[p' r] esc] eqn:Hrec.
  pose proof (recovery_pool _ _ _ _ _ Hrec) as (_ & _ & _ & _ & _ & He & ->).
  eexists _, j. split; [reflexivity|]. simpl.
  split_and!; auto.
  - intros m Hm. apply Hbefore. lia.
  - intros e He'. rewrite He' in Hlast. tauto.
  - destruct (body j) as [[x|]|r']; [destruct Hlast as [-> _]|subst ex..];
      simpl in Hrec; by simplify_eq.
Qed.

(** X14. The attempts are bounded.  With a retry count below MaxInt
    executeWithRetry returns, whatever the task does, after at most
    [retry + 1] calls, at least one when [retry >= 0], and it adds at
    most one error to the collector.  With a negative retry count the
    task is not called at all and nothing changes. *)
Theorem attempts_are_bounded fuel p t fs :
  retry (opts p) < max_int ->
  (Z.to_nat (retry (opts p) + 1) < fuel)%nat ->
  exists x,
    executeWithRetry fuel p t fs = Some x
    /\ (ex_calls x <= Z.to_nat (retry (opts p) + 1))%nat
    /\ (0 <= retry (opts p) -> (1 <= ex_calls x)%nat)
    /\ (length (ex_recorded x) <= 1)%nat
    /\ Errors (errs (ex_pool x)) = Errors (errs p) ++ ex_recorded x
    /\ (retry (opts p) < 0 ->
        ex_calls x = O /\ ex_recorded x = [] /\ ex_futures x = fs
        /\ ex_pool x = p).
Proof.
  intros Hk Hfuel. unfold executeWithRetry.
  destruct (retry_loop_returns t _ _ Hk Hfuel None fs) as (ex & n & fs' & Hl).
  rewrite Hl.
  apply retry_loop_bound in Hl as (_ & Hub & Hlb & Hz); try done.
  destruct (recovery p ex) as [[p' r] esc] eqn:Hrec.
  eexists. split; [reflexivity|]. simpl.
  pose proof (recovery_pool _ _ _ _ _ Hrec) as (_ & _ & _ & _ & _ & He & _).
  split_and!; try lia.
  - unfold recovery in Hrec. repeat case_match; simplify_eq; simpl; lia.
  - done.
  - intros Hneg. assert (n = O) as -> by lia.
    destruct Hz as [-> ->]; [done|]. simpl in Hrec. by simplify_eq.
Qed.

(** ** Every task is executed at most once *)

(** The closures the workers have received and not yet run. *)
Lemma awaiting_insert ws w x y :
  ws !! w = Some y ->
  awaiting y ++ concat (awaiting <$> <[w := x]> ws)
  ≡ₚ awaiting x ++ concat (awaiting <$> ws).
Proof.
  intros H.
  rewrite <- (take_drop_middle ws w y H) at 2.
  rewrite insert_take_drop by (eapply lookup_lt_Some; eauto).
  rewrite !fmap_app, !concat_app. simpl.
  rewrite !(Permutation_app_comm (concat (awaiting <$> take w ws))).
  rewrite <- !app_assoc.
  rewrite !app_assoc. rewrite (Permutation_app_comm (awaiting y) (awaiting x)).
  done.
Qed.

Lemma awaiting_release ws q :
  (forall w, w ∈ q -> ws !! w = Some WParked) ->
  awaiting <$> release ws q = awaiting <$> ws.
Proof.
  induction q as [|w q IH]; intros H; [done|]. simpl.
  rewrite list_fmap_insert. rewrite IH by (intros; apply H; by right).
  apply list_insert_id. rewrite list_lookup_fmap, H by left. done.
Qed.

Lemma awaiting_replicate n :
  concat (awaiting <$> replicate n (@WSelect T)) = [].
Proof. induction n; simpl; auto. Qed.

Lemma awaiting_held ws (x : @Task T) :
  x ∈ concat (awaiting <$> ws) -> x ∈ concat (held <$> ws).
Proof.
  induction ws as [|w ws IH]; [done|].
  rewrite !fmap_cons. cbn [concat]. rewrite !elem_of_app.
  intros [H|H]; [left|right; auto].
  destruct w; simpl in *; auto; by apply elem_of_nil in H.
Qed.

Lemma pending_inflight s (x : @Task T) : x ∈ pending s -> x ∈ inflight s.
Proof.
  unfold pending, inflight. rewrite !elem_of_app.
  intros [?|[?|?%awaiting_held]]; auto.
Qed.

Lemma awaiting_lookup ws w t :
  ws !! w = Some (WExec t) -> t ∈ concat (awaiting <$> ws).
Proof.
  revert w. induction ws as [|a ws IH]; intros [|w]; simpl; try done.
  - intros [= ->]. left.
  - intros H. apply elem_of_app. right. eauto.
Qed.

(** What each kind of step does to the closures still to be run. *)
Lemma submitted_pending s t fs s' evs :
  inv s -> submitted s t fs (Submit (pool s) t) = (s', evs) ->
  (pending s' ≡ₚ t :: pending s /\ recorded evs = []
   /\ forall p e, Submit (pool s) t <> Rejected p e)
  \/ (pending s' = pending s /\ (length (recorded evs) <= 1)%nat
      /\ forall tg, tg <> tag t -> errors_of tg evs = O).
Proof.
  intros [Hwg Hnd Hpk Hon] Hs.
  pose proof (Submit_cases (pool s) t) as HS. simpl in HS.
  destruct (chansend (tasks (pool s)) t) as [w c|c| |] eqn:Hsend.
  - rewrite HS in Hs. simpl in Hs. simplify_eq. left.
    apply chansend_direct in Hsend as (Hcl & Hq & Hb & Hsq & Hcl' & _).
    assert (workers s !! w = Some WParked) as Hpw
      by (apply Hpk; rewrite Hq; left).
    pose proof (awaiting_insert (workers s) w (WExec t) WParked Hpw) as HP.
    simpl in HP. unfold pending. simpl. rewrite Hb, Hsq, HP.
    split; [|split; [done|by rewrite HS]].
    by rewrite <- !Permutation_middle.
  - rewrite HS in Hs. simpl in Hs. simplify_eq. left.
    apply chansend_buffered in Hsend as (_ & _ & _ & Hb & Hsq & _).
    unfold pending. simpl. rewrite Hb, Hsq.
    split; [|split; [done|by rewrite HS]].
    rewrite <- !app_assoc. simpl. by rewrite <- !Permutation_middle.
  - repeat case_match; rewrite HS in Hs; simpl in Hs; simplify_eq;
      unfold pending, errors_of; simpl.
    + right. split_and!; auto.
    + right. split_and!; auto. intros tg Hne.
      by destruct (Nat.eqb_spec tg (tag t)).
    + left. rewrite HS. split; [|done].
      rewrite <- !app_assoc. simpl. by rewrite <- !Permutation_middle.
  - rewrite HS in Hs. simpl in Hs. simplify_eq. right.
    unfold pending, errors_of. simpl. split_and!; auto.
Qed.

Lemma executeWithRetry_recorded fuel p t fs x :
  executeWithRetry fuel p t fs = Some x -> (length (ex_recorded x) <= 1)%nat.
Proof.
  unfold executeWithRetry, recovery. intros H.
  repeat case_match; simplify_eq; simpl; lia.
Qed.

Lemma execute_pending s w fuel s' evs :
  execute_step s w fuel = Some (s', evs) ->
  exists t x,
    workers s !! w = Some (WExec t)
    /\ executeWithRetry fuel (pool s) t (futures s) = Some x
    /\ evs = EvExecuted (tag t) (ex_calls x)
             :: map (EvRecord (tag t)) (ex_recorded x)
    /\ pending s ≡ₚ t :: pending s'
    /\ futures s' = ex_futures x /\ nsub s' = nsub s
    /\ opts (pool s') = opts (pool s).
Proof.
  intros Hs. unfold execute_step in Hs.
  destruct (workers s !! w) as [[]|] eqn:Hw; try discriminate.
  destruct (executeWithRetry fuel (pool s) t (futures s)) as [x|] eqn:Hx;
    [|discriminate].
  pose proof (executeWithRetry_pool _ _ _ _ _ Hx)
    as (Ht & Hg & Ho & Hop & _ & _ & Hesc).
  rewrite Hesc in Hs. simplify_eq. exists t, x.
  split_and!; auto.
  pose proof (awaiting_insert (workers s) w (WDone t) (WExec t) Hw) as HP.
  simpl in HP. unfold pending. simpl. rewrite Ht, <- HP.
  by rewrite <- !Permutation_middle.
Qed.

Lemma step_quiet s a s' evs :
  inv s -> step s a = Some (s', evs) -> quiet a = true ->
  pending s' ≡ₚ pending s /\ nsub s' = nsub s /\ futures s' = futures s
  /\ recorded evs = []
  /\ forall tg, executions tg evs = O /\ errors_of tg evs = O.
Proof.
  intros Hi Hs Hq. pose proof Hi as [Hwg Hnd Hpk Hon].
  unfold step in Hs. destruct (crashed s) eqn:Hc; [discriminate|].
  destruct a; try done; clear Hq.
  - simplify_eq. unfold pending. simpl.
    rewrite fmap_app, concat_app, awaiting_replicate, app_nil_r. done.
  - simplify_eq. unfold pending. simpl.
    rewrite awaiting_release by (intros; by apply Hpk). done.
  - unfold select_step in Hs.
    destruct (workers s !! w) as [[]|] eqn:Hw; try discriminate.
    assert (forall x, awaiting x = [] ->
            concat (awaiting <$> <[w := x]> (workers s))
            ≡ₚ concat (awaiting <$> workers s)) as Hstop.
    { intros x Hx.
      pose proof (awaiting_insert (workers s) w x WSelect Hw) as HP.
      rewrite Hx in HP. done. }
    destruct (chanrecv (tasks (pool s))) as [t woken c| |] eqn:Hr.
    + destruct (ctx_done s && pick_ctx); simplify_eq.
      * unfold pending. simpl. rewrite Hstop by done. done.
      * apply chanrecv_recv in Hr as (HP & _).
        pose proof (awaiting_insert (workers s) w (WExec t) WSelect Hw) as HP'.
        simpl in HP'. unfold pending. simpl. rewrite HP', !app_assoc.
        rewrite <- Permutation_middle, <- HP.
        split; [|by destruct woken].
        by rewrite (Permutation_app_comm (sendq c)).
    + simplify_eq. unfold pending. simpl. rewrite Hstop by done. done.
    + destruct (ctx_done s); simplify_eq; unfold pending; simpl;
        rewrite Hstop by done; done.
  - unfold wgdone_step in Hs.
    destruct (workers s !! w) as [[]|] eqn:Hw; try discriminate.
    pose proof (awaiting_insert (workers s) w WSelect (WDone t) Hw) as HP.
    simpl in HP.
    destruct (wg (pool s) - 1 <? 0); simplify_eq; [done|].
    unfold pending. simpl. rewrite HP. done.
  - case_match; simplify_eq. done.
  - unfold waitclose_step in Hs.
    destruct (waiters s) as [|n]; [discriminate|].
    unfold once_Do_close in Hs. simpl in Hs.
    destruct (once (pool s)) eqn:Ho; simplify_eq; [done|].
    destruct (closechan (tasks (pool s))) as [c|] eqn:Hcc; simpl in Hs;
      [|by simplify_eq].
    apply closechan_some in Hcc as (_ & _ & _ & Hb & Hsq & _).
    destruct (sendq c) eqn:Hsc; simplify_eq; unfold pending; simpl;
      rewrite awaiting_release by (intros; by apply Hpk);
      rewrite <- Hsq, Hb, ?Hsc; done.
Qed.

Lemma count_panics (f : event -> bool) evs :
  (forall r, f (EvPanic r) = false) ->
  (forall e, e ∈ evs -> exists r, e = EvPanic r) ->
  count f evs = O.
Proof.
  intros Hf. induction evs as [|e evs IH]; intros H; [done|]. simpl.
  destruct (H e) as [r ->]; [left|]. rewrite Hf, IH; [done|].
  intros e' He'. apply H. by right.
Qed.

Lemma recorded_panics evs :
  (forall e, e ∈ evs -> exists r, e = EvPanic r) -> recorded evs = [].
Proof.
  induction evs as [|e evs IH]; intros H; [done|].
  destruct (H e) as [r ->]; [left|]. simpl. apply IH.
  intros e' He'. apply H. by right.
Qed.

Lemma step_submit s a s' evs :
  inv s -> step s a = Some (s', evs) ->
  (exists body, a = ASubmit body) \/ (exists fn, a = ASubmitWithResult fn) ->
  nsub s' = S (nsub s)
  /\ (forall tg, executions tg evs = O)
  /\ ((exists t, tag t = nsub s /\ pending s' ≡ₚ t :: pending s
                 /\ recorded evs = []
                 /\ (forall tg, errors_of tg evs = O)
                 /\ match a with
                    | ASubmitWithResult fn =>
                        code t = Wrapper (length (futures s)) fn
                        /\ futures s' = futures s ++ [newFuture]
                    | _ => (forall g fn, code t <> Wrapper g fn)
                           /\ futures s' = futures s
                    end)
      \/ (pending s' = pending s /\ (length (recorded evs) <= 1)%nat
          /\ (forall tg, tg <> nsub s -> errors_of tg evs = O)
          /\ (forall tg, (errors_of tg evs <= 1)%nat)
          /\ exists fs, futures s' = futures s ++ fs
               /\ forall f, f ∈ fs ->
                    (completions f <= 1)%nat
                    /\ (done f = true <-> (0 < completions f)%nat))).
Proof.
  intros Hi Hs Ha.
  assert (forall s1 evs1 t fs,
    submitted s t fs (Submit (pool s) t) = (s1, evs1) ->
    nsub s1 = S (nsub s) /\ futures s1 = fs
    /\ (forall tg, executions tg evs1 = O)
    /\ (forall tg, (errors_of tg evs1 <= 1)%nat)) as Hsub.
  { intros s1 evs1 t fs H.
    pose proof (submitted_ghost _ _ _ _ _ _ H) as [? ?].
    split_and!; auto; intros tg; unfold submitted in H;
      repeat (case_match; simplify_eq); unfold executions, errors_of; simpl;
      try done; repeat case_match; lia. }
  destruct Ha as [[body ->]|[fn ->]].
  - unfold step in Hs. destruct (crashed s) eqn:Hc; [discriminate|].
    destruct (submitted s _ _ _) as [s1 e1] eqn:Hsb. simplify_eq.
    destruct (Hsub _ _ _ _ Hsb) as (Hn & Hf & Hex & Her).
    split; [done|]. split; [done|].
    destruct (submitted_pending _ _ _ _ _ Hi Hsb)
      as [(HP & Hrec & Hnr)|(HP & Hrec & Herr)].
    + left. eexists. split; [|split; [exact HP|]]; [done|].
      split; [done|]. split; [|done].
      intros tg. unfold submitted in Hsb.
      repeat (case_match; simplify_eq); unfold errors_of; simpl; try done;
        by edestruct Hnr.
    + right. split_and!; auto. exists []. rewrite app_nil_r.
      split; [done|]. by intros f ?%elem_of_nil.
  - apply submit_with_result_step in Hs
      as (fs & s1 & evs1 & Hsb & Hs' & Hfs & evs2 & -> & Hev2).
    set (t := {| tag := nsub s; code := Wrapper (length (futures s)) fn |})
      in *.
    destruct (Hsub _ _ _ _ Hsb) as (Hn & Hf & Hex & Her).
    assert (nsub s' = nsub s1 /\ futures s' = futures s1
            /\ pending s' = pending s1) as (-> & -> & ->)
      by (destruct Hs' as [->| ->]; done).
    assert (forall tg, executions tg (evs1 ++ evs2) = executions tg evs1
                       /\ errors_of tg (evs1 ++ evs2) = errors_of tg evs1)
      as Hcnt.
    { intros tg. unfold executions, errors_of. rewrite !count_app.
      rewrite !(count_panics _ evs2) by done. lia. }
    rewrite recorded_app, (recorded_panics evs2), app_nil_r by done.
    split; [done|]. split; [intros tg; by rewrite (proj1 (Hcnt tg))|].
    destruct (submitted_pending _ _ _ _ _ Hi Hsb)
      as [(HP & Hrec & Hnr)|(HP & Hrec & Herr)].
    + left. exists t. split; [done|]. split; [done|]. split; [done|].
      split.
      * intros tg. rewrite (proj2 (Hcnt tg)). unfold submitted in Hsb.
        repeat (case_match; simplify_eq); unfold errors_of; simpl; try done;
          by edestruct Hnr.
      * split; [done|]. rewrite Hf.
        destruct Hfs as [->|(p & e & HR & _)]; [done|]. by edestruct Hnr.
    + right. split_and!; auto.
      * intros tg Hne. rewrite (proj2 (Hcnt tg)). by apply Herr.
      * intros tg. by rewrite (proj2 (Hcnt tg)).
      * rewrite Hf. destruct Hfs as [->|(p & e & HR & ->)].
        -- exists [newFuture]. split; [done|].
           intros f ->%list_elem_of_singleton. simpl. split; [lia|].
           split; [done|lia].
        -- rewrite complete_at_fresh. simpl. eexists [_]. split; [done|].
           intros f ->%list_elem_of_singleton. simpl. split; [lia|].
           split; [lia|done].
Qed.

Lemma errors_of_records tg tg' l :
  errors_of tg (map (EvRecord tg') l)
  = if Nat.eqb tg tg' then length l else O.
Proof.
  unfold errors_of. induction l as [|e l IH]; simpl; [by case_match|].
  rewrite IH. by destruct (Nat.eqb tg tg').
Qed.

Lemma executions_records tg tg' l :
  executions tg (map (EvRecord tg') l) = O.
Proof. unfold executions. by apply count_records. Qed.

Lemma length_recorded_map tg l : length (recorded (map (EvRecord tg) l)) = length l.
Proof. by rewrite recorded_map. Qed.

Lemma pending_tags s evs x :
  reachable s evs -> x ∈ pending s -> (tag x < nsub s)%nat.
Proof.
  intros Hr Hx. apply pending_inflight in Hx.
  by apply (reachable_tags_ok _ _ Hr) in Hx as [? _].
Qed.

(** Every step keeps [exec_inv]. *)
Lemma step_exec_inv s evs a s' evs' :
  reachable s evs -> exec_inv s evs -> step s a = Some (s', evs') ->
  exec_inv s' (evs ++ evs').
Proof.
  intros Hr [Hnd Honce Hfresh Hlen] Hs.
  assert (crashed s = false) as Hc
    by (unfold step in Hs; by destruct (crashed s)).
  pose proof (reachable_inv _ _ Hr Hc) as Hi.
  assert (forall tg, tg ∈ tag <$> pending s -> (tg < nsub s)%nat) as Hlt.
  { intros tg (x & -> & Hx)%list_elem_of_fmap. eapply pending_tags; eauto. }
  assert (forall tg,
    executions tg (evs ++ evs') = (executions tg evs + executions tg evs')%nat
    /\ errors_of tg (evs ++ evs') = (errors_of tg evs + errors_of tg evs')%nat)
    as Happ.
  { intros tg. unfold executions, errors_of. by rewrite !count_app. }
  destruct (quiet a) eqn:Hq.
  { destruct (step_quiet _ _ _ _ Hi Hs Hq) as (HP & Hn & _ & Hrec & Hz).
    constructor.
    - by rewrite HP.
    - intros tg. destruct (Happ tg) as [-> ->]. destruct (Hz tg) as [-> ->].
      rewrite !Nat.add_0_r. apply Honce.
    - intros tg. rewrite HP, Hn. destruct (Happ tg) as [-> ->].
      destruct (Hz tg) as [-> ->]. rewrite !Nat.add_0_r. apply Hfresh.
    - rewrite recorded_app, Hrec, app_nil_r, HP, Hn. done. }
  destruct a; try discriminate Hq; clear Hq.
  1, 2: eapply step_submit in Hs as (Hn & Hex & Hcase); eauto.
  1, 2: destruct Hcase as [(t & Htag & HP & Hrec & Herr & _)
                          |(HP & Hrec & Herr & Hle & _)].
  1, 3: constructor;
    [ rewrite HP, fmap_cons, Htag; apply NoDup_cons; split; [|done];
      intros Hin; apply Hlt in Hin; lia
    | intros tg; destruct (Happ tg) as [-> ->];
      rewrite Hex, Herr, !Nat.add_0_r; apply Honce
    | intros tg; rewrite HP, Hn, fmap_cons, Htag, elem_of_cons;
      destruct (Happ tg) as [-> ->]; rewrite Hex, Herr, !Nat.add_0_r;
      intros [?|[->|?]]; apply Hfresh; auto; left; lia
    | rewrite recorded_app, Hrec, app_nil_r, HP, Hn; simpl; lia ].
  1, 2: constructor;
    [ by rewrite HP
    | intros tg; destruct (Happ tg) as [-> ->]; rewrite Hex, Nat.add_0_r;
      split; [apply Honce|];
      destruct (decide (tg = nsub s)) as [->|Hne];
      [ destruct (Hfresh (nsub s)) as [_ ->]; [left; lia|]; apply Hle
      | rewrite Herr by done; rewrite Nat.add_0_r; apply Honce ]
    | intros tg; rewrite HP, Hn; destruct (Happ tg) as [-> ->];
      rewrite Hex, Nat.add_0_r;
      intros Htg; rewrite Herr; [rewrite Nat.add_0_r|];
      [ apply Hfresh; destruct Htg; [left; lia|by right]
      | destruct Htg as [?|Hin]; [lia|apply Hlt in Hin; lia] ]
    | rewrite recorded_app, length_app, HP, Hn; lia ].
  unfold step in Hs. rewrite Hc in Hs.
  apply execute_pending in Hs as (t & x & Hw & Hx & -> & HP & _ & Hn & _).
  pose proof (executeWithRetry_recorded _ _ _ _ _ Hx) as Hrl.
  rewrite HP, fmap_cons in Hnd. apply NoDup_cons in Hnd as [Hnt Hnd].
  assert (tag t ∈ tag <$> pending s) as Hin.
  { rewrite HP, fmap_cons. left. }
  destruct (Hfresh (tag t)) as [He0 Hr0]; [by right|].
  assert (forall tg,
    executions tg (EvExecuted (tag t) (ex_calls x)
                   :: map (EvRecord (tag t)) (ex_recorded x))
    = (if Nat.eqb tg (tag t) then 1 else 0)%nat
    /\ errors_of tg (EvExecuted (tag t) (ex_calls x)
                     :: map (EvRecord (tag t)) (ex_recorded x))
       = (if Nat.eqb tg (tag t) then length (ex_recorded x) else 0)%nat)
    as Hcnt.
  { intros tg. split.
    - change (executions tg (?e :: ?l))
        with ((if Nat.eqb tg (tag t) then 1 else 0)
              + executions tg l)%nat.
      rewrite executions_records. lia.
    - change (errors_of tg (?e :: ?l)) with (0 + errors_of tg l)%nat.
      by rewrite errors_of_records. }
  constructor.
  - done.
  - intros tg. destruct (Happ tg) as [-> ->]. destruct (Hcnt tg) as [-> ->].
    destruct (Nat.eqb_spec tg (tag t)) as [->|Hne].
    + rewrite He0, Hr0. simpl. lia.
    + rewrite !Nat.add_0_r. apply Honce.
  - intros tg Htg. destruct (Happ tg) as [-> ->]. destruct (Hcnt tg) as [-> ->].
    rewrite Hn in Htg.
    destruct (Nat.eqb_spec tg (tag t)) as [->|Hne].
    + destruct Htg as [Hge|Hin']; [|done].
      apply Hlt in Hin. lia.
    + rewrite !Nat.add_0_r. apply Hfresh. destruct Htg as [?|Hin']; [by left|].
      right. rewrite HP, fmap_cons. by right.
  - rewrite recorded_app, length_app. simpl recorded.
    rewrite length_recorded_map, Hn.
    apply Permutation_length in HP. simpl in HP. lia.
Qed.

Lemma exec_inv_init n os : exec_inv (@init T n os) [].
Proof.
  constructor; unfold pending; simpl.
  - case_match; simpl; constructor.
  - intros tg. unfold executions, errors_of. simpl. lia.
  - done.
  - case_match; simpl; lia.
Qed.

Lemma reachable_exec_inv s evs : reachable s evs -> exec_inv s evs.
Proof.
  intros (n & os & H).
  induction H as [|evs s' a s'' evs' H IH Hs]; [apply exec_inv_init|].
  eapply step_exec_inv; eauto. by exists n, os.
Qed.

(** X15. At most once.  executeWithRetry runs at most once for every
    call of Submit; it has not run for a task that is still in the queue
    or just received, and no two of those tasks come from the same
    call. *)
Theorem executed_at_most_once s evs :
  reachable s evs ->
  NoDup (tag <$> pending s)
  /\ (forall tg, (executions tg evs <= 1)%nat)
  /\ (forall x, x ∈ pending s -> executions (tag x) evs = O)
  /\ (forall tg, (nsub s <= tg)%nat -> executions tg evs = O).
Proof.
  intros Hr. destruct (reachable_exec_inv _ _ Hr) as [Hnd Honce Hfresh _].
  split_and!; auto.
  - intros tg. apply Honce.
  - intros x Hx. apply Hfresh. right. apply list_elem_of_fmap. eauto.
  - intros tg Htg. apply Hfresh. by left.
Qed.

(** X16. One error for each submission.  [Errors] returns the errors
    recorded so far, in order; at most one error is recorded for a call
    of Submit, and the errors in the collector and the tasks still to be
    run together never outnumber the Submit calls made. *)
Theorem one_error_per_submission s evs :
  reachable s evs ->
  Errors (errs (pool s)) = recorded evs
  /\ (forall tg, (errors_of tg evs <= 1)%nat)
  /\ (forall tg, (nsub s <= tg)%nat -> errors_of tg evs = O)
  /\ (length (Errors (errs (pool s))) + length (pending s) <= nsub s)%nat.
Proof.
  intros Hr. destruct (reachable_exec_inv _ _ Hr) as [_ Honce Hfresh Hlen].
  assert (Errors (errs (pool s)) = recorded evs) as He.
  { destruct Hr as (n & os & H). apply steps_errs in H. by rewrite H. }
  rewrite He. split_and!; auto.
  - intros tg. apply Honce.
  - intros tg Htg. apply Hfresh. by left.
Qed.

(** ** Futures *)

(** A wrapper called on a completed Future panics in [complete], which
    ends the loop. *)
Lemma retry_loop_completed fuel k tg g fn :
  forall i n e fs ex n' fs' f,
    retry_loop fuel k {| tag := tg; code := Wrapper g fn |} i n e fs
    = (Some ex, n', fs') ->
    fs !! g = Some f -> done f = true ->
    exists f', fs' !! g = Some f' /\ done f' = true
               /\ (completions f <= completions f' <= S (completions f))%nat.
Proof.
  destruct fuel as [|fuel]; intros i n e fs ex n' fs' f H Hf Hd; [done|].
  simpl in H. destruct (i <=? k);
    [|simplify_eq; exists f; split_and!; auto; lia].
  unfold call in H. simpl in H.
  destruct (fn n) as [res e'|r];
    destruct (complete_at _ _ _ _) as [fs1 pn] eqn:Hca;
    apply complete_at_spec in Hca as (_ & _ & Hs);
    destruct (Hs f Hf) as [Hf1 ->]; rewrite Hd in H; simplify_eq;
    eexists; (split; [exact Hf1|]); simpl; split; auto; lia.
Qed.

(** A wrapper run on a pending Future completes it once, or twice when
    its first call returned an error and the loop went on. *)
Lemma retry_loop_fresh fuel k tg g fn :
  forall i n e fs ex n' fs' f,
    retry_loop fuel k {| tag := tg; code := Wrapper g fn |} i n e fs
    = (Some ex, n', fs') ->
    fs !! g = Some f -> done f = false -> 0 <= i < max_int ->
    exists f', fs' !! g = Some f'
      /\ (completions f <= completions f' <= completions f + 2)%nat
      /\ (k <= i -> (completions f' <= completions f + 1)%nat)
      /\ (done f' = true <-> (completions f < completions f')%nat).
Proof.
  destruct fuel as [|fuel]; intros i n e fs ex n' fs' f H Hf Hd Hi; [done|].
  simpl in H. destruct (Z.leb_spec i k).
  2: { simplify_eq. exists f. rewrite Hd.
       split_and!; auto; try lia; try done. }
  unfold call in H. simpl in H.
  destruct (fn n) as [res e'|r];
    destruct (complete_at _ _ _ _) as [fs1 pn] eqn:Hca;
    apply complete_at_spec in Hca as (_ & _ & Hs);
    destruct (Hs f Hf) as [Hf1 ->]; rewrite Hd in H.
  2: { simplify_eq. eexists. split; [exact Hf1|]. simpl.
       split_and!; auto; try lia; try done. }
  destruct e' as [x|].
  2: { simplify_eq. eexists. split; [exact Hf1|]. simpl.
       split_and!; auto; try lia; try done. }
  rewrite wrap_int_id in H by (unfold min_int, int_bits; simpl; lia).
  pose proof H as H'.
  eapply retry_loop_completed in H as (f' & Hf' & Hd' & Hc'); eauto.
  simpl in Hc'. exists f'. split; [done|]. split_and!; try lia.
  - intros Hki. destruct fuel as [|fuel]; [done|]. simpl in H'.
    destruct (Z.leb_spec (i + 1) k); [lia|]. simplify_eq. simpl. lia.
  - split; [lia|done].
Qed.

Lemma executeWithRetry_wrapper fuel p tg g fn fs x f :
  executeWithRetry fuel p {| tag := tg; code := Wrapper g fn |} fs = Some x ->
  fs !! g = Some f -> done f = false -> completions f = O ->
  exists f', ex_futures x !! g = Some f'
    /\ (completions f' <= 2)%nat
    /\ (retry (opts p) <= 0 -> (completions f' <= 1)%nat)
    /\ (done f' = true <-> (0 < completions f')%nat).
Proof.
  unfold executeWithRetry. intros H Hf Hd Hc.
  destruct (retry_loop _ _ _ _ _ _ _) as [[[ex|] n] fs'] eqn:Hl; [|done].
  destruct (recovery p ex) as [[p' r] esc]. simplify_eq. simpl.
  eapply retry_loop_fresh in Hl as (f' & Hf' & H1 & H2 & H3); eauto;
    [|split; [lia|reflexivity]].
  exists f'. rewrite Hc in *. split_and!; auto; lia.
Qed.

(** Every step keeps [future_inv]. *)
Lemma step_future_inv s evs a s' evs' :
  reachable s evs -> future_inv s -> step s a = Some (s', evs') ->
  future_inv s'.
Proof.
  intros Hr [Hpe Hfid Hcnt] Hs.
  assert (crashed s = false) as Hc
    by (unfold step in Hs; by destruct (crashed s)).
  pose proof (reachable_inv _ _ Hr Hc) as Hi.
  pose proof (reachable_exec_inv _ _ Hr) as [Hnd _ _ _].
  pose proof (step_opts _ _ _ _ Hs) as Hop.
  destruct (quiet a) eqn:Hq.
  { destruct (step_quiet _ _ _ _ Hi Hs Hq) as (HP & _ & Hf & _).
    constructor; rewrite ?Hf, ?Hop; auto.
    - intros x g fn. rewrite HP. apply Hpe.
    - intros x y g fn fn'. rewrite HP. apply Hfid. }
  destruct a; try discriminate Hq; clear Hq.
  - eapply step_submit in Hs as (_ & _ & Hcase); eauto.
    destruct Hcase as [(t & Htag & HP & _ & _ & Hnw & Hf)
                      |(HP & _ & _ & _ & fs & Hf & Hfs)].
    + constructor; rewrite ?Hf, ?Hop; auto.
      * intros x g fn. rewrite HP.
        intros [->|Hx]%elem_of_cons Hcode; [by edestruct Hnw|eauto].
      * intros x y g fn fn'. rewrite HP.
        intros [->|Hx]%elem_of_cons [->|Hy]%elem_of_cons Hcx Hcy;
          try done; try (by edestruct Hnw). eauto.
    + constructor; rewrite ?Hf, ?HP, ?Hop; auto.
      * intros x g fn Hx Hcode.
        destruct (Hpe x g fn Hx Hcode) as (f & Hg & ?).
        exists f. split; [|done]. by apply lookup_app_l_Some.
      * intros g f [?|[_ Hin]]%lookup_app_Some; [eauto|].
        apply list_elem_of_lookup_2 in Hin. apply Hfs in Hin as [? ?].
        split_and!; auto; lia.
  - eapply step_submit in Hs as (_ & _ & Hcase); eauto.
    destruct Hcase as [(t & Htag & HP & _ & _ & Hcode & Hf)
                      |(HP & _ & _ & _ & fs & Hf & Hfs)].
    + assert (forall y g' fn', y ∈ pending s -> code y = Wrapper g' fn' ->
                (g' < length (futures s))%nat) as Hold.
      { intros y g' fn' Hy Hcy.
        destruct (Hpe y g' fn' Hy Hcy) as (f & Hg & _).
        eapply lookup_lt_Some; eauto. }
      constructor; rewrite ?Hf, ?Hop; auto.
      * intros x g fn'. rewrite HP.
        intros [->|Hx]%elem_of_cons Hcx.
        -- rewrite Hcode in Hcx. simplify_eq. exists newFuture.
           split; [|done]. rewrite lookup_app_r, Nat.sub_diag by lia. done.
        -- destruct (Hpe x g fn' Hx Hcx) as (f & Hg & ?).
           exists f. split; [|done]. by apply lookup_app_l_Some.
      * intros x y g fn1 fn2. rewrite HP.
        intros [->|Hx]%elem_of_cons [->|Hy]%elem_of_cons Hcx Hcy; try done.
        -- rewrite Hcode in Hcx. simplify_eq.
           apply Hold in Hcy; [lia|done].
        -- rewrite Hcode in Hcy. simplify_eq.
           apply Hold in Hcx; [lia|done].
        -- eauto.
      * intros g f [?|[_ Hin]]%lookup_app_Some; [eauto|].
        apply list_elem_of_lookup_2 in Hin.
        apply list_elem_of_singleton in Hin as ->. simpl.
        split_and!; auto; try lia; try done.
    + constructor; rewrite ?Hf, ?HP, ?Hop; auto.
      * intros x g fn' Hx Hcx.
        destruct (Hpe x g fn' Hx Hcx) as (f & Hg & ?).
        exists f. split; [|done]. by apply lookup_app_l_Some.
      * intros g f [?|[_ Hin]]%lookup_app_Some; [eauto|].
        apply list_elem_of_lookup_2 in Hin. apply Hfs in Hin as [? ?].
        split_and!; auto; lia.
  - unfold step in Hs. rewrite Hc in Hs.
    apply execute_pending in Hs as (t & x & Hw & Hx & -> & HP & Hf & _ & _).
    pose proof (executeWithRetry_futures _ _ _ _ _ Hx) as (_ & Hsame & _).
    rewrite HP, fmap_cons in Hnd. apply NoDup_cons in Hnd as [Hnt _].
    assert (forall y, y ∈ pending s' -> y ∈ pending s /\ tag y <> tag t)
      as Hrest.
    { intros y Hy. split; [rewrite HP; by right|].
      intros Heq. apply Hnt. rewrite <- Heq. apply list_elem_of_fmap. eauto. }
    assert (t ∈ pending s) as Ht by (rewrite HP; left).
    assert (forall y g fn, y ∈ pending s' -> code y = Wrapper g fn ->
                           futures s' !! g = futures s !! g) as Hkeep.
    { intros y g fn Hy Hcy. rewrite Hf. apply Hsame.
      intros fn' Hct. destruct (Hrest y Hy) as [Hy' Hne].
      apply Hne. eapply Hfid; eauto. }
    constructor; rewrite ?Hop.
    + intros y g fn Hy Hcy. rewrite (Hkeep y g fn Hy Hcy).
      destruct (Hrest y Hy). eauto.
    + intros y z g fn fn' Hy Hz. destruct (Hrest y Hy), (Hrest z Hz). eauto.
    + intros g f Hg. rewrite Hf in Hg.
      destruct (code t) as [body|g0 fn0] eqn:Hct.
      { rewrite Hsame in Hg by done. eauto. }
      destruct (decide (g = g0)) as [->|Hne].
      * destruct (Hpe t g0 fn0 Ht Hct) as (f0 & Hg0 & Hd0 & Hc0).
        destruct t as [tg ct]. simpl in Hct. subst ct.
        destruct (executeWithRetry_wrapper _ _ _ _ _ _ _ _ Hx Hg0 Hd0 Hc0)
          as (f' & Hf' & ?). by simplify_eq.
      * rewrite Hsame in Hg; [eauto|]. intros fn. congruence.
Qed.

Lemma future_inv_init n os : future_inv (@init T n os).
Proof.
  constructor; unfold pending; simpl.
  - intros x g fn Hx. case_match; simpl in Hx; by apply elem_of_nil in Hx.
  - intros x y g fn fn' Hx. case_match; simpl in Hx; by apply elem_of_nil in Hx.
  - intros g f Hg. by rewrite lookup_nil in Hg.
Qed.

Lemma reachable_future_inv s evs : reachable s evs -> future_inv s.
Proof.
  intros (n & os & H).
  induction H as [|evs s' a s'' evs' H IH Hs]; [apply future_inv_init|].
  eapply step_future_inv; eauto. by exists n, os.
Qed.

(** X17. How often a Future is completed.  On every Future
    [complete] has run at most twice, and at most once when the retry
    count is zero or negative; the Future is done exactly when
    [complete] has run on it. *)
Theorem complete_at_most_twice s evs g f :
  reachable s evs -> futures s !! g = Some f ->
  (completions f <= 2)%nat
  /\ (retry (opts (pool s)) <= 0 -> (completions f <= 1)%nat)
  /\ (done f = true <-> (0 < completions f)%nat).
Proof.
  intros Hr Hg. destruct (reachable_future_inv _ _ Hr) as [_ _ Hcnt]. eauto.
Qed.

(** X18. A queued Future is pending.  While the wrapper made by
    SubmitWithResult is in the queue, or received and not yet run, its
    Future is allocated and has not been completed: Get on it blocks
    with a live context and returns the zero value with [ctx.Err()]
    when the context is done. *)
Theorem queued_future_is_pending s evs x g fn :
  reachable s evs -> x ∈ pending s -> code x = Wrapper g fn ->
  exists f,
    futures s !! g = Some f /\ done f = false /\ completions f = O
    /\ (forall pick, Get pick f None = None)
    /\ (forall pick (ce : goerr),
          Get pick f (Some ce) = Some (zero, Some ce)).
Proof.
  intros Hr Hx Hc. destruct (reachable_future_inv _ _ Hr) as [Hpe _ _].
  destruct (Hpe x g fn Hx Hc) as (f & Hg & Hd & Hz).
  exists f. unfold Get. rewrite Hd. split_and!; auto.
Qed.

Lemma executeWithRetry_delivers fuel p tg g fn fs f v e :
  0 <= retry (opts p) < max_int -> (1 < fuel)%nat ->
  fs !! g = Some f -> done f = false ->
  fn O = PReturn v e -> e = None \/ retry (opts p) = 0 ->
  executeWithRetry fuel p {| tag := tg; code := Wrapper g fn |} fs
  = Some {| ex_pool := set_errs p (Add (errs p) e);
            ex_futures := <[g := {| result := v; err := e; done := true;
                                    completions := S (completions f) |}]> fs;
            ex_calls := 1;
            ex_recorded := match e with Some y => [y] | None => [] end;
            ex_escaped := None |}.
Proof.
  intros Hk Hfuel Hf Hd Hfn He.
  destruct fuel as [|[|fuel]]; try lia.
  unfold executeWithRetry. cbn [retry_loop].
  destruct (Z.leb_spec 0 (retry (opts p))); [|lia].
  unfold call. cbn [code]. rewrite Hfn. unfold complete_at. rewrite Hf.
  unfold complete. rewrite Hd.
  destruct e as [y|].
  - destruct He as [|He]; [done|]. rewrite He. simpl. done.
  - simpl. by destruct p.
Qed.

(** X19. The result reaches the Future.  With a retry count
    [0 <= retry < MaxInt], when a worker runs the wrapper of a producer
    whose first call returns [(v, e)], with [e] nil or the retry count
    zero, the producer is called once, the Future is completed once with
    [(v, e)], every Get with a live context returns that pair, and [e],
    when it is not nil, is also added to the collector. *)
Theorem result_reaches_the_future s evs w tg g fn v e fuel :
  reachable s evs -> crashed s = false ->
  workers s !! w = Some (WExec {| tag := tg; code := Wrapper g fn |}) ->
  0 <= retry (opts (pool s)) < max_int -> (1 < fuel)%nat ->
  fn O = PReturn v e -> e = None \/ retry (opts (pool s)) = 0 ->
  exists s' f',
    step s (AExecute w fuel)
    = Some (s', EvExecuted tg 1
                :: match e with Some y => [EvRecord tg y] | None => [] end)
    /\ workers s' !! w = Some (WDone {| tag := tg; code := Wrapper g fn |})
    /\ futures s' !! g = Some f'
    /\ completions f' = 1%nat
    /\ (forall pick, Get pick f' None = Some (v, e))
    /\ Errors (errs (pool s'))
       = Errors (errs (pool s))
         ++ match e with Some y => [y] | None => [] end.
Proof.
  intros Hr Hc Hw Hk Hfuel Hfn He.
  destruct (reachable_future_inv _ _ Hr) as [Hpe _ _].
  destruct (Hpe {| tag := tg; code := Wrapper g fn |} g fn)
    as (f & Hg & Hd & Hz); [|done|].
  { unfold pending. rewrite !elem_of_app. right. right.
    by eapply awaiting_lookup. }
  pose proof (executeWithRetry_delivers fuel (pool s) tg g fn (futures s)
                f v e Hk Hfuel Hg Hd Hfn He) as Hx.
  pose proof (lookup_lt_Some _ _ _ Hw) as Hlw.
  pose proof (lookup_lt_Some _ _ _ Hg) as Hlg.
  eexists _, _. split.
  { unfold step, execute_step. rewrite Hc, Hw, Hx. simpl.
    by destruct e. }
  simpl. split_and!.
  - by apply list_lookup_insert_eq.
  - by apply list_lookup_insert_eq.
  - simpl. lia.
  - intros pick. done.
  - destruct e; simpl; by rewrite ?app_nil_r.
Qed.

(** ** The workers finish what was accepted *)

Lemma effort_insert ws w x y :
  ws !! w = Some y ->
  (sum_list_with effort (<[w := x]> ws) + effort y
   = sum_list_with effort ws + effort x)%nat.
Proof.
  intros H.
  rewrite <- (take_drop_middle ws w y H) at 2.
  rewrite insert_take_drop by (eapply lookup_lt_Some; eauto).
  rewrite !sum_list_with_app. simpl. lia.
Qed.

Lemma busy_or_idle ws :
  (exists w t, ws !! w = Some (WExec t))
  \/ (exists w t, ws !! w = Some (WDone t))
  \/ concat (held <$> ws) = [].
Proof.
  induction ws as [|a ws IH]; [by right; right|].
  destruct a as [| |t|t|]; try (by left; exists O, t);
    try (by right; left; exists O, t).
  all: destruct IH as [(w & t & H)|[(w & t & H)|H]];
    [left; by exists (S w), t|right; left; by exists (S w), t|right; right; done].
Qed.

Lemma chanrecv_first c t rest :
  queue c = t :: rest ->
  exists woken c', chanrecv c = Recv t woken c' /\ queue c' = rest.
Proof.
  unfold queue, chanrecv. intros H.
  destruct (buf c) as [|b r]; destruct (sendq c) as [|x ss]; simpl in *;
    simplify_eq; eexists _, _; (split; [reflexivity|]); simpl;
    rewrite <- ?app_assoc, ?app_nil_r; done.
Qed.

Lemma execute_does s w t fuel :
  crashed s = false -> workers s !! w = Some (WExec t) ->
  0 <= retry (opts (pool s)) < max_int ->
  (Z.to_nat (retry (opts (pool s)) + 1) < fuel)%nat ->
  exists s' evs,
    step s (AExecute w fuel) = Some (s', evs)
    /\ crashed s' = false
    /\ workers s' = <[w := WDone t]> (workers s)
    /\ tasks (pool s') = tasks (pool s)
    /\ opts (pool s') = opts (pool s).
Proof.
  intros Hc Hw Hk Hfuel.
  destruct (executeWithRetry_terminates fuel (pool s) t (futures s) Hk Hfuel)
    as [x Hx].
  pose proof (executeWithRetry_pool _ _ _ _ _ Hx)
    as (Ht & _ & _ & Ho & _ & _ & Hesc).
  eexists _, _. split.
  { unfold step, execute_step. rewrite Hc, Hw, Hx, Hesc. reflexivity. }
  simpl. auto.
Qed.

Lemma wgdone_does s evs0 w t :
  reachable s evs0 -> crashed s = false ->
  workers s !! w = Some (WDone t) ->
  exists s',
    step s (AWgDone w) = Some (s', [EvDone (tag t)])
    /\ crashed s' = false
    /\ workers s' = <[w := WSelect]> (workers s)
    /\ tasks (pool s') = tasks (pool s)
    /\ opts (pool s') = opts (pool s).
Proof.
  intros Hr Hc Hw.
  pose proof (reachable_inv _ _ Hr Hc) as [Hwg _ _ _].
  assert (1 <= wg (pool s)) as Hpos.
  { rewrite Hwg.
    assert (t ∈ inflight s) as Hin.
    { unfold inflight. rewrite !elem_of_app. right. right.
      eapply held_lookup; [exact Hw|]. simpl. left. }
    destruct (inflight s); [by apply elem_of_nil in Hin|]. simpl. lia. }
  eexists. split.
  { unfold step, wgdone_step. rewrite Hc, Hw.
    destruct (Z.ltb_spec (wg (pool s) - 1) 0); [lia|]. reflexivity. }
  simpl. auto.
Qed.

Lemma select_does s w t rest :
  crashed s = false -> workers s !! w = Some WSelect ->
  queue (tasks (pool s)) = t :: rest ->
  exists s' evs,
    step s (ASelect w false) = Some (s', evs)
    /\ crashed s' = false
    /\ workers s' = <[w := WExec t]> (workers s)
    /\ queue (tasks (pool s')) = rest
    /\ opts (pool s') = opts (pool s).
Proof.
  intros Hc Hw Hq.
  destruct (chanrecv_first _ _ _ Hq) as (woken & c' & Hr & Hq').
  eexists _, _. split.
  { unfold step, select_step. rewrite Hc, Hw, Hr, andb_false_r.
    reflexivity. }
  simpl. auto.
Qed.

Lemma alive_insert ws w wk w' x :
  ws !! w = Some wk -> wk <> WStopped -> x <> WStopped ->
  exists wk', <[w' := x]> ws !! w = Some wk' /\ wk' <> WStopped.
Proof.
  intros Hw Hwk Hx. destruct (decide (w = w')) as [->|Hne].
  - exists x. split; [|done]. apply list_lookup_insert_eq.
    eapply lookup_lt_Some; eauto.
  - exists wk. split; [|done]. by rewrite list_lookup_insert_ne.
Qed.

(** By induction on the steps that remain: a worker with a task in its
    hands goes on, else the worker that lives receives the next task. *)
Lemma drain n :
  forall s evs0 w wk fuel,
    (remaining s <= n)%nat ->
    reachable s evs0 -> crashed s = false ->
    workers s !! w = Some wk -> wk <> WStopped ->
    0 <= retry (opts (pool s)) < max_int ->
    (Z.to_nat (retry (opts (pool s)) + 1) < fuel)%nat ->
    exists acts s' evs,
      run s acts = Some (s', evs)
      /\ Forall (fun a => worker_step a = true) acts
      /\ crashed s' = false
      /\ queue (tasks (pool s')) = []
      /\ concat (held <$> workers s') = [].
Proof.
  induction n as [n IH] using lt_wf_ind.
  intros s evs0 w wk fuel Hn Hr Hc Hw Hwk Hk Hfuel.
  destruct (busy_or_idle (workers s)) as [(w' & t & Hw')|[(w' & t & Hw')|Hidle]].
  - destruct (execute_does s w' t fuel Hc Hw' Hk Hfuel)
      as (s1 & evs1 & Hs & Hc1 & Hws & Ht & Ho).
    destruct (alive_insert _ _ _ w' (WDone t) Hw Hwk) as (wk1 & Hw1 & Hwk1);
      [done|].
    pose proof (effort_insert _ _ (WDone t) _ Hw') as He. simpl in He.
    destruct (IH (remaining s1)) with (s := s1) (evs0 := evs0 ++ evs1)
      (w := w) (wk := wk1) (fuel := fuel)
      as (acts & s2 & evs2 & Hrun & Hall & Hc2 & Hq2 & Hh2);
      rewrite ?Ho; auto.
    { unfold remaining in *. rewrite Hws, Ht. lia. }
    { eapply reachable_step; eauto. }
    { by rewrite Hws. }
    exists (AExecute w' fuel :: acts), s2, (evs1 ++ evs2).
    split; [eapply run_cons; eauto|]. split; [by constructor|]. auto.
  - destruct (wgdone_does s evs0 w' t Hr Hc Hw')
      as (s1 & Hs & Hc1 & Hws & Ht & Ho).
    destruct (alive_insert _ _ _ w' WSelect Hw Hwk) as (wk1 & Hw1 & Hwk1);
      [done|].
    pose proof (effort_insert _ _ WSelect _ Hw') as He. simpl in He.
    destruct (IH (remaining s1)) with (s := s1)
      (evs0 := evs0 ++ [EvDone (tag t)])
      (w := w) (wk := wk1) (fuel := fuel)
      as (acts & s2 & evs2 & Hrun & Hall & Hc2 & Hq2 & Hh2);
      rewrite ?Ho; auto.
    { unfold remaining in *. rewrite Hws, Ht. lia. }
    { eapply reachable_step; eauto. }
    { by rewrite Hws. }
    exists (AWgDone w' :: acts), s2, ([EvDone (tag t)] ++ evs2).
    split; [eapply run_cons; eauto|]. split; [by constructor|]. auto.
  - destruct (queue (tasks (pool s))) as [|t rest] eqn:Hq.
    { exists [], s, []. split; [done|]. split; [constructor|]. auto. }
    assert (wk = WSelect) as ->.
    { destruct wk as [| |t'|t'|]; try done.
      - pose proof (reachable_inv _ _ Hr Hc) as [_ _ Hpk _].
        pose proof (reachable_queue_inv _ _ Hr) as [_ _ _ Hrq _ _ _].
        apply Hpk in Hw. rewrite Hrq in Hq; [done|].
        intros Hnil. rewrite Hnil in Hw. by apply elem_of_nil in Hw.
      - assert (t' ∈ concat (held <$> workers s)) as Hin
          by (eapply held_lookup; [exact Hw|left]).
        rewrite Hidle in Hin. by apply elem_of_nil in Hin.
      - assert (t' ∈ concat (held <$> workers s)) as Hin
          by (eapply held_lookup; [exact Hw|left]).
        rewrite Hidle in Hin. by apply elem_of_nil in Hin. }
    destruct (select_does s w t rest Hc Hw Hq)
      as (s1 & evs1 & Hs & Hc1 & Hws & Hq1 & Ho).
    pose proof (effort_insert _ _ (WExec t) _ Hw) as He. simpl in He.
    destruct (IH (remaining s1)) with (s := s1) (evs0 := evs0 ++ evs1)
      (w := w) (wk := WExec t) (fuel := fuel)
      as (acts & s2 & evs2 & Hrun & Hall & Hc2 & Hq2 & Hh2);
      rewrite ?Ho; auto.
    { unfold remaining in *. rewrite Hws, Hq1. rewrite Hq in Hn.
      simpl length in Hn. lia. }
    { eapply reachable_step; eauto. }
    { rewrite Hws. apply list_lookup_insert_eq. eapply lookup_lt_Some; eauto. }
    exists (ASelect w false :: acts), s2, (evs1 ++ evs2).
    split; [eapply run_cons; eauto|]. split; [by constructor|]. auto.
Qed.

(** X20. No deadlock while a worker lives.  From every state the
    program reaches without a panic, with a retry count in range and at
    least one worker that has not returned, the workers alone can take
    steps after which the queue is empty, every caller of Submit has been
    admitted, the counter is zero and Wait can return. *)
Theorem workers_can_finish_every_task s evs0 w wk fuel :
  reachable s evs0 -> crashed s = false ->
  workers s !! w = Some wk -> wk <> WStopped ->
  0 <= retry (opts (pool s)) < max_int ->
  (Z.to_nat (retry (opts (pool s)) + 1) < fuel)%nat ->
  exists acts s' evs,
    run s acts = Some (s', evs)
    /\ Forall (fun a => worker_step a = true) acts
    /\ crashed s' = false
    /\ queue (tasks (pool s')) = []
    /\ wg (pool s') = 0
    /\ (exists r, Wait (pool s') = Some (Some r))
    /\ is_Some (step s' AWaitPass).
Proof.
  intros Hr Hc Hw Hwk Hk Hfuel.
  destruct (drain (remaining s) s evs0 w wk fuel)
    as (acts & s' & evs & Hrun & Hall & Hc' & Hq & Hh); auto.
  exists acts, s', evs. split_and!; auto.
  all: assert (reachable s' (evs0 ++ evs)) as Hr'
    by (destruct Hr as (n & os & H); exists n, os;
        eapply steps_trans; [exact H|by apply (run_steps acts)]).
  all: pose proof (reachable_inv _ _ Hr' Hc') as [Hwg _ _ Hon].
  all: assert (wg (pool s') = 0) as Hz
    by (apply app_eq_nil in Hq as [Hb Hs];
        rewrite Hwg; unfold inflight; by rewrite Hb, Hs, Hh).
  - done.
  - unfold Wait, wg_Wait, once_Do_close, closechan. rewrite Hz, Hon. simpl.
    destruct (once (pool s')); eauto.
  - unfold step, wg_Wait. rewrite Hc', Hz. simpl. eauto.
Qed.

(** ** Panics of tasks and of producers *)








End Further.


(** * The properties on concrete runs *)

Lemma reachable_final n os acts :
  is_Some (run (init n os) acts) -> reachable (final n os acts) (trace n os acts).
Proof.
  intros [[s evs] H]. unfold final, trace. rewrite H. simpl.
  eapply reachable_run; eauto.
Qed.

Lemma steps_run (s : @System Z) acts :
  is_Some (run s acts) ->
  steps s (from_option snd [] (run s acts)) (from_option fst s (run s acts)).
Proof. intros [[s' evs] H]. rewrite H. simpl. by apply (run_steps acts). Qed.

(** C1 on a run: two calls, one task served and one rejected. *)
Lemma accounting_witness :
  wg (pool (final 1 (small QueueFullReturnError) serve_one)) = 0
  <-> finished (trace 1 (small QueueFullReturnError) serve_one)
      = accepted (trace 1 (small QueueFullReturnError) serve_one).
Proof.
  apply accounting.
  - apply reachable_final. vm_compute. eauto.
  - reflexivity.
Defined.

(** C2 at the largest retry count.  With [WithRetry(math.MaxInt)] and a
    task that always returns an error the loop counter wraps around and the
    loop condition stays true: after any number [n] of iterations the task
    has been called [n] times and the loop is still running, so
    executeWithRetry does not return and the task is not executed exactly
    [retry + 1] times.  Below the largest int the count is exact
    ([retry_exactness]). *)
Theorem retry_max_int_never_returns :
  forall n : nat,
    retry_loop n (retry (opts (@New Z 1 [WithRetry max_int])))
      {| tag := 0; code := Plain failing_task |} 0 0 None
      ([] : list (@Future Z))
    = (None, n, [])
    /\ executeWithRetry n (New 1 [WithRetry max_int])
         {| tag := 0; code := Plain failing_task |} ([] : list (@Future Z))
       = None.
Proof.
  intros n.
  assert (forall m i k e,
    min_int <= i <= max_int ->
    retry_loop m max_int {| tag := 0; code := Plain failing_task |} i k e
      ([] : list (@Future Z)) = (None, (k + m)%nat, [])) as H.
  { induction m as [|m IH]; intros i k e Hi; simpl.
    - do 2 f_equal. lia.
    - destruct (Z.leb_spec i max_int); [|lia].
      rewrite IH; [do 2 f_equal; lia|].
      destruct (Z.eq_dec i max_int) as [->|].
      + rewrite wrap_int_max. unfold min_int, max_int, int_bits. simpl. lia.
      + rewrite wrap_int_id; lia. }
  unfold executeWithRetry.
  change (retry (opts (@New Z 1 [WithRetry max_int]))) with max_int.
  rewrite H; [done|]. unfold min_int, max_int, int_bits. simpl. lia.
Qed.

(** C3 with one retry.  A producer that returns an error is called a
    second time by the retry loop, and the wrapper's deferred function
    runs [complete] on the same Future again: the second call overwrites
    the fields and panics on the closed channel, and executeWithRetry
    records that panic in the collector. *)
Theorem complete_runs_twice_under_retry :
  futures (final 1 [WithRetry 1; WithQueueSize 1] retry_producer) !! O
  = Some {| result := 0; err := Some (TaskError "boom"); done := true;
            completions := 2 |}
  /\ Errors (errs (pool (final 1 [WithRetry 1; WithQueueSize 1]
                          retry_producer)))
     = [panicError close_of_closed_channel]
  /\ crashed (final 1 [WithRetry 1; WithQueueSize 1] retry_producer) = false.
Proof. vm_compute. auto. Qed.



(** C5 on a run: a second Submit into the full queue of one. *)
Lemma return_error_policy_witness :
  exists p',
    Submit (pool (final 1 (small QueueFullReturnError) fill_queue))
      {| tag := 1; code := Plain failing_task |}
    = Rejected p' ErrQueueFull
    /\ wg p' = wg (pool (final 1 (small QueueFullReturnError) fill_queue))
    /\ Errors (errs p') = [ErrQueueFull].
Proof.
  destruct (return_error_policy
              (pool (final 1 (small QueueFullReturnError) fill_queue))
              {| tag := 1; code := Plain failing_task |} eq_refl)
    as [H _].
  destruct H as (p' & HS & _ & Hwg & _ & He & _).
  - split; [reflexivity|]. split; [reflexivity|]. vm_compute. discriminate.
  - exists p'. split; [exact HS|]. split; [exact Hwg|exact He].
Defined.

(** C6 on a run: a second Submit into the full queue of one. *)
Lemma discard_policy_witness :
  exists s',
    step (final 1 (small QueueFullDiscard) fill_queue) (ASubmit failing_task)
    = Some (s', [EvEnter 1; EvDiscard 1])
    /\ wg (pool s') = 1
    /\ Errors (errs (pool s')) = [].
Proof.
  destruct (discard_policy (final 1 (small QueueFullDiscard) fill_queue)
              (trace 1 (small QueueFullDiscard) fill_queue) failing_task)
    as (s' & Hs & _ & Hwg & He & _).
  - apply reachable_final. vm_compute. eauto.
  - reflexivity.
  - reflexivity.
  - split; [reflexivity|]. split; [reflexivity|]. vm_compute. discriminate.
  - exists s'. split; [exact Hs|]. split; [exact Hwg|exact He].
Defined.

(** C7 as stated fails with a context that is done: two [Get] on the
    same completed Future return different pairs, depending on the case
    the [select] picks. *)
Lemma get_with_cancelled_context :
  Get true future_42 cancelled = Some (0, Some (CtxError "context canceled"))
  /\ Get false future_42 cancelled = Some (42, None)
  /\ Get true future_42 cancelled <> Some (result future_42, err future_42).
Proof. split; [done|]. split; [done|]. discriminate. Qed.

(** C7 on a run: the Future of a producer that returned (42, nil). *)
Lemma get_after_completion_witness :
  Get true future_42 None = Some (42, None)
  /\ Get false future_42 None = Get true future_42 None.
Proof.
  destruct (get_after_completion
              (final 1 (small QueueFullWait) complete_future)
              _ _ O future_42 future_42
              (steps_run (final 1 (small QueueFullWait) complete_future)
                 [AWgDone 0] (ltac:(vm_compute; eauto))))
    as [H _]; try reflexivity.
  exact (H true false).
Defined.

(** C8 on a run: two calls of Wait, one close. *)
Lemma wait_closes_once_witness :
  (closes (trace 1 (small QueueFullWait) wait_twice) <= 1)%nat
  /\ closes (trace 1 (small QueueFullWait) wait_twice) = 1%nat.
Proof.
  destruct (wait_closes_once (final 1 (small QueueFullWait) wait_twice)
              (trace 1 (small QueueFullWait) wait_twice))
    as (H1 & H2 & _).
  - apply reachable_final. vm_compute. eauto.
  - split; [exact H1|exact H2].
Defined.

(** C9 on a run: SubmitWithResult into the full queue of one. *)
Lemma submit_with_result_rejected_witness :
  exists s',
    step (final 1 (small QueueFullReturnError) fill_queue)
      (ASubmitWithResult ok_producer)
    = Some (s', [EvEnter 1; EvRecord 1 ErrQueueFull; EvReject 1])
    /\ futures s' !! O
       = Some {| result := 0; err := Some ErrQueueFull; done := true;
                 completions := 1 |}.
Proof.
  destruct (submit_with_result_rejected
              (final 1 (small QueueFullReturnError) fill_queue)
              (trace 1 (small QueueFullReturnError) fill_queue)
              ok_producer ErrQueueFull)
    as (_ & _ & _ & s' & Hs & Hf & _).
  - apply reachable_final. vm_compute. eauto.
  - reflexivity.
  - reflexivity.
  - exists s'. split; [exact Hs|exact Hf].
Defined.

(** C10 on a run: SubmitWithResult into the full queue of one. *)
Lemma discarded_future_stays_pending_witness :
  exists s',
    step (final 1 (small QueueFullDiscard) fill_queue)
      (ASubmitWithResult ok_producer)
    = Some (s', [EvEnter 1; EvDiscard 1])
    /\ futures s' !! O = Some newFuture.
Proof.
  destruct (discarded_future_stays_pending
              (final 1 (small QueueFullDiscard) fill_queue)
              (trace 1 (small QueueFullDiscard) fill_queue) ok_producer)
    as (s' & Hs & _ & Hf & _).
  - apply reachable_final. vm_compute. eauto.
  - reflexivity.
  - reflexivity.
  - split; [reflexivity|]. split; [reflexivity|]. vm_compute. discriminate.
  - exists s'. split; [exact Hs|exact Hf].
Defined.

(** * The further properties on concrete runs *)

Lemma run_final n os acts :
  is_Some (run (init n os) acts) ->
  run (init n os) acts = Some (final n os acts, trace n os acts).
Proof. intros [[s evs] H]. unfold final, trace. by rewrite H. Qed.

Lemma run_from (s : @System Z) acts :
  is_Some (run s acts) ->
  run s acts
  = Some (from_option fst s (run s acts), from_option snd [] (run s acts)).
Proof. intros [[s' evs] H]. by rewrite H. Qed.

(** X3 on a run: one task in a queue of one. *)
Lemma queue_bound_witness :
  cap (tasks (pool (final 1 (small QueueFullWait) fill_queue))) = 1
  /\ Z.of_nat
       (length (buf (tasks (pool (final 1 (small QueueFullWait) fill_queue)))))
     <= 1.
Proof.
  pose proof (queue_bound 1 (small QueueFullWait) _ _
                (steps_run (init 1 (small QueueFullWait)) fill_queue
                   ltac:(vm_compute; eauto))) as (H1 & H2 & _).
  split; [exact H1|exact H2].
Defined.

(** X4 on a run: the worker parks at the empty queue. *)
Lemma no_task_waits_while_a_worker_is_parked_witness :
  buf (tasks (pool (final 1 (small QueueFullWait) park_worker))) = []
  /\ sendq (tasks (pool (final 1 (small QueueFullWait) park_worker))) = [].
Proof.
  apply (no_task_waits_while_a_worker_is_parked _
           (trace 1 (small QueueFullWait) park_worker) O).
  - apply reachable_final. vm_compute. eauto.
  - reflexivity.
  - reflexivity.
Defined.

(** X5 on a run: two tasks in a queue of two. *)
Lemma fifo_witness :
  StronglySorted lt
    (tag <$> queue (tasks (pool (final 1 [WithQueueSize 2] two_queued)))).
Proof.
  refine (proj1 (fifo _ (trace 1 [WithQueueSize 2] two_queued) _)).
  apply reachable_final. vm_compute. eauto.
Defined.

(** X6 on a run: the parked worker is released when the context ends. *)
Lemma no_worker_parks_after_cancel_witness :
  recvq (tasks (pool (final 1 (small QueueFullWait) cancel_idle))) = [].
Proof.
  refine (proj1 (no_worker_parks_after_cancel _
                   (trace 1 (small QueueFullWait) cancel_idle) _ _ _)).
  - apply reachable_final. vm_compute. eauto.
  - reflexivity.
  - reflexivity.
Defined.

(** X7 on a run: after one Wait. *)
Lemma panics_of_the_pool_operations_witness :
  (exists p,
     Submit (pool (final 1 (small QueueFullWait) wait_once))
       {| tag := 0; code := Plain ok_task |} = SubmitPanics p)
  /\ once_Do_close (pool (final 1 (small QueueFullWait) wait_once)) <> None.
Proof.
  destruct (panics_of_the_pool_operations
              (final 1 (small QueueFullWait) wait_once)
              (trace 1 (small QueueFullWait) wait_once))
    as (_ & _ & Hclose & _ & _ & Hsend).
  - apply reachable_final. vm_compute. eauto.
  - reflexivity.
  - split; [|exact Hclose]. apply Hsend. reflexivity.
Defined.

(** X8 on a run: after one Wait. *)
Lemma submit_after_wait_panics_witness :
  Submit (pool (final 1 (small QueueFullDiscard) wait_once))
    {| tag := 0; code := Plain ok_task |}
  = SubmitPanics (wg_Add (pool (final 1 (small QueueFullDiscard) wait_once)) 1).
Proof.
  refine (proj1 (submit_after_wait_panics _
                   (trace 1 (small QueueFullDiscard) wait_once) _ _ _) _).
  - apply reachable_final. vm_compute. eauto.
  - reflexivity.
  - vm_compute. lia.
Defined.

(** X9 on a run: Run called twice on a pool of two. *)
Lemma worker_bound_witness :
  length (workers (final 2 [] run_twice)) = 4%nat.
Proof.
  refine (proj1 (worker_bound 2 [] run_twice _ _
                   (run_final 2 [] run_twice _))).
  vm_compute. eauto.
Defined.

(** X10 on a run: the context ends with a task in the queue, the worker
    returns, and a later Submit changes nothing for Wait. *)
Lemma wait_blocks_once_the_workers_stopped_witness :
  Wait (pool (from_option fst
                (final 1 (small QueueFullDiscard) cancel_with_queued)
                (run (final 1 (small QueueFullDiscard) cancel_with_queued)
                   [ASubmit ok_task])))
  = None.
Proof.
  refine (proj1 (proj2 (proj2
    (wait_blocks_once_the_workers_stopped
       (final 1 (small QueueFullDiscard) cancel_with_queued)
       (trace 1 (small QueueFullDiscard) cancel_with_queued)
       [ASubmit ok_task] _ _ _ _ _ _
       (run_from _ _ _))))).
  - apply reachable_final. vm_compute. eauto.
  - intros [|w] wk H; vm_compute in H; congruence.
  - reflexivity.
  - reflexivity.
  - vm_compute. eauto.
Defined.

(** X11 on a run. *)
Lemma wait_policy_never_drops_witness :
  dropped (trace 1 (small QueueFullWait) fill_queue) = O.
Proof.
  refine (proj1 (wait_policy_never_drops
                   (final 1 (small QueueFullWait) fill_queue) _ _ _ _)).
  - apply reachable_final. vm_compute. eauto.
  - vm_compute. congruence.
  - vm_compute. congruence.
Defined.

(** X12 on a run. *)
Lemma submit_never_blocks_unless_policy_is_wait_witness :
  sendq (tasks (pool (final 1 (small QueueFullDiscard) serve_one))) = [].
Proof.
  refine (proj1 (submit_never_blocks_unless_policy_is_wait _
                   (trace 1 (small QueueFullDiscard) serve_one) _ _)).
  - apply reachable_final. vm_compute. eauto.
  - left. reflexivity.
Defined.

(** X13 with two retries and a task that always fails. *)
Lemma retry_outcome_witness :
  exists x j,
    executeWithRetry 4 (New 1 [WithRetry 2])
      {| tag := 0; code := Plain failing_task |} ([] : list (@Future Z))
    = Some x
    /\ ex_calls x = S j /\ Z.of_nat j <= 2.
Proof.
  destruct (retry_outcome 4 (@New Z 1 [WithRetry 2]) O failing_task [])
    as (x & j & H1 & H2 & H3 & _).
  - vm_compute. split; congruence.
  - vm_compute. lia.
  - exists x, j. auto.
Defined.

(** X14 with two retries. *)
Lemma attempts_are_bounded_witness :
  exists x,
    executeWithRetry 4 (New 1 [WithRetry 2])
      {| tag := 0; code := Plain failing_task |} ([] : list (@Future Z))
    = Some x
    /\ (ex_calls x <= 3)%nat.
Proof.
  destruct (attempts_are_bounded 4 (@New Z 1 [WithRetry 2])
              {| tag := 0; code := Plain failing_task |} [])
    as (x & H1 & H2 & _).
  - reflexivity.
  - vm_compute. lia.
  - exists x. auto.
Defined.

(** X15 on the run with a producer that is retried. *)
Lemma executed_at_most_once_witness :
  (executions 0 (trace 1 [WithRetry 1; WithQueueSize 1] retry_producer)
   <= 1)%nat.
Proof.
  refine (proj1 (proj2 (executed_at_most_once
                          (final 1 [WithRetry 1; WithQueueSize 1]
                             retry_producer) _ _)) _).
  apply reachable_final. vm_compute. eauto.
Defined.

(** X16 on a run: one task served and one rejected. *)
Lemma one_error_per_submission_witness :
  Errors (errs (pool (final 1 (small QueueFullReturnError) serve_one)))
  = recorded (trace 1 (small QueueFullReturnError) serve_one).
Proof.
  refine (proj1 (one_error_per_submission _ _ _)).
  apply reachable_final. vm_compute. eauto.
Defined.

(** X17 on the run with a producer that is retried: two completions. *)
Lemma complete_at_most_twice_witness :
  (completions {| result := 0%Z; err := Some (TaskError "boom");
                  done := true; completions := 2 |} <= 2)%nat.
Proof.
  refine (proj1 (complete_at_most_twice
                   (final 1 [WithRetry 1; WithQueueSize 1] retry_producer)
                   (trace 1 [WithRetry 1; WithQueueSize 1] retry_producer)
                   O _ _ _)).
  - apply reachable_final. vm_compute. eauto.
  - reflexivity.
Defined.

(** X18 on a run: the wrapper is in the buffer. *)
Lemma queued_future_is_pending_witness :
  exists f,
    futures (final 1 (small QueueFullWait) queued_producer) !! O = Some f
    /\ done f = false.
Proof.
  destruct (queued_future_is_pending
              (final 1 (small QueueFullWait) queued_producer)
              (trace 1 (small QueueFullWait) queued_producer)
              {| tag := 0; code := Wrapper 0 ok_producer |} O ok_producer)
    as (f & H1 & H2 & _).
  - apply reachable_final. vm_compute. eauto.
  - vm_compute. constructor.
  - reflexivity.
  - exists f. auto.
Defined.

(** X19 on a run: the worker has received the wrapper of a producer that
    returns (42, nil). *)
Lemma result_reaches_the_future_witness :
  exists s' f',
    step (final 1 (small QueueFullWait) received_producer) (AExecute 0 2)
    = Some (s', [EvExecuted 0 1])
    /\ futures s' !! O = Some f'
    /\ Get false f' None = Some (42, None).
Proof.
  destruct (result_reaches_the_future
              (final 1 (small QueueFullWait) received_producer)
              (trace 1 (small QueueFullWait) received_producer)
              O O O ok_producer 42 None 2)
    as (s' & f' & H1 & _ & H2 & _ & H3 & _).
  - apply reachable_final. vm_compute. eauto.
  - reflexivity.
  - reflexivity.
  - vm_compute. split; congruence.
  - lia.
  - reflexivity.
  - left. reflexivity.
  - exists s', f'. auto.
Defined.

(** X20 on a run: one task in the queue and the worker at its select. *)
Lemma workers_can_finish_every_task_witness :
  exists acts s' evs,
    run (final 1 (small QueueFullWait) fill_queue) acts = Some (s', evs)
    /\ wg (pool s') = 0.
Proof.
  destruct (workers_can_finish_every_task
              (final 1 (small QueueFullWait) fill_queue)
              (trace 1 (small QueueFullWait) fill_queue) O WSelect 2)
    as (acts & s' & evs & H1 & _ & _ & _ & H2 & _).
  - apply reachable_final. vm_compute. eauto.
  - reflexivity.
  - reflexivity.
  - discriminate.
  - vm_compute. split; congruence.
  - vm_compute. lia.
  - exists acts, s', evs. auto.
Defined.
